(** * pop_exp: population exposure to geographic hazards

    A shallow embedding of [src/pop_exp/pop_ex_helpers.py] and the
    properties of its projection selector, loader, buffering stage,
    overlap merger and zonal aggregation.

    Conventions of the embedding.
    - Python floats are idealised as exact rationals ([Q]); rounding is
      not modelled.  The statements about the zones are about longitudes
      that binary64 holds and shifts by 180 without rounding
      ([binary64_exact]), where the two agree.
    - Python exceptions are values of [exn] (class name and message) and a
      function that may raise returns in the [except] monad.
    - A geometry is a finite set of unit cells of an integer grid: the cell
      [(i, j)] is the closed square [i, i+1] x [j, j+1] of the frame its
      data frame declares.  Union, decomposition into parts, the
      intersects predicate, envelopes, centroids and areas of such
      rectilinear footprints are exact on the grid and are defined here.
      Reprojection, metric buffering and geometry repair do not preserve
      the grid; they are operations of the geometry kernel (pyproj, GEOS)
      and are taken as the fields of a [GeoKernel].
    - A hazard that is a point has a position and no cell.  The stages
      are embedded on polygons; the Buffering Engine is embedded on
      polygons and points as well ([add_buffered_geom_col_shapes]), and
      on polygons the two agree.
    - A data frame is a declared frame ([crs]) and the list of its rows;
      each pipeline stage has the record of the columns it carries.
    - The order in which the spatial index of the join lists the matches
      of a left row, and the order of the WKT texts by which the groups
      are sorted, are the libraries' own: they are the fields of a
      [RowOrder], each a permutation of what it is given, and the
      statements about the merger hold for every such order.  The WKT
      text of a geometry is held as the list of its cells.
    - The overlay of the regions with the spatial units keeps a pair when
      the two geometries share a cell and lists the pairs in the order of
      the regions and then of the units. *)

From Stdlib Require Import ZArith QArith Qround String Ascii List DecimalString DecimalZ Lia Lqa.
From stdpp Require Import gmap strings list sorting.

#[local] Set Warnings "-clear-no-such-hyp".

Local Open Scope string_scope.

(** ** Exceptions *)

Record exn := Exn { exn_class : string; exn_msg : string }.

Inductive except (A : Type) : Type :=
| Ok (a : A)
| Raise (e : exn).
Arguments Ok {A} a.
Arguments Raise {A} e.

#[global] Instance except_ret : MRet except := λ A a, Ok a.
#[global] Instance except_bind : MBind except := λ A B f m,
  match m with
  | Ok a => f a
  | Raise e => Raise e
  end.

Definition raises {A} (m : except A) (cls : string) : Prop :=
  ∃ msg, m = Raise (Exn cls msg).

Definition returns {A} (m : except A) : Prop := ∃ a, m = Ok a.

(** ** Python numbers and strings *)

(** [str] of an [int]. *)
Definition str_of_int (z : Z) : string := NilZero.string_of_int (Z.to_int z).

(** [int(x)] of a float: truncation toward zero. *)
Definition py_int (x : Q) : Z := Z.quot (Qnum x) (Z.pos (Qden x)).

(** [a // b] on floats, for the exact quotient. *)
Definition floordiv (a b : Q) : Q := inject_Z (Qfloor (a / b)).

(** ** Projection Selector *)

Module Projection.

Definition zone_number (lon : Q) : Q := (floordiv (lon + 180) 6 + 1)%Q.

Definition hemisphere (lat : Q) : Q :=
  if Qle_bool 0 lat then 326%Q else 327%Q.

Definition epsg_code (lat lon : Q) : Q :=
  (hemisphere lat * 100 + zone_number lon)%Q.

(** [get_best_utm_projection], lines 22-26. *)
Definition get_best_utm_projection (lat lon : Q) : string :=
  let zone_number := (floordiv (lon + 180) 6 + 1)%Q in
  let hemisphere := if Qle_bool 0 lat then 326%Q else 327%Q in
  let epsg_code := (hemisphere * 100 + zone_number)%Q in
  "EPSG:" ++ str_of_int (py_int epsg_code).

(** The integer zone [floor((lon + 180) / 6) + 1] and the hemisphere base
    as integers. *)
Definition zone (lon : Q) : Z := (Qfloor ((lon + 180) / 6) + 1)%Z.

Definition hemisphere_base (lat : Q) : Z :=
  if Qle_bool 0 lat then 326%Z else 327%Z.

End Projection.

(** ** Paths and the loader's file system *)

Module PathLib.

(** [s.split(sep)] for a one-character separator. *)
Fixpoint split_on (sep : ascii) (s : string) : list string :=
  match s with
  | EmptyString => [EmptyString]
  | String c s' =>
      if Ascii.eqb c sep then EmptyString :: split_on sep s'
      else match split_on sep s' with
           | h :: t => String c h :: t
           | [] => [String c EmptyString]
           end
  end.

(** [s.rfind(ch)], [None] for -1. *)
Fixpoint rfind (ch : ascii) (s : string) : option nat :=
  match s with
  | EmptyString => None
  | String c s' =>
      match rfind ch s' with
      | Some i => Some (S i)
      | None => if Ascii.eqb c ch then Some 0%nat else None
      end
  end.

Fixpoint starts_with (p s : string) : bool :=
  match p, s with
  | EmptyString, _ => true
  | String a p', String b s' => Ascii.eqb a b && starts_with p' s'
  | String _ _, EmptyString => false
  end.

(** A [pathlib.PurePosixPath]: its root and the components after it. *)
Record Path := MkPath { root : string; tail : list string }.

(** [Path(s)]: two leading slashes (and not three) are kept as the root
    ["//"], any other leading slashes are the root ["/"]; empty and ["."]
    components are dropped. *)
Definition mk_path (s : string) : Path :=
  let root :=
    if starts_with "/" s then
      if starts_with "//" s && negb (starts_with "///" s) then "//" else "/"
    else "" in
  let parts :=
    filter (λ x : string, x ≠ "" ∧ x ≠ ".") (split_on "/" s) in
  MkPath root parts.

(** [path.name]: the final component, [""] when there is none. *)
Definition name (p : Path) : string := List.last (tail p) "".

(** [path.suffix]: the final component from its last dot on, when that dot
    is neither its first nor its last character. *)
Definition suffix (p : Path) : string :=
  let name := name p in
  match rfind "." name with
  | Some i =>
      if (0 <? i)%nat && (i <? String.length name - 1)%nat
      then substring i (String.length name - i) name
      else ""
  | None => ""
  end.

(** [str(path)]. *)
Definition str (p : Path) : string :=
  match tail p with
  | [] => if String.eqb (root p) "" then "." else root p
  | _ => root p ++ String.concat "/" (tail p)
  end.

End PathLib.

(** ** Geometries on the grid *)

Definition cell : Type := (Z * Z)%type.

Abbreviation geom := (gset cell).

Module Grid.

(** The four cells that share an edge with [c]. *)
Definition edge_nbrs (c : cell) : geom :=
  {[ (c.1 + 1, c.2)%Z; (c.1 - 1, c.2)%Z; (c.1, c.2 + 1)%Z; (c.1, c.2 - 1)%Z ]}.

(** Two closed cells share a point: a corner, an edge, or all of it. *)
Definition cells_meet (a b : cell) : Prop :=
  (Z.abs (a.1 - b.1) ≤ 1 ∧ Z.abs (a.2 - b.2) ≤ 1)%Z.

#[global] Instance cells_meet_dec a b : Decision (cells_meet a b).
Proof. unfold cells_meet. apply _. Defined.

(** [a.intersects(b)]: the closed footprints share at least one point. *)
Definition intersects (a b : geom) : bool :=
  bool_decide (Exists (λ x, Exists (λ y, cells_meet x y) (elements b)) (elements a)).

(** The footprints share a cell or an edge of a cell: their union is in
    one piece at that place. *)
Definition joined (a b : geom) : bool :=
  bool_decide (Exists (λ x, x ∈ b ∨ edge_nbrs x ∩ b ≠ ∅) (elements a)).

(** One round of growth of a part: every cell of [g] that shares an edge
    with a cell already collected is collected. *)
Definition grow (g acc : geom) : geom :=
  acc ∪ filter (λ c, edge_nbrs c ∩ acc ≠ ∅) g.

Fixpoint grow_n (n : nat) (g acc : geom) : geom :=
  match n with
  | O => acc
  | S n' => grow_n n' g (grow g acc)
  end.

(** The part of [g] that holds the cell [c]. *)
Definition part_of (g : geom) (c : cell) : geom := grow_n (size g) g {[ c ]}.

Fixpoint parts_fuel (n : nat) (g : geom) : list geom :=
  match n with
  | O => []
  | S n' =>
      match elements g with
      | [] => []
      | c :: _ => let p := part_of g c in p :: parts_fuel n' (g ∖ p)
      end
  end.

(** [shapely.get_parts] of a polygonal geometry: its single-part
    constituents, the maximal pieces with a connected interior. *)
Definition get_parts (g : geom) : list geom := parts_fuel (size g) g.

(** A geometry of one part (a [Polygon], not a [MultiPolygon]). *)
Definition single_part (g : geom) : bool := bool_decide (get_parts g = [g]).

(** [shapely.ops.unary_union]. *)
Definition unary_union (gs : list geom) : geom := ⋃ gs.

(** [g.area], in cells. *)
Definition area (g : geom) : Z := Z.of_nat (size g).

(** [g.is_empty]. *)
Definition is_empty (g : geom) : bool := bool_decide (g = ∅).

Definition minimum (l : list Z) : Z := foldr Z.min (hd 0%Z l) l.
Definition maximum (l : list Z) : Z := foldr Z.max (hd 0%Z l) l.

(** [g.envelope]: the bounding rectangle. *)
Definition envelope (g : geom) : geom :=
  let xs := (elements g).*1 in
  let ys := (elements g).*2 in
  if is_empty g then ∅
  else
    list_to_set
      (x ← seqZ (minimum xs) (maximum xs - minimum xs + 1);
       y ← seqZ (minimum ys) (maximum ys - minimum ys + 1);
       [(x, y)]).

Definition Qsum (l : list Q) : Q := foldr Qplus 0%Q l.

(** [g.centroid] as [(x, y)]: the mean of the centres of the cells. *)
Definition centroid (g : geom) : Q * Q :=
  let n := inject_Z (Z.of_nat (size g)) in
  ((Qsum ((λ c : cell, inject_Z c.1 + (1 # 2)) <$> elements g) / n)%Q,
   (Qsum ((λ c : cell, inject_Z c.2 + (1 # 2)) <$> elements g) / n)%Q).

(** The WKT text of a geometry is held as the list of its cells in the
    canonical order of the set: like the text, it determines the geometry.
    [wkt_le] is the order that sorts the texts. *)
Definition wkt (g : geom) : list cell := elements g.

Definition wkt_loads (t : list cell) : geom := list_to_set t.

Definition cell_le (a b : cell) : Prop :=
  (a.1 < b.1 ∨ (a.1 = b.1 ∧ a.2 ≤ b.2))%Z.

Fixpoint wkt_leb (s t : list cell) : bool :=
  match s, t with
  | [], _ => true
  | _ :: _, [] => false
  | a :: s', b :: t' =>
      if decide (a = b) then wkt_leb s' t' else bool_decide (cell_le a b)
  end.

Definition wkt_le (s t : list cell) : Prop := wkt_leb s t = true.

#[global] Instance wkt_le_dec s t : Decision (wkt_le s t).
Proof. unfold wkt_le. apply _. Defined.

End Grid.

(** ** Data frames *)

(** A [GeoDataFrame]: the declared frame and the rows. *)
Record gdf (A : Type) := Gdf { crs : string; rows : list A }.
Arguments Gdf {A} crs rows.
Arguments crs {A} g.
Arguments rows {A} g.

(** Rows with an active geometry column. *)
Class Frame (A : Type) := {
  geometry_of : A → geom;
  with_geometry : geom → A → A;
}.

(** A hazard file: [ID_climate_hazard], [buffer_dist], [geometry]. *)
Record hazard := Hazard {
  ID_climate_hazard : string;
  buffer_dist : Q;
  geometry : geom;
}.

(** After [add_utm_projection]. *)
Record projected := Projected {
  projected_hazard : hazard;
  utm_projection : string;
}.

(** After [add_buffered_geom_col]. *)
Record buffered := Buffered {
  buffered_projected : projected;
  buffered_hazard : geom;
}.

(** The working set of the orchestrator: an identifier and the geometry
    (the buffered footprint, renamed). *)
Record region := Region {
  region_ID : string;
  region_geometry : geom;
}.

(** After [add_bounding_box_col]: [bounding_box] is an ordinary column,
    the active geometry stays [geometry]. *)
Record boxed := Boxed {
  boxed_region : region;
  bounding_box : geom;
}.

(** After [mask_raster_partial_pixel]. *)
Record counted (A : Type) := Counted {
  counted_row : A;
  num_people_affected : Q;
}.
Arguments Counted {A} counted_row num_people_affected.
Arguments counted_row {A} c.
Arguments num_people_affected {A} c.

#[global] Instance hazard_frame : Frame hazard := {|
  geometry_of := geometry;
  with_geometry g h := Hazard (ID_climate_hazard h) (buffer_dist h) g;
|}.

#[global] Instance projected_frame : Frame projected := {|
  geometry_of p := geometry (projected_hazard p);
  with_geometry g p :=
    Projected (with_geometry g (projected_hazard p)) (utm_projection p);
|}.

#[global] Instance region_frame : Frame region := {|
  geometry_of := region_geometry;
  with_geometry g r := Region (region_ID r) g;
|}.

#[global] Instance boxed_frame : Frame boxed := {|
  geometry_of b := region_geometry (boxed_region b);
  with_geometry g b := Boxed (with_geometry g (boxed_region b)) (bounding_box b);
|}.

#[global] Instance counted_frame `{Frame A} : Frame (counted A) := {|
  geometry_of c := geometry_of (counted_row c);
  with_geometry g c :=
    Counted (with_geometry g (counted_row c)) (num_people_affected c);
|}.

(** Rows that carry the hazard identifier. *)
Class Identified (A : Type) := id_of : A → string.

#[global] Instance region_identified : Identified region := region_ID.
#[global] Instance boxed_identified : Identified boxed :=
  λ b, region_ID (boxed_region b).

(** ** The geometry kernel, the files and the raster *)

(** The operations of the kernel that leave the grid: coordinate
    transformation between two declared frames, planar buffering by a
    distance (of either sign: a negative distance shrinks), and repair. *)
Class GeoKernel := {
  reproject : string → string → geom → geom;
  buffer : geom → Q → geom;
  make_valid : geom → geom;
}.

(** The orders that the libraries choose.  [sindex_query l right] is what
    the spatial index of [gpd.sjoin] returns for the left geometry [l]:
    the rows of [right] that [l] intersects, in the order of the index.
    [wkt_order ks] is the list of keys [ks] in the order of their WKT
    texts. *)
Class RowOrder := {
  sindex_query : geom → list region → list region;
  wkt_order : list (list cell) → list (list cell);
  sindex_query_matches l right :
    sindex_query l right
    ≡ₚ filter (λ r, Grid.intersects l (region_geometry r)) right;
  wkt_order_keys ks : wkt_order ks ≡ₚ ks;
}.

(** A single-band raster in its native frame.  A pixel is a square of
    [res] x [res] cells; pixel [(i, j)] lies in the extent when
    [0 <= i < ncols] and [0 <= j < nrows]. *)
Record raster := Raster {
  src_crs : string;
  res : positive;
  ncols : Z;
  nrows : Z;
  nodata : option Q;
  band : Z * Z → Q;
}.

(** What the readers find at a path. *)
Record FileSystem := {
  read_file : PathLib.Path → except (gdf hazard);
  read_parquet : PathLib.Path → except (gdf hazard);
  rasterio_open : string → except raster;
}.

Module Raster.

Definition pixel_of (r : raster) (c : cell) : Z * Z :=
  ((c.1 `div` Z.pos (res r))%Z, (c.2 `div` Z.pos (res r))%Z).

Definition in_extent (r : raster) (p : Z * Z) : bool :=
  bool_decide (0 ≤ p.1 < ncols r ∧ 0 ≤ p.2 < nrows r)%Z.

Definition is_nodata (r : raster) (p : Z * Z) : bool :=
  match nodata r with
  | Some v => Qeq_bool (band r p) v
  | None => false
  end.

(** A pixel that contributes: inside the extent and holding data. *)
Definition valid (r : raster) (p : Z * Z) : bool :=
  in_extent r p && negb (is_nodata r p).

(** The fraction of pixel [p] that [g] covers. *)
Definition coverage (r : raster) (g : geom) (p : Z * Z) : Q :=
  (inject_Z (Z.of_nat (size (filter (λ c, pixel_of r c = p) g)))
   / inject_Z (Z.pos (res r * res r)))%Q.

(** The pixels that [g] intersects and that contribute. *)
Definition covered_pixels (r : raster) (g : geom) : list (Z * Z) :=
  filter (λ p, valid r p) (elements (set_map (D := gset (Z * Z)) (pixel_of r) g)).

(** Modelled from the spec: the exact-coverage extraction primitive
    ([exactextract.exact_extract] with the ["sum"] operation), an external
    library; per polygon, the sum over the intersecting pixels of the
    pixel value times the fraction of the pixel the polygon covers. *)
Definition coverage_sum (r : raster) (g : geom) : Q :=
  Grid.Qsum ((λ p, band r p * coverage r g p)%Q <$> covered_pixels r g).

(** No pixel of the raster contributes to [g]: every cell of [g] lies
    outside the extent or over nodata. *)
Definition zero_coverage (r : raster) (g : geom) : bool :=
  forallb (λ c, negb (valid r (pixel_of r c))) (elements g).

End Raster.

(** ** The pipeline stages *)

Section Pipeline.

Context {K : GeoKernel} {O : RowOrder} (fs : FileSystem).

(** [GeoSeries.to_crs] on one geometry: nothing to do between equal frames. *)
Definition series_to_crs (source target : string) (g : geom) : geom :=
  if decide (source = target) then g else reproject source target g.

(** [GeoDataFrame.to_crs]: the active geometry column is transformed, the
    other columns are kept. *)
Definition to_crs {A} `{Frame A} (target : string) (df : gdf A) : gdf A :=
  Gdf target
    ((λ r, with_geometry (series_to_crs (crs df) target (geometry_of r)) r)
       <$> rows df).

(** [add_utm_projection], lines 41-58.  On a frame without rows
    [apply(..., axis=1)] returns a frame, which cannot be set as one
    column: pandas raises a ValueError.  The centroid of an empty geometry
    has no coordinates (NaN), and [int] of the code that the selector
    computes from them raises a ValueError at the first such row. *)
Definition add_utm_projection (ch_shp : gdf hazard) : except (gdf projected) :=
  match rows ch_shp with
  | [] =>
      Raise (Exn "ValueError"
               "Cannot set a DataFrame with multiple columns to the single column utm_projection")
  | _ =>
      projected_rows ←
        mapM
          (λ row,
             let centroid_lon := (Grid.centroid (geometry row)).1 in
             let centroid_lat := (Grid.centroid (geometry row)).2 in
             if Grid.is_empty (geometry row)
             then Raise (Exn "ValueError" "cannot convert float NaN to integer")
             else
               mret (Projected row
                       (Projection.get_best_utm_projection centroid_lat centroid_lon)))
          (rows ch_shp);
      mret (Gdf (crs ch_shp) projected_rows)
  end.

(** [load_ch], lines 62-74. *)
Definition load_ch (path_to_hazard : string) : except (gdf hazard) :=
  let path := PathLib.mk_path path_to_hazard in
  if String.eqb (PathLib.suffix path) ".geojson" then read_file fs path
  else if String.eqb (PathLib.suffix path) ".parquet" then read_parquet fs path
  else
    Raise (Exn "FileNotFoundError"
             ("File not found or unsupported file type: " ++ PathLib.str path)).

(** [prep_geographies] at [geo_type = "hazard"], lines 92-118. *)
Definition prep_geographies (shp_path : string) : except (gdf projected) :=
  shp_df ← load_ch shp_path;
  let shp_df :=
    Gdf (crs shp_df)
      (filter (λ r, Grid.is_empty (geometry r) = false) (rows shp_df)) in
  let shp_df :=
    Gdf (crs shp_df)
      ((λ r, with_geometry (make_valid (geometry r)) r) <$> rows shp_df) in
  let shp_df :=
    if decide (crs shp_df ≠ "EPSG:4326") then to_crs "EPSG:4326" shp_df
    else shp_df in
  add_utm_projection shp_df.

(** [add_buffered_geom_col], lines 124-147.  The function has no check and
    no raise of its own: every row is buffered and the frame is returned. *)
Definition add_buffered_geom_col (ch_df : gdf projected) : except (gdf buffered) :=
  mret
    (Gdf (crs ch_df)
       ((λ row,
           let best_utm := utm_projection row in
           let hazard_geom := geometry (projected_hazard row) in
           let geom_series_utm := series_to_crs (crs ch_df) best_utm hazard_geom in
           let buffer_dist := buffer_dist (projected_hazard row) in
           let buffered_hazard_geometry := buffer geom_series_utm buffer_dist in
           let buffered_hazard_geometry :=
             series_to_crs best_utm (crs ch_df) buffered_hazard_geometry in
           Buffered row buffered_hazard_geometry)
          <$> rows ch_df)).

(** [prep_data] without additional geographies, lines 157-174. *)
Definition prep_data (path_to_hazards : string) : except (gdf buffered) :=
  ch_shp ← prep_geographies path_to_hazards;
  add_buffered_geom_col ch_shp.

(** [GeoDataFrame.explode]: one row per part, the other columns repeated. *)
Definition explode (rs : list region) : list region :=
  r ← rs; p ← Grid.get_parts (region_geometry r); [Region (region_ID r) p].

(** [gpd.sjoin(left, right, how="left", predicate="intersects")]: for each
    left geometry one row per right row it intersects, in the order of the
    spatial index; a left geometry without a match keeps one row with a
    missing identifier. *)
Definition sjoin (left : list geom) (right : list region)
  : list (geom * option string) :=
  l ← left;
  match sindex_query l right with
  | [] => [(l, None)]
  | ms => (λ r, (l, Some (region_ID r))) <$> ms
  end.

(** [groupby("geometry_wkt")]: the groups in the order of the texts of
    their keys, each with its rows in their order. *)
Definition groupby (joined : list (list cell * option string))
  : list (list cell * list (option string)) :=
  (λ k, (k, (filter (λ j, j.1 = k) joined).*2))
    <$> wkt_order (remove_dups joined.*1).

(** ["___".join(x)]: a missing identifier is not a string. *)
Definition join_ids (x : list (option string)) : except string :=
  match mapM (M := option) id x with
  | Some ids => Ok (String.concat "___" ids)
  | None =>
      Raise (Exn "TypeError" "sequence item: expected str instance, float found")
  end.

(** [combine_overlapping_geometries] at [id_column = "ID_climate_hazard"],
    lines 198-241. *)
Definition combine_overlapping_geometries (ch_df : gdf region)
  : except (gdf region) :=
  let ch_df := Gdf (crs ch_df) (explode (rows ch_df)) in
  let all_one_geometry := Grid.unary_union (region_geometry <$> rows ch_df) in
  let non_overlapping_hazards := Grid.get_parts all_one_geometry in
  let joined := sjoin non_overlapping_hazards (rows ch_df) in
  let without_geom := (λ j, (Grid.wkt j.1, j.2)) <$> joined in
  without_geom ←
    mapM (λ grp, ids ← join_ids grp.2; mret (grp.1, ids)) (groupby without_geom);
  let combined_geoms :=
    (λ w, Region w.2 (Grid.wkt_loads w.1)) <$> without_geom in
  mret (Gdf (crs ch_df) combined_geoms).

(** [add_bounding_box_col] at [target_col = "geometry"], lines 249-262. *)
Definition add_bounding_box_col (ch_df : gdf region) (buffer_buffer : Q)
  : gdf boxed :=
  Gdf (crs ch_df)
    ((λ row,
        let target_col_geom := region_geometry row in
        let bounding_box := buffer (Grid.envelope target_col_geom) buffer_buffer in
        Boxed row bounding_box)
       <$> rows ch_df).

(** [exact_extract(raster_path, ch_df, "sum")]: the raster is read whole
    and each row's active geometry is summed. *)
Definition exact_extract {A} `{Frame A} (raster_path : string) (ch_df : gdf A)
  : except (list Q) :=
  src ← rasterio_open fs raster_path;
  mret ((λ r, Raster.coverage_sum src (geometry_of r)) <$> rows ch_df).

(** [mask_raster_partial_pixel], lines 311-332. *)
Definition mask_raster_partial_pixel {A} `{Frame A}
    (ch_df : gdf A) (raster_path : string) : except (gdf (counted A)) :=
  src ← rasterio_open fs raster_path;
  let ch_df :=
    if decide (crs ch_df ≠ src_crs src) then to_crs (src_crs src) ch_df
    else ch_df in
  sums ← exact_extract raster_path ch_df;
  let ch_df := Gdf (crs ch_df) (zip_with Counted (rows ch_df) sums) in
  let ch_df := to_crs "EPSG:4326" ch_df in
  mret ch_df.

(** The final column selection: identifier and population. *)
Definition select_counts {A} `{Identified A} (ch_df : gdf (counted A))
  : list (string * Q) :=
  (λ r, (id_of (counted_row r), num_people_affected r)) <$> rows ch_df.

(** [find_num_people_affected], lines 342-370. *)
Definition find_num_people_affected
    (path_to_hazards raster_path : string) (by_unique_hazard : bool)
  : except (list (string * Q)) :=
  ch_df ← prep_data path_to_hazards;
  let ch_df :=
    Gdf "EPSG:4326"
      ((λ r, Region (ID_climate_hazard (projected_hazard (buffered_projected r)))
               (buffered_hazard r))
         <$> rows ch_df) in
  ch_df ←
    (if negb by_unique_hazard then combine_overlapping_geometries ch_df
     else mret ch_df);
  let ch_df := add_bounding_box_col ch_df 0 in
  ch_df ← mask_raster_partial_pixel ch_df raster_path;
  mret (select_counts ch_df).

(** The same orchestrator with the bounding-box stage taken out: the
    working set goes from the merger straight to the raster stage. *)
Definition find_num_people_affected_without_bounding_box
    (path_to_hazards raster_path : string) (by_unique_hazard : bool)
  : except (list (string * Q)) :=
  ch_df ← prep_data path_to_hazards;
  let ch_df :=
    Gdf "EPSG:4326"
      ((λ r, Region (ID_climate_hazard (projected_hazard (buffered_projected r)))
               (buffered_hazard r))
         <$> rows ch_df) in
  ch_df ←
    (if negb by_unique_hazard then combine_overlapping_geometries ch_df
     else mret ch_df);
  ch_df ← mask_raster_partial_pixel ch_df raster_path;
  mret (select_counts ch_df).

End Pipeline.

(** ** A kernel and files for the worked examples *)

Module Examples.

(** The eight cells around [c] and [c] itself. *)
Definition around (c : cell) : geom :=
  list_to_set
    (dx ← [(-1)%Z; 0%Z; 1%Z]; dy ← [(-1)%Z; 0%Z; 1%Z]; [((c.1 + dx)%Z, (c.2 + dy)%Z)]).

Definition dilate (g : geom) : geom := ⋃ (around <$> elements g).

Definition erode (g : geom) : geom := filter (λ c, around c ⊆ g) g.

(** A kernel that stays on the grid: frames coincide, repair changes
    nothing, and buffering by [d] moves every side outward by [d] cells
    (inward for a negative [d]), rounded up to whole cells. *)
#[global] Instance square_kernel : GeoKernel := {|
  reproject _ _ g := g;
  buffer g d :=
    if Qle_bool 0 d then Nat.iter (Z.to_nat (Qceiling d)) dilate g
    else Nat.iter (Z.to_nat (Qceiling (- d))) erode g;
  make_valid g := g;
|}.

(** The orders of the worked examples: the index lists the matches in
    the order of the right frame, and the keys are sorted as lists of
    cells. *)
#[global] Instance frame_order : RowOrder :=
  Build_RowOrder
    (λ l right, filter (λ r, Grid.intersects l (region_geometry r)) right)
    (merge_sort Grid.wkt_le)
    (λ _ _, reflexivity _)
    (merge_sort_Permutation Grid.wkt_le).

(** The square of cells with lower-left cell [(x, y)] and side [n]. *)
Definition square (x y n : Z) : geom :=
  list_to_set (i ← seqZ x n; j ← seqZ y n; [(i, j)]).

(** A raster of 2 x 2-cell pixels over the cells [0 .. 39] in both
    directions, one person per cell (four per pixel), no nodata. *)
Definition uniform_raster : raster :=
  Raster "EPSG:4326" 2%positive 20 20 None (λ _, 4%Q).

(** Two adjacent 4 x 4 squares with a 2-cell buffer and a third one
    apart with none, on the grid as frame: the end-to-end scenario at a
    small scale. *)
Definition three_squares : gdf hazard :=
  Gdf "EPSG:4326"
    [ Hazard "A" 2 (square 4 4 4);
      Hazard "B" 2 (square 8 4 4);
      Hazard "C" 0 (square 24 24 4) ].

(** The same grid with nodata, -200, in the pixels of the first five
    columns. *)
Definition patchy_raster : raster :=
  Raster "EPSG:4326" 2%positive 20 20 (Some (-200)%Q)
    (λ p, if (p.1 <? 5)%Z then (-200)%Q else 4%Q).

Definition files : FileSystem := {|
  read_file p :=
    if String.eqb (PathLib.str p) "hazards.geojson" then Ok three_squares
    else Raise (Exn "DataSourceError" "No such file or directory");
  read_parquet p := Raise (Exn "FileNotFoundError" (PathLib.str p));
  rasterio_open p :=
    if String.eqb p "pop.tif" then Ok uniform_raster
    else if String.eqb p "patchy.tif" then Ok patchy_raster
    else Raise (Exn "RasterioIOError" "No such file or directory");
|}.

End Examples.

(** ** Connectivity on the grid *)

Module Conn.

(** [b] shares an edge with [a]. *)
Definition adjacent (a b : cell) : Prop := b ∈ Grid.edge_nbrs a.

(** One step inside [g]: to a cell of [g] across an edge. *)
Definition step (g : geom) (a b : cell) : Prop := adjacent a b ∧ b ∈ g.

(** [b] is reached from [a] by steps inside [g]. *)
Definition conn (g : geom) : relation cell := rtc (step g).

(** [p] is a maximal connected piece of [g]. *)
Definition is_part (g p : geom) : Prop :=
  p ≠ ∅ ∧ p ⊆ g ∧ ∀ x, x ∈ p → ∀ y, y ∈ p ↔ conn g x y.

(** No cell of [p] is a cell of [q] or shares an edge with one. *)
Definition separated (p q : geom) : Prop :=
  ∀ x y, x ∈ p → y ∈ q → x ≠ y ∧ ¬ adjacent x y.

End Conn.

(** No two of the geometries share a point. *)
Fixpoint pairwise_disjoint (gs : list geom) : bool :=
  match gs with
  | [] => true
  | g :: gs' =>
      forallb (λ h, negb (Grid.intersects g h)) gs' && pairwise_disjoint gs'
  end.

(** The identifiers that [sjoin] attaches to the left geometry [l], in
    the order of the spatial index. *)
Definition matches {O : RowOrder} (l : geom) (right : list region)
  : list string :=
  region_ID <$> sindex_query l right.

(** The identifier column of the rows that [sjoin] makes for [l]. *)
Definition ids_for {O : RowOrder} (l : geom) (right : list region)
  : list (option string) :=
  match sindex_query l right with
  | [] => [None]
  | ms => (λ r, Some (region_ID r)) <$> ms
  end.

(** The [geometry_wkt] and identifier columns of the joined frame. *)
Definition joined_wkt {O : RowOrder} (left : list geom) (right : list region)
  : list (list cell * option string) :=
  l ← left; (λ o, (Grid.wkt l, o)) <$> ids_for l right.

(** The row that the merger makes of the part [l] of the union. *)
Definition merged_row {O : RowOrder} (right : list region) (l : geom) : region :=
  Region (String.concat "___" (matches l right)) l.

(** [s] is the join, by the separator, of the identifiers [ids] in some
    order. *)
Definition joins (ids : list string) (s : string) : Prop :=
  ∃ js, js ≡ₚ ids ∧ s = String.concat "___" js.

(** A row with the geometry [g] under the identifiers [ids], joined in
    some order. *)
Definition region_like (ids : list string) (g : geom) (r : region) : Prop :=
  region_geometry r = g ∧ joins ids (region_ID r).

(** The merger returns, and its rows are, up to their order, rows like
    [expected]: geometries with the identifiers that are joined. *)
Definition returns_like (m : except (gdf region))
    (expected : list (list string * geom)) : Prop :=
  ∃ out rs,
    m = Ok out ∧ rows out ≡ₚ rs
    ∧ Forall2 (λ r e, region_like e.1 e.2 r) rs expected.

(** The rows that intersect [l], in the order of the frame. *)
Definition intersecting (l : geom) (right : list region) : list region :=
  filter (λ r, Grid.intersects l (region_geometry r)) right.

(** No two of the geometries overlap: their interiors are disjoint. *)
Fixpoint non_overlapping (gs : list geom) : bool :=
  match gs with
  | [] => true
  | g :: gs' => forallb (λ h, bool_decide (g ## h)) gs' && non_overlapping gs'
  end.

(** The geometry that the raster stage hands to the extraction: [g],
    declared in [frame], taken to the frame of the raster. *)
Definition in_raster_frame {K : GeoKernel} (src : raster) (frame : string)
    (g : geom) : geom :=
  if decide (frame ≠ src_crs src) then series_to_crs frame (src_crs src) g
  else g.

(** The identifier and the population of a row with active geometry [g]
    in [frame]. *)
Definition exposure {K : GeoKernel} (src : raster) (frame : string)
    (ident : string) (g : geom) : string * Q :=
  (ident, Raster.coverage_sum src (in_raster_frame src frame g)).

(** Frames whose rows keep their identifier when the geometry is replaced
    and give back the geometry that was put. *)
Class LawfulFrame (A : Type) `{Frame A, Identified A} := {
  geometry_of_with_geometry (g : geom) (r : A) :
    geometry_of (with_geometry g r) = g;
  id_of_with_geometry (g : geom) (r : A) :
    id_of (with_geometry g r) = id_of r;
}.

#[global] Instance region_lawful : LawfulFrame region :=
  Build_LawfulFrame region region_frame region_identified
    (λ _ _, eq_refl) (λ _ _, eq_refl).

#[global] Instance boxed_lawful : LawfulFrame boxed :=
  Build_LawfulFrame boxed boxed_frame boxed_identified
    (λ _ _, eq_refl) (λ _ _, eq_refl).

(** The geometry of a hazard as the preparation leaves it: repaired, and
    taken to EPSG:4326 from the frame of the file. *)
Definition prepared_geometry {K : GeoKernel} (frame : string) (g : geom) : geom :=
  series_to_crs frame "EPSG:4326" (make_valid g).

(** The hazards of the file that the preparation keeps: those whose
    geometry is not empty. *)
Definition kept (df : gdf hazard) : list hazard :=
  filter (λ r, Grid.is_empty (geometry r) = false) (rows df).

(** The file holds a hazard to prepare, and no hazard that it holds is
    empty once repaired and reprojected: each has a centroid. *)
Definition prepares {K : GeoKernel} (df : gdf hazard) : bool :=
  negb (bool_decide (kept df = []))
  && forallb
       (λ r, negb (Grid.is_empty (prepared_geometry (crs df) (geometry r))))
       (kept df).

(** The row that the preparation makes of a hazard of a file declared in
    [frame]: the prepared geometry, and the projection of its centroid. *)
Definition prepared_row {K : GeoKernel} (frame : string) (r : hazard) : projected :=
  let row := with_geometry (prepared_geometry frame (geometry r)) r in
  Projected row
    (Projection.get_best_utm_projection
       (Grid.centroid (geometry row)).2 (Grid.centroid (geometry row)).1).


(** A longitude that binary64 holds, and shifts by 180, without
    rounding: a multiple of 2^-20 of magnitude at most 2^20.  On these
    the floor division of the code is the exact one. *)
Definition binary64_exact (lon : Q) : bool :=
  Qeq_bool (inject_Z (Qfloor (lon * 1048576))) (lon * 1048576)
  && Qle_bool (-1048576) lon && Qle_bool lon 1048576.

(** The buffered geometry of a row of a frame declared in [frame]. *)
Definition buffered_geometry {K : GeoKernel} (frame : string) (row : projected)
  : geom :=
  series_to_crs (utm_projection row) frame
    (buffer
       (series_to_crs frame (utm_projection row) (geometry (projected_hazard row)))
       (buffer_dist (projected_hazard row))).

(** The frame that the raster stage hands to the extraction. *)
Definition raster_frame {K : GeoKernel} {A} `{Frame A} (src : raster)
    (ch_df : gdf A) : gdf A :=
  if decide (crs ch_df ≠ src_crs src) then to_crs (src_crs src) ch_df else ch_df.

(** The identifier of a buffered hazard. *)
Definition buffered_ID (b : buffered) : string :=
  ID_climate_hazard (projected_hazard (buffered_projected b)).

(** The working set of the orchestrator before the merger: the buffered
    footprints under the hazard identifiers, declared in EPSG:4326. *)
Definition footprints (ch_df : gdf buffered) : gdf region :=
  Gdf "EPSG:4326" ((λ r, Region (buffered_ID r) (buffered_hazard r)) <$> rows ch_df).

(** The populations of a result, as reduced fractions. *)
Definition reduced (result : except (list (string * Q))) : list (string * Q) :=
  match result with
  | Ok l => (λ p, (p.1, Qred p.2)) <$> l
  | Raise _ => []
  end.

(** The merger returns, and its rows are [expected] up to their order. *)
Definition returns_rows (m : except (gdf region)) (expected : list region)
  : Prop :=
  ∃ out, m = Ok out ∧ rows out ≡ₚ expected.

(** The sum of the areas of the geometries. *)
Definition total_area (gs : list geom) : Z := foldr Z.add 0%Z (Grid.area <$> gs).

Local Close Scope string_scope.

Local Open Scope string_scope.

(** ** Spatial units and the two workflows over them *)

(** A spatial-unit file: [ID_spatial_unit], [geometry]. *)
Record spatial_unit := SpatialUnit {
  ID_spatial_unit : string;
  unit_geometry : geom;
}.

(** A row of the overlay: the identifiers of the hazard region and of the
    unit, and the part of the region that lies in the unit. *)
Record piece := Piece {
  piece_ID_climate_hazard : string;
  piece_ID_spatial_unit : string;
  piece_geometry : geom;
}.

(** A row with the [bounding_box] column beside its own columns. *)
Record with_box (A : Type) := WithBox {
  box_row : A;
  box : geom;
}.
Arguments WithBox {A} box_row box.
Arguments box_row {A} w.
Arguments box {A} w.

#[global] Instance spatial_unit_frame : Frame spatial_unit := {|
  geometry_of := unit_geometry;
  with_geometry g u := SpatialUnit (ID_spatial_unit u) g;
|}.

#[global] Instance piece_frame : Frame piece := {|
  geometry_of := piece_geometry;
  with_geometry g p :=
    Piece (piece_ID_climate_hazard p) (piece_ID_spatial_unit p) g;
|}.

#[global] Instance with_box_frame `{Frame A} : Frame (with_box A) := {|
  geometry_of w := geometry_of (box_row w);
  with_geometry g w := WithBox (with_geometry g (box_row w)) (box w);
|}.

(** What the readers find at the path of a spatial-unit file. *)
Record UnitFiles := {
  read_unit_file : PathLib.Path → except (gdf spatial_unit);
  read_unit_parquet : PathLib.Path → except (gdf spatial_unit);
}.

(** What [prep_data] returns: the hazards alone, or the pair of the
    hazards and the additional geographies. *)
Inductive prepared :=
| Hazards (ch_shp : gdf buffered)
| HazardsAndGeos (ch_shp : gdf buffered) (ad_geo : gdf spatial_unit).

(** The truth value of an optional path: [None] and the empty string are
    false. *)
Definition truthy (path : option string) : bool :=
  match path with
  | Some s => negb (String.eqb s "")
  | None => false
  end.

(** The frame of a geometry column that declares none. *)
Definition undeclared : string := "".

Section Workflows.

Context {K : GeoKernel} {O : RowOrder} (fs : FileSystem) (ufs : UnitFiles).

(** [load_ch], lines 62-74, for the rows of any file. *)
Definition load_ch_rows {A} (read_file read_parquet : PathLib.Path → except (gdf A))
    (path_to_hazard : string) : except (gdf A) :=
  let path := PathLib.mk_path path_to_hazard in
  if String.eqb (PathLib.suffix path) ".geojson" then read_file path
  else if String.eqb (PathLib.suffix path) ".parquet" then read_parquet path
  else
    Raise (Exn "FileNotFoundError"
             ("File not found or unsupported file type: " ++ PathLib.str path)).

(** [prep_geographies] at [geo_type = "spatial_unit"], lines 92-118. *)
Definition prep_geographies_spatial_unit (shp_path : string)
  : except (gdf spatial_unit) :=
  shp_df ← load_ch_rows (read_unit_file ufs) (read_unit_parquet ufs) shp_path;
  let shp_df :=
    Gdf (crs shp_df)
      (filter (λ r, Grid.is_empty (unit_geometry r) = false) (rows shp_df)) in
  let shp_df :=
    Gdf (crs shp_df)
      ((λ r, with_geometry (make_valid (unit_geometry r)) r) <$> rows shp_df) in
  let shp_df :=
    if decide (crs shp_df ≠ "EPSG:4326") then to_crs "EPSG:4326" shp_df
    else shp_df in
  mret shp_df.

(** [prep_data], lines 157-174, with its optional second path. *)
Definition prep_data_geos (path_to_hazards : string)
    (path_to_additional_geos : option string) : except prepared :=
  ch_shp ← prep_geographies fs path_to_hazards;
  if truthy path_to_additional_geos then
    ad_geo ← prep_geographies_spatial_unit (default "" path_to_additional_geos);
    ch_shp ← add_buffered_geom_col ch_shp;
    mret (HazardsAndGeos ch_shp ad_geo)
  else
    ch_shp ← add_buffered_geom_col ch_shp;
    mret (Hazards ch_shp).

(** [add_bounding_box_col] at [target_col = "geometry"], lines 249-262,
    for the rows of any frame. *)
Definition add_bounding_box_col_rows {A} `{Frame A} (ch_df : gdf A)
    (buffer_buffer : Q) : gdf (with_box A) :=
  Gdf (crs ch_df)
    ((λ row,
        let target_col_geom := geometry_of row in
        let bounding_box := buffer (Grid.envelope target_col_geom) buffer_buffer in
        WithBox row bounding_box)
       <$> rows ch_df).

(** [gpd.overlay(df1, df2, how="intersection")]: one row for each pair of
    a row of [df1] and a row of [df2] whose intersection has an area, in
    the order of [df1] and then of [df2], with the columns of both and the
    intersection as geometry. *)
Definition overlay (df1 : gdf region) (df2 : gdf spatial_unit) : gdf piece :=
  Gdf (crs df1)
    (r ← rows df1;
     u ← rows df2;
     let g := region_geometry r ∩ unit_geometry u in
     if Grid.is_empty g then []
     else [Piece (region_ID r) (ID_spatial_unit u) g]).

(** [find_num_people_affected_by_geo], lines 426-467.  The pair is
    unpacked from what [prep_data] returns; the hazards alone, a frame of
    five columns, do not unpack into two names. *)
Definition find_num_people_affected_by_geo
    (path_to_hazards path_to_additional_geos raster_path : string)
    (by_unique_hazard : bool) : except (list (string * string * Q)) :=
  prepared ← prep_data_geos path_to_hazards (Some path_to_additional_geos);
  match prepared with
  | Hazards _ =>
      Raise (Exn "ValueError" "too many values to unpack (expected 2)")
  | HazardsAndGeos ch_shp ad_geo =>
      let ch_shp :=
        Gdf undeclared
          ((λ r, Region (ID_climate_hazard (projected_hazard (buffered_projected r)))
                   (buffered_hazard r))
             <$> rows ch_shp) in
      ch_shp ←
        (if negb by_unique_hazard then combine_overlapping_geometries ch_shp
         else mret ch_shp);
      let ch_shp := Gdf "EPSG:4326" (rows ch_shp) in
      let unit_hazard_intersection := overlay ch_shp ad_geo in
      let unit_hazard_intersection :=
        add_bounding_box_col_rows unit_hazard_intersection 0 in
      num_af ← mask_raster_partial_pixel fs unit_hazard_intersection raster_path;
      mret
        ((λ r, (piece_ID_climate_hazard (box_row (counted_row r)),
                piece_ID_spatial_unit (box_row (counted_row r)),
                num_people_affected r))
           <$> rows num_af)
  end.

(** [find_number_of_people_residing_by_geo], lines 472-487. *)
Definition find_number_of_people_residing_by_geo
    (path_to_additional_geos raster_path : string)
  : except (list (string * Q)) :=
  ad_geo ← prep_geographies_spatial_unit path_to_additional_geos;
  let ad_geo := add_bounding_box_col_rows ad_geo 0 in
  num_people_by_geo ← mask_raster_partial_pixel fs ad_geo raster_path;
  mret
    ((λ r, (ID_spatial_unit (box_row (counted_row r)), num_people_affected r))
       <$> rows num_people_by_geo).

End Workflows.

(** The rows of the workflow by spatial unit over the regions [regions]:
    the pieces of the overlay with the units, each with its two
    identifiers and the population of its geometry. *)
Definition measured_pieces {K : GeoKernel} (src : raster)
    (regions : list region) (ad_geo : gdf spatial_unit)
  : list (string * string * Q) :=
  (λ pc, (piece_ID_climate_hazard pc, piece_ID_spatial_unit pc,
          Raster.coverage_sum src
            (in_raster_frame src "EPSG:4326" (piece_geometry pc))))
    <$> rows (overlay (Gdf "EPSG:4326" regions) ad_geo).

(** The geometries of the units as the preparation leaves them: those
    that are not empty, repaired and taken to EPSG:4326. *)
Definition prepared_units {K : GeoKernel} (units : gdf spatial_unit)
  : list geom :=
  (λ u, series_to_crs (crs units) "EPSG:4326" (make_valid (unit_geometry u)))
    <$> filter (λ u, Grid.is_empty (unit_geometry u) = false) (rows units).

(** A transformation of geometries that is exact: it takes nothing to
    nothing, a union to the union, and geometries that do not overlap to
    geometries that do not overlap.  The identity is one. *)
Definition keeps_unions (T : geom → geom) : Prop :=
  T ∅ = ∅
  ∧ (∀ a b, T (a ∪ b) = T a ∪ T b)
  ∧ (∀ a b, a ## b → T a ## T b).

(** The rows that the overlay and the raster stage make of one region
    and the units. *)
Definition block_of {K : GeoKernel} (src : raster) (r : region)
    (us : list spatial_unit) : list (string * string * Q) :=
  (λ pc, (piece_ID_climate_hazard pc, piece_ID_spatial_unit pc,
          Raster.coverage_sum src
            (in_raster_frame src "EPSG:4326" (piece_geometry pc))))
    <$> (us ≫= λ u,
           let g := region_geometry r ∩ unit_geometry u in
           if Grid.is_empty g then [] else [Piece (region_ID r) (ID_spatial_unit u) g]).

(** ** Hazards that are points *)

(** A hazard file holds polygons and points.  On the grid a polygon is a
    set of cells; a point has a position and no cell. *)
Inductive shape :=
| Polygonal (g : geom)
| PointAt (p : Q * Q).

(** The kernel on points: the transformation of a position, and the
    planar buffer of a point, which is a polygon. *)
Class PointKernel := {
  reproject_point : string → string → Q * Q → Q * Q;
  buffer_point : Q * Q → Q → geom;
}.

(** A row of the frame of [add_buffered_geom_col] whose geometry is a
    polygon or a point. *)
Record shape_row := ShapeRow {
  shape_ID : string;
  shape_buffer_dist : Q;
  shape_geometry : shape;
  shape_utm_projection : string;
}.

Section Shapes.

Context {K : GeoKernel} {P : PointKernel}.

(** [GeoSeries.to_crs] on a polygon or a point. *)
Definition shape_to_crs (source target : string) (s : shape) : shape :=
  if decide (source = target) then s
  else match s with
       | Polygonal g => Polygonal (reproject source target g)
       | PointAt p => PointAt (reproject_point source target p)
       end.

(** [GeoSeries.buffer]: the buffer of either is a polygon. *)
Definition shape_buffer (s : shape) (d : Q) : shape :=
  match s with
  | Polygonal g => Polygonal (buffer g d)
  | PointAt p => Polygonal (buffer_point p d)
  end.

(** [add_buffered_geom_col], lines 124-147, on hazards that are polygons
    or points. *)
Definition add_buffered_geom_col_shapes (ch_df : gdf shape_row)
  : except (gdf (shape_row * shape)) :=
  mret
    (Gdf (crs ch_df)
       ((λ row,
           let best_utm := shape_utm_projection row in
           let hazard_geom := shape_geometry row in
           let geom_series_utm := shape_to_crs (crs ch_df) best_utm hazard_geom in
           let buffer_dist := shape_buffer_dist row in
           let buffered_hazard_geometry := shape_buffer geom_series_utm buffer_dist in
           let buffered_hazard_geometry :=
             shape_to_crs best_utm (crs ch_df) buffered_hazard_geometry in
           (row, buffered_hazard_geometry))
          <$> rows ch_df)).

End Shapes.

(** The row of a polygonal hazard among the rows of polygons and
    points. *)
Definition shape_row_of (row : projected) : shape_row :=
  ShapeRow (ID_climate_hazard (projected_hazard row))
    (buffer_dist (projected_hazard row))
    (Polygonal (geometry (projected_hazard row)))
    (utm_projection row).

(** The points of the worked examples: positions are kept by the
    transformation; GEOS buffers a point by a distance that is not
    positive to the empty polygon, and by a positive distance to a
    polygon around it, here the square of the kernel of the examples
    around the cell of the point. *)
#[global] Instance Examples_point_kernel : PointKernel := {|
  reproject_point _ _ p := p;
  buffer_point p d :=
    if Qle_bool d 0 then ∅
    else buffer (GeoKernel := Examples.square_kernel)
           {[ (Qfloor p.1, Qfloor p.2) ]} d;
|}.


(** Census-like units for the worked examples: the west and the east half
    of the grid, and a file of them. *)
Definition Examples_units : gdf spatial_unit :=
  Gdf "EPSG:4326"
    [ SpatialUnit "west" (Examples.square 0 0 8);
      SpatialUnit "east" (list_to_set (i ← seqZ 8 8; j ← seqZ 0 8; [(i, j)])) ].

Definition Examples_unit_files : UnitFiles := {|
  read_unit_file p :=
    if String.eqb (PathLib.str p) "units.geojson" then Ok Examples_units
    else Raise (Exn "DataSourceError" "No such file or directory");
  read_unit_parquet p := Raise (Exn "FileNotFoundError" (PathLib.str p));
|}.

(** Every cell of [g] lies in the six-degree band that starts at the
    meridian [6 k - 180]. *)
Definition within_band (k : Z) (g : geom) : bool :=
  forallb (λ c : cell, (6 * k - 180 <=? c.1)%Z && (c.1 <? 6 * k - 174)%Z)
    (elements g).

(** Every cell of [g] lies north of the equator, or south of it. *)
Definition northern (g : geom) : bool :=
  forallb (λ c : cell, (0 <=? c.2)%Z) (elements g).

Definition southern (g : geom) : bool :=
  forallb (λ c : cell, (c.2 <? 0)%Z) (elements g).

(** A file name before its extension: not empty, without a separator,
    and without a dot in front. *)
Definition plain_name (s : string) : bool :=
  negb (String.eqb s "") && negb (PathLib.starts_with "." s)
  && forallb (λ c, negb (Ascii.eqb c "/")) (list_ascii_of_string s).

(** The directory part of a path as it is written in front of the file
    name: nothing, or a directory and the separator. *)
Definition in_directory (dir : option string) : string :=
  match dir with
  | Some d => d ++ "/"
  | None => ""
  end.

(** Two squares that overlap and a third one apart. *)
Definition Examples_overlapping : gdf region :=
  Gdf "EPSG:4326"
    [ Region "A" (Examples.square 0 0 2);
      Region "B" (Examples.square 1 1 2);
      Region "C" (Examples.square 6 6 1) ].

(** Some row of the frame has a geometry that is not empty. *)
Definition populated (ch_df : gdf region) : bool :=
  negb (Grid.is_empty (Grid.unary_union (region_geometry <$> rows ch_df))).

Local Close Scope string_scope.

(** * The Projection Selector *)

Module ProjectionFacts.

Import Projection.

Lemma py_int_inject (z : Z) (q : Q) : (q == inject_Z z)%Q → py_int q = z.
Proof.
  unfold py_int, Qeq. destruct q as [n d]. simpl. intros H.
  rewrite Z.mul_1_r in H. subst n. apply Z.quot_mul. done.
Qed.

Lemma epsg_code_integral lat lon :
  (epsg_code lat lon == inject_Z (hemisphere_base lat * 100 + zone lon))%Q.
Proof.
  unfold epsg_code, hemisphere, hemisphere_base, zone_number, zone, floordiv.
  rewrite !inject_Z_plus, inject_Z_mult.
  destruct (Qle_bool 0 lat); reflexivity.
Qed.

(** The identifier is the hemisphere base times 100 plus the zone, for
    every latitude and longitude. *)
Lemma get_best_utm_projection_formula lat lon :
  get_best_utm_projection lat lon
  = ("EPSG:" ++ str_of_int (hemisphere_base lat * 100 + zone lon))%string.
Proof.
  unfold get_best_utm_projection. f_equal. f_equal.
  apply py_int_inject. apply epsg_code_integral.
Qed.

(** West of the antimeridian the zone is one of the sixty. *)
Lemma zone_range lon : (-180 <= lon)%Q → (lon < 180)%Q → (1 ≤ zone lon ≤ 60)%Z.
Proof.
  intros Hlo Hhi. unfold zone.
  assert (H0 : (0 ≤ Qfloor ((lon + 180) / 6))%Z).
  { change 0%Z with (Qfloor 0). apply Qfloor_resp_le.
    apply Qle_shift_div_l; [reflexivity|]. lra. }
  assert (H1 : (Qfloor ((lon + 180) / 6) < 60)%Z).
  { apply Z.lt_nge. intros Hge.
    assert (Hq : (inject_Z 60 <= (lon + 180) / 6)%Q).
    { eapply Qle_trans; [|apply Qfloor_le]. rewrite <- Zle_Qle. exact Hge. }
    apply Qle_not_lt in Hq. apply Hq.
    apply Qlt_shift_div_r; [reflexivity|].
    change (inject_Z 60) with 60%Q. lra. }
  lia.
Qed.

Lemma hemisphere_base_north lat : (0 <= lat)%Q → hemisphere_base lat = 326%Z.
Proof. intros H. unfold hemisphere_base. apply Qle_bool_iff in H. by rewrite H. Qed.

Lemma hemisphere_base_south lat : (lat < 0)%Q → hemisphere_base lat = 327%Z.
Proof.
  intros H. unfold hemisphere_base. destruct (Qle_bool 0 lat) eqn:E; [|done].
  apply Qle_bool_iff in E. apply Qle_not_lt in E. contradiction.
Qed.

(** C3.  On the antimeridian, longitude 180, the zone that the code
    computes is 61 and the identifiers are EPSG:32661 and EPSG:32761,
    outside the sixty zones; so the statement that the zone lies in 1..60
    for every longitude in [-180, 180] does not hold of the code. *)
Theorem get_best_utm_projection_antimeridian :
  zone 180 = 61%Z
  ∧ get_best_utm_projection 0 180 = "EPSG:32661"%string
  ∧ get_best_utm_projection (-1) 180 = "EPSG:32761"%string
  ∧ ¬ (∀ lat lon : Q,
         (-90 <= lat)%Q → (lat <= 90)%Q → (-180 <= lon)%Q → (lon <= 180)%Q →
         get_best_utm_projection lat lon
         = ("EPSG:" ++ str_of_int (hemisphere_base lat * 100 + zone lon))%string
         ∧ (1 ≤ zone lon ≤ 60)%Z).
Proof.
  split; [reflexivity|]. split; [reflexivity|]. split; [reflexivity|].
  intros H. destruct (H 0%Q 180%Q) as [_ [_ Hz]]; try done.
Qed.

End ProjectionFacts.

(** * Lists and the exception monad *)

Module ListFacts.

Lemma filter_none {A} (P : A → Prop) `{∀ x, Decision (P x)} (l : list A) :
  (∀ y, y ∈ l → ¬ P y) → filter P l = [].
Proof.
  induction l as [|x l IH]; intros Hl; [done|].
  rewrite filter_cons_False by (apply Hl; left).
  apply IH. intros y Hy. apply Hl. by right.
Qed.

Lemma filter_only {A} (P : A → Prop) `{∀ x, Decision (P x)} (l : list A) i x :
  l !! i = Some x → P x →
  (∀ j y, l !! j = Some y → j ≠ i → ¬ P y) →
  filter P l = [x].
Proof.
  intros Hi Hx Hother.
  rewrite <- (take_drop_middle l i x Hi), filter_app, filter_cons_True by done.
  rewrite !filter_none; [done| |].
  - intros y Hy. apply list_elem_of_lookup in Hy as [j Hj].
    rewrite lookup_drop in Hj. apply (Hother _ _ Hj). lia.
  - intros y Hy. apply list_elem_of_lookup in Hy as [j Hj].
    apply lookup_take_Some in Hj as [Hj Hlt]. apply (Hother _ _ Hj). lia.
Qed.


Lemma zip_with_fmap_r_same {A B C} (f : A → B → C) (g : A → B) (l : list A) :
  zip_with f l (g <$> l) = (λ x, f x (g x)) <$> l.
Proof.
  induction l as [|x l IH]; [done|].
  rewrite !fmap_cons. cbn [zip_with]. by rewrite IH.
Qed.

Lemma mapM_except_ok {A B} (f : A → except B) (g : A → B) (l : list A) :
  (∀ x, x ∈ l → f x = Ok (g x)) → mapM f l = Ok (g <$> l).
Proof.
  induction l as [|x l IH]; intros Hf; [done|].
  simpl. rewrite (Hf x) by left. simpl.
  rewrite IH by (intros y Hy; apply Hf; by right). done.
Qed.

Lemma fmap_bind {A B C} (f : B → C) (g : A → list B) (l : list A) :
  f <$> (l ≫= g) = l ≫= (λ x, f <$> g x).
Proof.
  induction l as [|x l IH]; [done|].
  by rewrite !bind_cons, fmap_app, IH.
Qed.

Lemma Permutation_length_3_inv {A} (a b c : A) (l : list A) :
  [a; b; c] ≡ₚ l →
  l = [a; b; c] ∨ l = [a; c; b] ∨ l = [b; a; c]
  ∨ l = [b; c; a] ∨ l = [c; a; b] ∨ l = [c; b; a].
Proof.
  intros H. assert (Ha : a ∈ l) by (rewrite <- H; left).
  apply list_elem_of_split in Ha as (l1 & l2 & ->).
  apply Permutation_cons_app_inv in H.
  apply Permutation_length_2_inv in H as [H|H];
    destruct l1 as [|x [|y [|z l1]]]; simplify_eq/=; auto 10.
Qed.

End ListFacts.

(** * Properties of the grid geometry *)

Module GridFacts.

Import Grid Conn.

Lemma elem_of_edge_nbrs (a b : cell) :
  b ∈ edge_nbrs a ↔
  (b.1 = a.1 + 1 ∧ b.2 = a.2)%Z ∨ (b.1 = a.1 - 1 ∧ b.2 = a.2)%Z
  ∨ (b.1 = a.1 ∧ b.2 = a.2 + 1)%Z ∨ (b.1 = a.1 ∧ b.2 = a.2 - 1)%Z.
Proof.
  unfold edge_nbrs. destruct a as [ax ay], b as [bx by']. simpl.
  rewrite !elem_of_union, !elem_of_singleton.
  split.
  - intros [[[H|H]|H]|H]; injection H; intros; lia.
  - intros [[? ?]|[[? ?]|[[? ?]|[? ?]]]]; subst; auto.
Qed.

Lemma adjacent_sym a b : adjacent a b → adjacent b a.
Proof. unfold adjacent. rewrite !elem_of_edge_nbrs. lia. Qed.

Lemma adjacent_irrefl a : ¬ adjacent a a.
Proof. unfold adjacent. rewrite elem_of_edge_nbrs. lia. Qed.

Lemma adjacent_meet a b : adjacent a b → cells_meet a b.
Proof. unfold adjacent, cells_meet. rewrite elem_of_edge_nbrs. lia. Qed.

Lemma cells_meet_refl a : cells_meet a a.
Proof. unfold cells_meet. lia. Qed.

Lemma cells_meet_sym a b : cells_meet a b → cells_meet b a.
Proof. unfold cells_meet. lia. Qed.

(** ** The intersects predicate *)

Lemma intersects_spec (a b : geom) :
  intersects a b = true ↔ ∃ x y, x ∈ a ∧ y ∈ b ∧ cells_meet x y.
Proof.
  unfold intersects. rewrite bool_decide_eq_true, Exists_exists.
  split.
  - intros (x & Hx & Hex). apply Exists_exists in Hex as (y & Hy & Hm).
    exists x, y. by rewrite <- !elem_of_elements.
  - intros (x & y & Hx & Hy & Hm). exists x. split; [by apply elem_of_elements|].
    apply Exists_exists. exists y. split; [by apply elem_of_elements|done].
Qed.

Lemma intersects_false (a b : geom) :
  intersects a b = false ↔ ∀ x y, x ∈ a → y ∈ b → ¬ cells_meet x y.
Proof.
  rewrite <- not_true_iff_false, intersects_spec. split.
  - intros H x y Hx Hy Hm. apply H. eauto.
  - intros H (x & y & Hx & Hy & Hm). by eapply H.
Qed.

Lemma intersects_sym (a b : geom) : intersects a b = intersects b a.
Proof.
  apply eq_true_iff_eq. rewrite !intersects_spec.
  split; intros (x & y & ? & ? & ?); exists y, x; auto using cells_meet_sym.
Qed.

Lemma intersects_self (a : geom) : a ≠ ∅ → intersects a a = true.
Proof.
  intros Ha. apply set_choose_L in Ha as [x Hx].
  apply intersects_spec. exists x, x. auto using cells_meet_refl.
Qed.

Lemma intersects_subseteq (a a' b : geom) :
  a ⊆ a' → intersects a b = true → intersects a' b = true.
Proof. rewrite !intersects_spec. intros Ha (x & y & ? & ? & ?). exists x, y. auto. Qed.

Lemma intersects_union_false (a b c : geom) :
  intersects a c = false → intersects b c = false →
  intersects (a ∪ b) c = false.
Proof.
  rewrite !intersects_false. intros Ha Hb x y Hx Hy.
  apply elem_of_union in Hx as [Hx|Hx]; eauto.
Qed.

Lemma not_intersects_separated (a b : geom) :
  intersects a b = false → separated a b.
Proof.
  rewrite intersects_false. intros H x y Hx Hy. split.
  - intros ->. eapply H; eauto using cells_meet_refl.
  - intros Hadj. eapply H; eauto using adjacent_meet.
Qed.

Lemma not_intersects_disjoint (a b : geom) : intersects a b = false → a ## b.
Proof.
  intros H x Hx Hy. apply not_intersects_separated in H.
  by destruct (H x x Hx Hy).
Qed.

Lemma joined_spec (a b : geom) :
  joined a b = true ↔ ∃ x y, x ∈ a ∧ y ∈ b ∧ (x = y ∨ adjacent x y).
Proof.
  unfold joined. rewrite bool_decide_eq_true, Exists_exists. split.
  - intros (x & Hx & [Hb|Hn]); apply elem_of_elements in Hx.
    + exists x, x. auto.
    + apply set_choose_L in Hn as [y Hy]. apply elem_of_intersection in Hy as [? ?].
      exists x, y. auto.
  - intros (x & y & Hx & Hy & [->|Hadj]).
    + exists y. split; [by apply elem_of_elements|auto].
    + exists x. split; [by apply elem_of_elements|]. right.
      apply (non_empty_inhabited_L y). apply elem_of_intersection. done.
Qed.

(** ** Connectivity *)

Lemma conn_mono (g h : geom) x y : g ⊆ h → conn g x y → conn h x y.
Proof.
  intros Hgh. apply rtc_subrel. intros a b [? ?]. split; auto.
Qed.

Lemma conn_elem (g : geom) x y : x ∈ g → conn g x y → y ∈ g.
Proof. intros Hx H. induction H as [|a b c [_ Hb] _ IH]; auto. Qed.

Lemma conn_sym (g : geom) x y : x ∈ g → conn g x y → conn g y x.
Proof.
  intros Hx H. induction H as [|a b c [Hadj Hb] _ IH]; [done|].
  eapply rtc_r; [by apply IH|]. split; [by apply adjacent_sym|done].
Qed.

(** ** Growth of a part *)

Lemma elem_of_grow (g acc : geom) y :
  y ∈ grow g acc ↔ y ∈ acc ∨ (y ∈ g ∧ ∃ x, x ∈ acc ∧ adjacent x y).
Proof.
  unfold grow. rewrite elem_of_union, elem_of_filter. split.
  - intros [?|[Hne Hy]]; [by left|right]. split; [done|].
    apply set_choose_L in Hne as [x Hx]. apply elem_of_intersection in Hx as [? ?].
    exists x. split; [done|]. by apply adjacent_sym.
  - intros [?|[Hy (x & Hx & Hadj)]]; [by left|right]. split; [|done].
    apply (non_empty_inhabited_L x). apply elem_of_intersection.
    split; [by apply adjacent_sym|done].
Qed.

Lemma grow_incl (g acc : geom) : acc ⊆ grow g acc.
Proof. intros x Hx. apply elem_of_grow. by left. Qed.

Lemma grow_sub (g acc : geom) : acc ⊆ g → grow g acc ⊆ g.
Proof. intros H x Hx. apply elem_of_grow in Hx as [?|[? _]]; auto. Qed.

Lemma grow_n_incl (n : nat) (g acc : geom) : acc ⊆ grow_n n g acc.
Proof.
  revert acc. induction n as [|n IH]; intros acc; simpl; [done|].
  etrans; [apply (grow_incl g)|apply IH].
Qed.

Lemma grow_n_sub (n : nat) (g acc : geom) : acc ⊆ g → grow_n n g acc ⊆ g.
Proof.
  revert acc. induction n as [|n IH]; intros acc H; simpl; [done|].
  apply IH. by apply grow_sub.
Qed.

Lemma grow_n_fixed (n : nat) (g acc : geom) : grow g acc = acc → grow_n n g acc = acc.
Proof. intros H. induction n as [|n IH]; simpl; [done|]. by rewrite H. Qed.

(** After [n] rounds the part is closed under growth or has gained at
    least [n] cells. *)
Lemma grow_n_progress (n : nat) (g acc : geom) :
  grow g (grow_n n g acc) = grow_n n g acc
  ∨ size acc + n ≤ size (grow_n n g acc).
Proof.
  revert acc. induction n as [|n IH]; intros acc; simpl.
  - right. lia.
  - destruct (decide (grow g acc = acc)) as [Heq|Hne].
    + left. rewrite Heq. by rewrite (grow_n_fixed n g acc Heq).
    + destruct (IH (grow g acc)) as [?|Hsz]; [by left|right].
      assert (size acc < size (grow g acc)); [|lia].
      apply subset_size. split; [apply grow_incl|].
      intros Hsub. apply Hne. apply set_eq. intros x. split; [apply Hsub|apply grow_incl].
Qed.

Lemma part_of_closed (g : geom) c :
  c ∈ g → grow g (part_of g c) = part_of g c.
Proof.
  intros Hc. unfold part_of.
  destruct (grow_n_progress (size g) g {[c]}) as [?|Hsz]; [done|].
  assert (size (grow_n (size g) g {[c]}) ≤ size g).
  { apply subseteq_size. apply grow_n_sub. by apply singleton_subseteq_l. }
  rewrite size_singleton in Hsz. lia.
Qed.

Lemma grow_n_sound (n : nat) (g acc : geom) c :
  (∀ x, x ∈ acc → conn g c x) → ∀ x, x ∈ grow_n n g acc → conn g c x.
Proof.
  revert acc. induction n as [|n IH]; intros acc Hacc x Hx; simpl in Hx; [auto|].
  apply (IH (grow g acc)); [|done].
  intros y Hy. apply elem_of_grow in Hy as [?|[Hyg (z & Hz & Hadj)]]; [auto|].
  eapply rtc_r; [by apply Hacc|]. by split.
Qed.

Lemma closed_conn (g p : geom) x y :
  grow g p = p → x ∈ p → conn g x y → y ∈ p.
Proof.
  intros Hcl Hx H. induction H as [|a b c [Hadj Hb] _ IH]; [done|].
  apply IH. rewrite <- Hcl. apply elem_of_grow. right. split; [done|]. eauto.
Qed.

Lemma elem_of_part_of (g : geom) c y : c ∈ g → y ∈ part_of g c ↔ conn g c y.
Proof.
  intros Hc. split.
  - apply grow_n_sound. intros x ->%elem_of_singleton. apply rtc_refl.
  - apply closed_conn; [by apply part_of_closed|].
    apply (grow_n_incl (size g) g {[c]}). by apply elem_of_singleton.
Qed.

(** ** Parts *)

Lemma part_of_is_part (g : geom) c : c ∈ g → is_part g (part_of g c).
Proof.
  intros Hc. split; [|split].
  - apply (non_empty_inhabited_L c). apply elem_of_part_of; [done|apply rtc_refl].
  - apply grow_n_sub. by apply singleton_subseteq_l.
  - intros x Hx y. apply elem_of_part_of in Hx; [|done].
    rewrite elem_of_part_of by done. split; intros H.
    + etrans; [|exact H]. by apply conn_sym.
    + by etrans.
Qed.

Lemma is_part_unique (g p q : geom) x :
  is_part g p → is_part g q → x ∈ p → x ∈ q → p = q.
Proof.
  intros (_ & _ & Hp) (_ & _ & Hq) Hxp Hxq. apply set_eq. intros y.
  by rewrite (Hp x Hxp y), (Hq x Hxq y).
Qed.

Lemma is_part_part_of (g p : geom) x : is_part g p → x ∈ p → p = part_of g x.
Proof.
  intros Hp Hx. apply (is_part_unique g p (part_of g x) x); [done| |done|].
  - apply part_of_is_part. destruct Hp as (_ & Hsub & _). auto.
  - apply elem_of_part_of; [|apply rtc_refl]. destruct Hp as (_ & Hsub & _). auto.
Qed.

Lemma is_part_disjoint (g p q : geom) : is_part g p → is_part g q → p ≠ q → p ## q.
Proof. intros Hp Hq Hne x Hxp Hxq. apply Hne. by apply (is_part_unique g p q x). Qed.

(** Taking a whole part away leaves the other parts as they are. *)
Lemma conn_difference (g p : geom) x y :
  is_part g p → x ∈ g → x ∉ p → conn g x y → conn (g ∖ p) x y.
Proof.
  intros Hp Hx Hxp H. revert Hx Hxp.
  induction H as [x|a b c [Hadj Hb] Hbc IH]; intros Hx Hxp; [apply rtc_refl|].
  assert (Hbp : b ∉ p).
  { intros Hbp. apply Hxp. destruct Hp as (_ & _ & Hcl).
    apply (Hcl b Hbp a). apply rtc_once. split; [by apply adjacent_sym|done]. }
  eapply rtc_l; [|by apply IH]. split; [done|]. by apply elem_of_difference.
Qed.

Lemma is_part_difference (g p q : geom) :
  is_part g p → is_part (g ∖ p) q ↔ is_part g q ∧ q ≠ p.
Proof.
  intros Hp. split.
  - intros (Hne & Hsub & Hcl).
    assert (Hqp : q ≠ p).
    { intros ->. apply set_choose_L in Hne as [x Hx].
      specialize (Hsub x Hx). apply elem_of_difference in Hsub as [_ ?]. done. }
    split; [|done]. split; [done|]. split; [set_solver|].
    intros x Hx y. rewrite (Hcl x Hx y).
    pose proof (Hsub x Hx) as [Hxg Hxp]%elem_of_difference. split.
    + apply conn_mono. set_solver.
    + by apply conn_difference.
  - intros [Hq Hqp].
    pose proof (is_part_disjoint g q p Hq Hp Hqp) as Hdisj.
    destruct Hq as (Hne & Hsub & Hcl).
    split; [done|]. split; [set_solver|].
    intros x Hx y. rewrite (Hcl x Hx y). split.
    + apply conn_difference; [done|auto|]. intros ?. by apply (Hdisj x).
    + apply conn_mono. set_solver.
Qed.

Lemma parts_fuel_spec (n : nat) (g : geom) :
  size g ≤ n →
  (∀ q, q ∈ parts_fuel n g ↔ is_part g q) ∧ NoDup (parts_fuel n g).
Proof.
  revert g. induction n as [|n IH]; intros g Hsz.
  - assert (g = ∅) as -> by (apply leibniz_equiv, size_empty_inv; lia).
    simpl. split; [|constructor]. intros q. split; [by intros ?%elem_of_nil|].
    intros (Hne & Hsub & _). exfalso. apply Hne. set_solver.
  - simpl. destruct (elements g) as [|c l] eqn:Hel.
    + apply elements_empty_inv in Hel. apply leibniz_equiv in Hel. subst g.
      split; [|constructor]. intros q. split; [by intros ?%elem_of_nil|].
      intros (Hne & Hsub & _). exfalso. apply Hne. set_solver.
    + assert (Hc : c ∈ g) by (apply elem_of_elements; rewrite Hel; left).
      pose proof (part_of_is_part g c Hc) as Hp.
      set (p := part_of g c) in *.
      assert (Hlt : size (g ∖ p) ≤ n).
      { destruct Hp as (Hne & Hsub & _).
        assert (size (g ∖ p) < size g); [|lia].
        apply subset_size. apply set_choose_L in Hne as [x Hx]. set_solver. }
      destruct (IH (g ∖ p) Hlt) as [Hmem Hnd]. split.
      * intros q. rewrite elem_of_cons, Hmem, (is_part_difference g p q Hp).
        destruct (decide (q = p)) as [->|]; naive_solver.
      * constructor; [|done]. rewrite Hmem, (is_part_difference g p p Hp). naive_solver.
Qed.

Lemma elem_of_get_parts (g q : geom) : q ∈ get_parts g ↔ is_part g q.
Proof. unfold get_parts. by apply parts_fuel_spec. Qed.

Lemma NoDup_get_parts (g : geom) : NoDup (get_parts g).
Proof. unfold get_parts. by apply parts_fuel_spec. Qed.

Lemma single_part_is_part (g : geom) : single_part g = true → is_part g g.
Proof.
  unfold single_part. rewrite bool_decide_eq_true. intros H.
  apply elem_of_get_parts. rewrite H. left.
Qed.

Lemma single_part_nonempty (g : geom) : single_part g = true → g ≠ ∅.
Proof. intros H. by destruct (single_part_is_part g H). Qed.

Lemma single_part_get_parts (g : geom) : single_part g = true → get_parts g = [g].
Proof. unfold single_part. by rewrite bool_decide_eq_true. Qed.

(** The parts cover the geometry. *)
Lemma get_parts_cover (g : geom) x : x ∈ g → ∃ p, p ∈ get_parts g ∧ x ∈ p.
Proof.
  intros Hx. exists (part_of g x). split.
  - apply elem_of_get_parts. by apply part_of_is_part.
  - apply elem_of_part_of; [done|apply rtc_refl].
Qed.

(** A family of connected, pairwise separated pieces is the list of parts
    of its union. *)
Lemma get_parts_union (ps : list geom) :
  NoDup ps →
  (∀ p, p ∈ ps → is_part p p) →
  (∀ p q, p ∈ ps → q ∈ ps → p ≠ q → separated p q) →
  get_parts (⋃ ps) ≡ₚ ps.
Proof.
  intros Hnd Hconn Hsep.
  assert (Hpart : ∀ p, p ∈ ps → is_part (⋃ ps) p).
  { intros p Hp. destruct (Hconn p Hp) as (Hne & _ & Hcl).
    assert (Hsub : p ⊆ ⋃ ps) by (intros x Hx; apply elem_of_union_list; eauto).
    split; [done|]. split; [done|].
    intros x Hx y. split.
    - intros Hy. apply (conn_mono p); [done|]. by apply Hcl.
    - intros H. induction H as [|a b c [Hadj Hb] _ IH]; [done|].
      apply IH. apply elem_of_union_list in Hb as (q & Hq & Hbq).
      destruct (decide (p = q)) as [->|Hpq]; [done|].
      by destruct (Hsep p q Hp Hq Hpq a b Hx Hbq). }
  apply NoDup_Permutation; [apply NoDup_get_parts|done|].
  intros q. rewrite elem_of_get_parts. split; [|apply Hpart].
  intros Hq. pose proof Hq as (Hne & Hsub & _).
  apply set_choose_L in Hne as [x Hx].
  pose proof (Hsub x Hx) as (p & Hp & Hxp)%elem_of_union_list.
  by rewrite (is_part_unique (⋃ ps) q p x Hq (Hpart p Hp) Hx Hxp).
Qed.

(** Two connected pieces that share a cell or an edge make one piece. *)
Lemma is_part_union (a b : geom) :
  is_part a a → is_part b b → joined a b = true → is_part (a ∪ b) (a ∪ b).
Proof.
  intros (Hna & _ & Ha) (Hnb & _ & Hb) (u & v & Hu & Hv & Huv)%joined_spec.
  assert (Huv' : conn (a ∪ b) u v).
  { destruct Huv as [->|Hadj]; [apply rtc_refl|].
    apply rtc_once. split; [done|set_solver]. }
  assert (Hvu' : conn (a ∪ b) v u).
  { apply conn_sym; [set_solver|done]. }
  assert (Hca : ∀ x y, x ∈ a → y ∈ a → conn (a ∪ b) x y).
  { intros x y Hx Hy. apply (conn_mono a); [set_solver|]. by apply Ha. }
  assert (Hcb : ∀ x y, x ∈ b → y ∈ b → conn (a ∪ b) x y).
  { intros x y Hx Hy. apply (conn_mono b); [set_solver|]. by apply Hb. }
  split; [set_solver|]. split; [done|].
  intros x Hx y. split.
  - intros Hy. apply elem_of_union in Hx as [Hx|Hx]; apply elem_of_union in Hy as [Hy|Hy].
    + by apply Hca.
    + etrans; [by apply (Hca x u)|]. etrans; [exact Huv'|]. by apply Hcb.
    + etrans; [by apply (Hcb x v)|]. etrans; [exact Hvu'|]. by apply Hca.
    + by apply Hcb.
  - by apply conn_elem.
Qed.

(** ** Areas *)

Lemma area_union_disjoint (a b : geom) : a ## b → area (a ∪ b) = (area a + area b)%Z.
Proof. intros H. unfold area. rewrite size_union by done. lia. Qed.

End GridFacts.

(** * Properties of the Overlap Merger *)

Module MergerFacts.

Import Grid Conn ListFacts GridFacts.

Section Orders.

Context {O : RowOrder}.

(** ** Joining identifiers *)

Lemma join_ids_some (ids : list string) :
  join_ids (Some <$> ids) = Ok (String.concat "___" ids).
Proof.
  unfold join_ids.
  assert (H : mapM (M := option) id (Some <$> ids) = Some ids).
  { apply mapM_Some. induction ids as [|i ids IH]; constructor; done. }
  by rewrite H.
Qed.

(** ** The WKT key *)

#[local] Instance wkt_inj : Inj (=) (=) wkt.
Proof.
  intros a b H. unfold wkt in H.
  rewrite <- (list_to_set_elements_L a), <- (list_to_set_elements_L b).
  by rewrite H.
Qed.

Lemma wkt_loads_wkt (g : geom) : wkt_loads (wkt g) = g.
Proof. apply list_to_set_elements_L. Qed.

(** ** Exploding rows of one part *)

Lemma explode_single_part (rs : list region) :
  Forall (λ r, single_part (region_geometry r) = true) rs → explode rs = rs.
Proof.
  unfold explode. induction 1 as [|r rs Hr _ IH]; [done|].
  rewrite bind_cons, IH, (single_part_get_parts _ Hr).
  by destruct r.
Qed.

Lemma explode_geometries (rs : list region) (r : region) :
  r ∈ explode rs ↔
  ∃ r0, r0 ∈ rs ∧ region_ID r = region_ID r0
        ∧ region_geometry r ∈ get_parts (region_geometry r0).
Proof.
  unfold explode. rewrite list_elem_of_bind. split.
  - intros (r0 & Hr & Hr0). exists r0. split; [done|].
    apply list_elem_of_bind in Hr as (p & Hr & Hp).
    apply list_elem_of_singleton in Hr. subst r. done.
  - intros (r0 & Hr0 & Hid & Hp). exists r0. split; [|done].
    apply list_elem_of_bind. exists (region_geometry r). split; [|done].
    apply list_elem_of_singleton. destruct r. simpl in *. by subst.
Qed.

(** ** The spatial join and the grouping *)

(** The index returns the rows that intersect, in its own order. *)
Lemma sindex_query_intersecting l right :
  sindex_query l right ≡ₚ intersecting l right.
Proof. apply sindex_query_matches. Qed.

Lemma matches_intersecting l right :
  matches l right ≡ₚ region_ID <$> intersecting l right.
Proof. unfold matches. by rewrite sindex_query_intersecting. Qed.

Lemma elem_of_sindex_query l right r :
  r ∈ sindex_query l right ↔ intersects l (region_geometry r) = true ∧ r ∈ right.
Proof.
  rewrite sindex_query_intersecting. unfold intersecting.
  rewrite list_elem_of_filter, Is_true_true. done.
Qed.

Lemma ids_for_nonempty l right : ids_for l right ≠ [].
Proof.
  unfold ids_for.
  destruct (sindex_query l right); done.
Qed.

Lemma ids_for_matches l right :
  filter (λ r, intersects l (region_geometry r)) right ≠ [] →
  ids_for l right = Some <$> matches l right.
Proof.
  unfold ids_for, matches. intros Hne.
  destruct (sindex_query l right) as [|m ms] eqn:Hq.
  - exfalso. apply Hne. symmetry. apply Permutation_nil_l.
    rewrite <- Hq. apply sindex_query_matches.
  - by rewrite <- list_fmap_compose.
Qed.

Lemma sjoin_joined_wkt left right :
  (λ j : geom * option string, (wkt j.1, j.2)) <$> sjoin left right
  = joined_wkt left right.
Proof.
  unfold sjoin, joined_wkt, ids_for. induction left as [|l left IH]; [done|].
  rewrite !bind_cons, fmap_app, IH. f_equal.
  destruct (sindex_query l right); [done|].
  rewrite <- !list_fmap_compose. done.
Qed.

Lemma joined_wkt_keys left right k :
  k ∈ (joined_wkt left right).*1 ↔ k ∈ wkt <$> left.
Proof.
  unfold joined_wkt. rewrite !list_elem_of_fmap. split.
  - intros ([k' o] & -> & Hj). apply list_elem_of_bind in Hj as (l & Hj & Hl).
    apply list_elem_of_fmap in Hj as (o' & Hj & _). injection Hj as -> ->.
    exists l. done.
  - intros (l & -> & Hl).
    destruct (ids_for l right) as [|o os] eqn:Hids;
      [by apply ids_for_nonempty in Hids|].
    exists (wkt l, o). split; [done|].
    apply list_elem_of_bind. exists l. split; [|done].
    rewrite Hids. left.
Qed.

Lemma joined_wkt_group_nil left right k :
  k ∉ wkt <$> left → filter (λ j, j.1 = k) (joined_wkt left right) = [].
Proof.
  intros Hk.
  destruct (filter (λ j, j.1 = k) (joined_wkt left right)) as [|x xs] eqn:Hf;
    [done|].
  assert (Hx : x ∈ filter (λ j, j.1 = k) (joined_wkt left right))
    by (rewrite Hf; left).
  apply list_elem_of_filter in Hx as [Hxk Hx]. exfalso. apply Hk.
  apply (joined_wkt_keys left right). rewrite <- Hxk.
  apply list_elem_of_fmap. eauto.
Qed.

Lemma joined_wkt_block (k k' : list cell) (os : list (option string)) :
  (filter (λ j : list cell * option string, j.1 = k) ((λ o, (k', o)) <$> os)).*2
  = if decide (k' = k) then os else [].
Proof.
  induction os as [|o os IH]; [by case_decide|].
  rewrite fmap_cons, filter_cons. cbn [fst].
  destruct (decide (k' = k)) as [Heq|Hne].
  - by rewrite fmap_cons, IH.
  - by rewrite IH.
Qed.

Lemma joined_wkt_group left right l :
  NoDup (wkt <$> left) → l ∈ left →
  (filter (λ j, j.1 = wkt l) (joined_wkt left right)).*2 = ids_for l right.
Proof.
  induction left as [|p left IH]; intros Hnd Hl.
  - by apply elem_of_nil in Hl.
  - rewrite fmap_cons in Hnd. apply NoDup_cons in Hnd as [Hp Hnd].
    change (joined_wkt (p :: left) right)
      with (((λ o, (wkt p, o)) <$> ids_for p right) ++ joined_wkt left right).
    rewrite filter_app, fmap_app, joined_wkt_block.
    destruct (decide (wkt p = wkt l)) as [Heq|Hne].
    + rewrite <- Heq, (joined_wkt_group_nil left right (wkt p) Hp).
      apply (inj wkt) in Heq. subst p. by rewrite app_nil_r.
    + apply elem_of_cons in Hl as [->|Hl]; [done|]. by apply IH.
Qed.

(** The sorted keys of the groups are the keys of the left geometries. *)
Lemma groupby_keys left right :
  NoDup left →
  wkt_order (remove_dups (joined_wkt left right).*1) ≡ₚ wkt <$> left.
Proof.
  intros Hnd. rewrite wkt_order_keys.
  apply NoDup_Permutation.
  - apply NoDup_remove_dups.
  - by apply (NoDup_fmap_2 wkt).
  - intros k. rewrite elem_of_remove_dups. apply joined_wkt_keys.
Qed.

(** ** The merger *)

(** Every part of the union meets a row it comes from. *)
Lemma part_has_match (right : list region) (l : geom) :
  l ∈ get_parts (unary_union (region_geometry <$> right)) →
  filter (λ r, intersects l (region_geometry r)) right ≠ [].
Proof.
  intros Hl. apply elem_of_get_parts in Hl as (Hne & Hsub & _).
  apply set_choose_L in Hne as [x Hx].
  pose proof (Hsub x Hx) as (g & Hg & Hxg)%elem_of_union_list.
  apply list_elem_of_fmap in Hg as (r & -> & Hr).
  intros Hnil.
  assert (Hin : r ∈ filter (λ r, intersects l (region_geometry r)) right).
  { apply list_elem_of_filter. split; [|done].
    apply Is_true_true. apply intersects_spec. exists x, x.
    auto using cells_meet_refl. }
  rewrite Hnil in Hin. by apply elem_of_nil in Hin.
Qed.

(** The merger returns for every input, and its rows are the parts of the
    union of the exploded input, each with the joined identifiers of the
    exploded rows that it intersects. *)
Lemma combine_overlapping_geometries_rows (ch_df : gdf region) :
  ∃ out,
    combine_overlapping_geometries ch_df = Ok out
    ∧ crs out = crs ch_df
    ∧ rows out ≡ₚ
        merged_row (explode (rows ch_df))
          <$> get_parts (unary_union (region_geometry <$> explode (rows ch_df))).
Proof.
  unfold combine_overlapping_geometries. cbn [rows crs].
  set (right := explode (rows ch_df)).
  set (parts := get_parts (unary_union (region_geometry <$> right))).
  rewrite sjoin_joined_wkt.
  pose proof (NoDup_get_parts (unary_union (region_geometry <$> right))) as Hnd.
  fold parts in Hnd.
  pose proof (groupby_keys parts right Hnd) as Hkeys.
  unfold groupby.
  set (keys := wkt_order (remove_dups (joined_wkt parts right).*1)) in *.
  set (row_of := λ grp : list cell * list (option string),
         (grp.1, String.concat "___" (matches (wkt_loads grp.1) right))).
  rewrite (mapM_except_ok _ row_of).
  - eexists. split; [reflexivity|]. split; [done|]. cbn [rows].
    rewrite <- !list_fmap_compose.
    transitivity ((λ k, merged_row right (wkt_loads k)) <$> keys); [done|].
    rewrite Hkeys, <- list_fmap_compose.
    erewrite list_fmap_ext; [reflexivity|].
    intros i l _. simpl. by rewrite wkt_loads_wkt.
  - intros grp Hgrp. apply list_elem_of_fmap in Hgrp as (k & -> & Hk).
    rewrite Hkeys in Hk. apply list_elem_of_fmap in Hk as (l & -> & Hl).
    cbn [fst snd]. unfold row_of. cbn [fst snd].
    rewrite joined_wkt_group; [|by apply (NoDup_fmap_2 wkt)|done].
    rewrite ids_for_matches by (by apply part_has_match).
    rewrite join_ids_some, wkt_loads_wkt. done.
Qed.

(** ** The regions of the merger partition the union of the input *)

Lemma union_get_parts (g : geom) : ⋃ get_parts g = g.
Proof.
  apply set_eq. intros x. rewrite elem_of_union_list. split.
  - intros (p & Hp & Hx). apply elem_of_get_parts in Hp as (_ & Hsub & _). auto.
  - intros Hx. destruct (get_parts_cover g x Hx) as (p & Hp & Hxp). eauto.
Qed.

Lemma explode_union (rs : list region) :
  unary_union (region_geometry <$> explode rs)
  = unary_union (region_geometry <$> rs).
Proof.
  unfold unary_union. apply set_eq. intros x. rewrite !elem_of_union_list. split.
  - intros (g & Hg & Hx). apply list_elem_of_fmap in Hg as (r & -> & Hr).
    apply explode_geometries in Hr as (r0 & Hr0 & _ & Hp).
    exists (region_geometry r0). split; [apply list_elem_of_fmap; eauto|].
    apply elem_of_get_parts in Hp as (_ & Hsub & _). auto.
  - intros (g & Hg & Hx). apply list_elem_of_fmap in Hg as (r0 & -> & Hr0).
    destruct (get_parts_cover _ x Hx) as (p & Hp & Hxp).
    exists p. split; [|done]. apply list_elem_of_fmap.
    exists (Region (region_ID r0) p). split; [done|].
    apply explode_geometries. exists r0. done.
Qed.

Lemma total_area_Permutation (gs hs : list geom) :
  gs ≡ₚ hs → total_area gs = total_area hs.
Proof.
  unfold total_area.
  induction 1 as [|x l l' _ IH|x y l|l l' l'' _ IH1 _ IH2];
    rewrite ?fmap_cons; cbn [foldr]; lia.
Qed.

Lemma total_area_disjoint (gs : list geom) :
  NoDup gs → (∀ p q, p ∈ gs → q ∈ gs → p ≠ q → p ## q) →
  total_area gs = area (⋃ gs).
Proof.
  unfold total_area. induction 1 as [|g gs Hg Hnd IH]; intros Hdisj; [done|].
  rewrite fmap_cons. cbn [foldr]. rewrite IH.
  2:{ intros p q Hp Hq. apply Hdisj; by right. }
  change (⋃ (g :: gs)) with (g ∪ ⋃ gs).
  rewrite area_union_disjoint; [done|].
  intros x Hx (q & Hq & Hxq)%elem_of_union_list.
  assert (Hgq : g ## q).
  { apply Hdisj; [left|by right|]. intros ->. done. }
  by apply (Hgq x).
Qed.

(** For every input the merger returns regions that are pairwise
    disjoint, that cover the union of the input geometries and no more,
    and whose areas add up to the area of that union. *)
Lemma combine_overlapping_geometries_partition (ch_df : gdf region) :
  ∃ out,
    combine_overlapping_geometries ch_df = Ok out
    ∧ (∀ i j r r', i ≠ j → rows out !! i = Some r → rows out !! j = Some r' →
         region_geometry r ## region_geometry r')
    ∧ unary_union (region_geometry <$> rows out)
      = unary_union (region_geometry <$> rows ch_df)
    ∧ total_area (region_geometry <$> rows out)
      = area (unary_union (region_geometry <$> rows ch_df)).
Proof.
  destruct (combine_overlapping_geometries_rows ch_df) as (out & Hout & _ & Hrows).
  exists out. split; [done|].
  set (u := unary_union (region_geometry <$> explode (rows ch_df))) in *.
  assert (Hgeoms : region_geometry <$> rows out ≡ₚ get_parts u).
  { rewrite Hrows, <- list_fmap_compose.
    erewrite list_fmap_ext; [by rewrite list_fmap_id|]. by intros i l _. }
  assert (Hdisj : ∀ p q, p ∈ get_parts u → q ∈ get_parts u → p ≠ q → p ## q).
  { intros p q Hp%elem_of_get_parts Hq%elem_of_get_parts.
    by apply (is_part_disjoint u). }
  split; [|split].
  - intros i j r r' Hij Hi Hj.
    assert (Hnd : NoDup (region_geometry <$> rows out))
      by (rewrite Hgeoms; apply NoDup_get_parts).
    apply Hdisj.
    + rewrite <- Hgeoms. apply list_elem_of_fmap. exists r.
      split; [done|]. apply list_elem_of_lookup. eauto.
    + rewrite <- Hgeoms. apply list_elem_of_fmap. exists r'.
      split; [done|]. apply list_elem_of_lookup. eauto.
    + intros Heq. apply Hij.
      apply (NoDup_lookup _ i j (region_geometry r) Hnd);
        rewrite list_lookup_fmap; [by rewrite Hi|by rewrite Hj, Heq].
  - unfold unary_union at 1. rewrite Hgeoms, union_get_parts.
    apply explode_union.
  - rewrite (total_area_Permutation _ _ Hgeoms).
    rewrite total_area_disjoint; [|apply NoDup_get_parts|done].
    by rewrite union_get_parts, <- explode_union.
Qed.

(** ** The rows of the merger, whatever the orders *)

(** The rows of the output against the parts of the union: each part under
    the identifiers of the exploded rows that it intersects, joined in
    some order. *)
Lemma combine_overlapping_geometries_like (ch_df : gdf region) :
  returns_like (combine_overlapping_geometries ch_df)
    ((λ l, (region_ID <$> intersecting l (explode (rows ch_df)), l))
       <$> get_parts (unary_union (region_geometry <$> explode (rows ch_df)))).
Proof.
  destruct (combine_overlapping_geometries_rows ch_df) as (out & Hout & _ & Hrows).
  eexists out, _. split; [done|]. split; [exact Hrows|].
  apply Forall2_fmap, Forall_Forall2_diag, Forall_forall. intros l _.
  split; [done|]. cbn [fst snd merged_row region_ID].
  exists (matches l (explode (rows ch_df))). split; [|done].
  apply matches_intersecting.
Qed.

Lemma returns_like_eval (ch_df : gdf region)
    (expected : list (list string * geom)) :
  (λ l, (region_ID <$> intersecting l (explode (rows ch_df)), l))
    <$> get_parts (unary_union (region_geometry <$> explode (rows ch_df)))
  = expected →
  returns_like (combine_overlapping_geometries ch_df) expected.
Proof. intros <-. apply combine_overlapping_geometries_like. Qed.

End Orders.

End MergerFacts.

(** * The Overlap Merger on hazards that touch, overlap or stand apart *)

Module Merger.

Import Grid Conn ListFacts GridFacts MergerFacts.

(** Evaluates the merger on closed rows: the expected rows are given in
    the order in which the evaluation returns them. *)
Ltac evaluate_rows :=
  match goal with
  | |- returns_rows ?m ?expected =>
      exists (Gdf "EPSG:4326" expected); split; [by vm_compute|done]
  end.

(** ** Lists of geometries that share no point *)

Lemma pairwise_disjoint_lookup (gs : list geom) i j a b :
  pairwise_disjoint gs = true →
  gs !! i = Some a → gs !! j = Some b → i ≠ j → intersects a b = false.
Proof.
  revert i j. induction gs as [|g gs IH]; intros i j Hpd Hi Hj Hij; [done|].
  simpl in Hpd. apply andb_true_iff in Hpd as [Hg Hpd].
  rewrite forallb_forall in Hg.
  destruct i as [|i], j as [|j]; simpl in Hi, Hj; [done| | |].
  - injection Hi as ->.
    apply negb_true_iff, Hg, list_elem_of_In, list_elem_of_lookup. eauto.
  - injection Hj as ->. rewrite intersects_sym.
    apply negb_true_iff, Hg, list_elem_of_In, list_elem_of_lookup. eauto.
  - apply (IH i j); auto.
Qed.

Lemma forallb_single_part (rs : list region) :
  forallb (λ r, single_part (region_geometry r)) rs = true →
  Forall (λ r, single_part (region_geometry r) = true) rs.
Proof. rewrite forallb_forall, Forall_forall. intros H r Hr. by apply H, list_elem_of_In. Qed.

(** ** Rows that stand apart are returned as they are *)

Lemma merged_row_own {O : RowOrder} (rs : list region) i r :
  Forall (λ r, single_part (region_geometry r) = true) rs →
  pairwise_disjoint (region_geometry <$> rs) = true →
  rs !! i = Some r →
  merged_row rs (region_geometry r) = r.
Proof.
  intros Hsingle Hpd Hi. unfold merged_row, matches.
  assert (Hq : sindex_query (region_geometry r) rs = [r]).
  { apply Permutation_singleton_r. rewrite sindex_query_matches.
    rewrite (filter_only _ rs i r Hi); [done| |].
    - apply Is_true_true, intersects_self, single_part_nonempty.
      rewrite Forall_forall in Hsingle. apply Hsingle.
      apply list_elem_of_lookup. eauto.
    - intros j y Hj Hji. apply Is_true_false.
      apply (pairwise_disjoint_lookup (region_geometry <$> rs) i j); auto.
      + by rewrite list_lookup_fmap, Hi.
      + by rewrite list_lookup_fmap, Hj. }
  rewrite Hq. by destruct r.
Qed.

Lemma standing_apart_parts (rs : list region) :
  Forall (λ r, single_part (region_geometry r) = true) rs →
  pairwise_disjoint (region_geometry <$> rs) = true →
  get_parts (unary_union (region_geometry <$> rs)) ≡ₚ region_geometry <$> rs.
Proof.
  intros Hsingle Hpd. set (gs := region_geometry <$> rs) in *.
  assert (Hsp : ∀ g, g ∈ gs → single_part g = true).
  { intros g (r & -> & Hr)%list_elem_of_fmap.
    rewrite Forall_forall in Hsingle. auto. }
  apply get_parts_union.
  - apply NoDup_alt. intros i j g Hi Hj.
    destruct (decide (i = j)) as [|Hij]; [done|exfalso].
    pose proof (pairwise_disjoint_lookup gs i j g g Hpd Hi Hj Hij) as Hf.
    rewrite intersects_self in Hf; [done|].
    apply single_part_nonempty, Hsp, list_elem_of_lookup. eauto.
  - intros p Hp. by apply single_part_is_part, Hsp.
  - intros p q Hp Hq Hpq.
    apply list_elem_of_lookup in Hp as [i Hi].
    apply list_elem_of_lookup in Hq as [j Hj].
    apply not_intersects_separated.
    apply (pairwise_disjoint_lookup gs i j); auto. intros ->. congruence.
Qed.

(** C4 (as amended).  For every set of rows whose geometries are each of
    one part and pairwise share no point, not even on a boundary, the
    Overlap Merger returns and its rows are the input rows, each with its
    identifier and its geometry, up to the order of the rows. *)
Theorem combine_overlapping_geometries_standing_apart {O : RowOrder}
    (ch_df : gdf region) :
  forallb (λ r, single_part (region_geometry r)) (rows ch_df) = true →
  pairwise_disjoint (region_geometry <$> rows ch_df) = true →
  ∃ out,
    combine_overlapping_geometries ch_df = Ok out
    ∧ crs out = crs ch_df
    ∧ rows out ≡ₚ rows ch_df.
Proof.
  intros Hsingle%forallb_single_part Hpd.
  destruct (combine_overlapping_geometries_rows ch_df) as (out & Hout & Hcrs & Hrows).
  exists out. split; [done|]. split; [done|].
  rewrite Hrows, (explode_single_part _ Hsingle).
  rewrite (standing_apart_parts _ Hsingle Hpd).
  assert (Heq : merged_row (rows ch_df) <$> (region_geometry <$> rows ch_df)
                = rows ch_df).
  { apply list_eq. intros i. rewrite !list_lookup_fmap.
    destruct (rows ch_df !! i) as [r|] eqn:Hi; [|done].
    simpl. f_equal. by apply (merged_row_own _ i). }
  by rewrite Heq.
Qed.

(** An instance: two unit squares and an L-shaped footprint, far apart. *)
Lemma combine_overlapping_geometries_standing_apart_witness :
  ∃ out,
    combine_overlapping_geometries
      (Gdf "EPSG:4326"
         [Region "A" {[ (0, 0)%Z ]}; Region "B" {[ (3, 0)%Z ]};
          Region "C" {[ (6, 6)%Z; (7, 6)%Z; (7, 7)%Z ]}]) = Ok out
    ∧ crs out = "EPSG:4326"%string
    ∧ rows out ≡ₚ
        [Region "A" {[ (0, 0)%Z ]}; Region "B" {[ (3, 0)%Z ]};
         Region "C" {[ (6, 6)%Z; (7, 6)%Z; (7, 7)%Z ]}].
Proof.
  apply (combine_overlapping_geometries_standing_apart
           (Gdf "EPSG:4326"
              [Region "A" {[ (0, 0)%Z ]}; Region "B" {[ (3, 0)%Z ]};
               Region "C" {[ (6, 6)%Z; (7, 6)%Z; (7, 7)%Z ]}]));
    vm_compute; reflexivity.
Defined.

(** C4, the claim as stated, fails.  The output of the merger on two unit
    squares that meet at a corner is a set of two regions whose interiors
    are disjoint, both named ["A___B"]; the merger run on that output
    names both ["A___B___A___B"].  Two squares side by side do not
    overlap either, and the merger makes one region of them.  A hazard of
    two parts overlaps nothing, and the merger returns its parts as two
    rows.  (The identifiers are joined in the order of the examples; in
    any order a second run joins four where the first joined two.) *)
Lemma combine_overlapping_geometries_not_idempotent :
  let corner := [Region "A" {[ (0, 0)%Z ]}; Region "B" {[ (1, 1)%Z ]}] in
  let once := [Region "A___B" {[ (0, 0)%Z ]}; Region "A___B" {[ (1, 1)%Z ]}] in
  let twice :=
    [Region "A___B___A___B" {[ (0, 0)%Z ]}; Region "A___B___A___B" {[ (1, 1)%Z ]}] in
  let side_by_side := [Region "A" {[ (0, 0)%Z ]}; Region "B" {[ (1, 0)%Z ]}] in
  let two_parts := [Region "F" {[ (0, 0)%Z; (5, 5)%Z ]}] in
  (returns_rows (combine_overlapping_geometries (Gdf "EPSG:4326" corner)) once
   ∧ non_overlapping (region_geometry <$> once) = true
   ∧ returns_rows (combine_overlapping_geometries (Gdf "EPSG:4326" once)) twice
   ∧ ¬ twice ≡ₚ once)
  ∧ (non_overlapping (region_geometry <$> side_by_side) = true
     ∧ returns_rows (combine_overlapping_geometries (Gdf "EPSG:4326" side_by_side))
         [Region "A___B" {[ (0, 0)%Z; (1, 0)%Z ]}]
     ∧ ¬ [Region "A___B" {[ (0, 0)%Z; (1, 0)%Z ]}] ≡ₚ side_by_side)
  ∧ (non_overlapping (region_geometry <$> two_parts) = true
     ∧ returns_rows (combine_overlapping_geometries (Gdf "EPSG:4326" two_parts))
         [Region "F" {[ (0, 0)%Z ]}; Region "F" {[ (5, 5)%Z ]}]
     ∧ ¬ [Region "F" {[ (0, 0)%Z ]}; Region "F" {[ (5, 5)%Z ]}] ≡ₚ two_parts).
Proof.
  cbv zeta. split; [|split].
  - split; [evaluate_rows|]. split; [by vm_compute|]. split; [evaluate_rows|].
    intros Hperm. apply (fmap_Permutation region_ID) in Hperm.
    assert (Hin : "A___B___A___B"%string ∈ ["A___B"; "A___B"]%string).
    { simpl in Hperm. rewrite <- Hperm. left. }
    apply elem_of_cons in Hin as [Hin|Hin]; [discriminate|].
    apply elem_of_cons in Hin as [Hin|Hin]; [discriminate|].
    by apply elem_of_nil in Hin.
  - split; [by vm_compute|]. split; [evaluate_rows|].
    intros Hperm%Permutation_length. discriminate.
  - split; [by vm_compute|]. split; [evaluate_rows|].
    intros Hperm%Permutation_length. discriminate.
Qed.

(** ** Two hazards in one piece and a third apart *)

Lemma filter_region_cons_true l r rs :
  intersects l (region_geometry r) = true →
  filter (λ r, intersects l (region_geometry r)) (r :: rs)
  = r :: filter (λ r, intersects l (region_geometry r)) rs.
Proof. intros H. apply filter_cons_True. by apply Is_true_true. Qed.

Lemma filter_region_cons_false l r rs :
  intersects l (region_geometry r) = false →
  filter (λ r, intersects l (region_geometry r)) (r :: rs)
  = filter (λ r, intersects l (region_geometry r)) rs.
Proof. intros H. apply filter_cons_False. by apply Is_true_false. Qed.

(** C1 (as amended).  For hazards A and B, each of one part, whose
    footprints overlap or share a boundary segment, and a hazard C of one
    part that shares no point with either, the Overlap Merger returns
    exactly two regions, whatever the order of the spatial index: the
    union of A and B under A's and B's identifiers joined by the
    separator, in one order or the other, and C under its own identifier
    with no separator; the two regions do not overlap and their areas add
    up to the area of the union of the inputs. *)
Theorem combine_overlapping_geometries_three_hazards {O : RowOrder}
    (frame ida idb idc : string) (A B C : geom) :
  single_part A = true → single_part B = true → single_part C = true →
  joined A B = true →
  intersects A C = false → intersects B C = false →
  ∃ out ab,
    combine_overlapping_geometries
      (Gdf frame [Region ida A; Region idb B; Region idc C]) = Ok out
    ∧ (ab = (ida ++ "___" ++ idb)%string ∨ ab = (idb ++ "___" ++ ida)%string)
    ∧ rows out ≡ₚ [Region ab (A ∪ B); Region idc C]
    ∧ length (rows out) = 2
    ∧ (A ∪ B) ## C
    ∧ (area (A ∪ B) + area C)%Z = area (A ∪ B ∪ C).
Proof.
  intros HA HB HC Hjoin HAC HBC.
  pose proof (single_part_is_part A HA) as HpA.
  pose proof (single_part_is_part B HB) as HpB.
  pose proof (single_part_is_part C HC) as HpC.
  pose proof (single_part_nonempty A HA) as HnA.
  pose proof (single_part_nonempty B HB) as HnB.
  pose proof (single_part_nonempty C HC) as HnC.
  pose proof (intersects_union_false A B C HAC HBC) as HABC.
  pose proof (not_intersects_disjoint _ _ HABC) as Hdisj.
  set (rs := [Region ida A; Region idb B; Region idc C]).
  destruct (combine_overlapping_geometries_rows (Gdf frame rs))
    as (out & Hout & _ & Hrows).
  cbn [rows] in Hrows.
  assert (Hsingle : Forall (λ r, single_part (region_geometry r) = true) rs).
  { repeat constructor; done. }
  rewrite (explode_single_part _ Hsingle) in Hrows.
  assert (Hunion : unary_union (region_geometry <$> rs) = ⋃ [A ∪ B; C]).
  { unfold unary_union, rs. simpl. set_solver. }
  assert (Hparts : get_parts (unary_union (region_geometry <$> rs)) ≡ₚ [A ∪ B; C]).
  { rewrite Hunion. apply get_parts_union.
    - apply NoDup_cons. split; [|apply NoDup_singleton].
      intros Heq%list_elem_of_singleton.
      apply set_choose_L in HnC as [x Hx].
      apply (Hdisj x); [by rewrite Heq|done].
    - intros p [->|[->|[]%elem_of_nil]%elem_of_cons]%elem_of_cons;
        [by apply is_part_union|done].
    - intros p q [->|[->|[]%elem_of_nil]%elem_of_cons]%elem_of_cons
                 [->|[->|[]%elem_of_nil]%elem_of_cons]%elem_of_cons Hpq;
        try done.
      + by apply not_intersects_separated.
      + apply not_intersects_separated. by rewrite intersects_sym. }
  assert (HqAB : sindex_query (A ∪ B) rs ≡ₚ [Region ida A; Region idb B]).
  { rewrite sindex_query_matches. unfold rs.
    rewrite filter_region_cons_true
      by (apply (intersects_subseteq A (A ∪ B) A);
            [apply union_subseteq_l|by apply intersects_self]).
    rewrite filter_region_cons_true
      by (apply (intersects_subseteq B (A ∪ B) B);
            [apply union_subseteq_r|by apply intersects_self]).
    by rewrite filter_region_cons_false by done. }
  assert (HrowAB : ∃ ab,
            (ab = (ida ++ "___" ++ idb)%string ∨ ab = (idb ++ "___" ++ ida)%string)
            ∧ merged_row rs (A ∪ B) = Region ab (A ∪ B)).
  { unfold merged_row, matches. symmetry in HqAB.
    apply Permutation_length_2_inv in HqAB as [-> | ->]; eexists; eauto. }
  assert (HrowC : merged_row rs C = Region idc C).
  { unfold merged_row, matches.
    assert (Hq : sindex_query C rs = [Region idc C]).
    { apply Permutation_singleton_r. rewrite sindex_query_matches. unfold rs.
      rewrite filter_region_cons_false by (by rewrite intersects_sym).
      rewrite filter_region_cons_false by (by rewrite intersects_sym).
      by rewrite filter_region_cons_true by (by apply intersects_self). }
    by rewrite Hq. }
  destruct HrowAB as (ab & Hab & HrowAB).
  assert (Hout_rows : rows out ≡ₚ [Region ab (A ∪ B); Region idc C]).
  { rewrite Hrows, Hparts. simpl. by rewrite HrowAB, HrowC. }
  exists out, ab. split; [done|]. split; [done|]. split; [done|].
  split; [by rewrite Hout_rows|]. split; [done|].
  symmetry. by apply area_union_disjoint.
Qed.

(** An instance: A and B side by side, C apart. *)
Lemma combine_overlapping_geometries_three_hazards_witness :
  ∃ out ab,
    combine_overlapping_geometries
      (Gdf "EPSG:4326"
         [Region "A" {[ (0, 0)%Z; (0, 1)%Z ]}; Region "B" {[ (1, 0)%Z ]};
          Region "C" {[ (5, 5)%Z ]}]) = Ok out
    ∧ (ab = "A___B"%string ∨ ab = "B___A"%string)
    ∧ rows out ≡ₚ
        [Region ab ({[ (0, 0)%Z; (0, 1)%Z ]} ∪ {[ (1, 0)%Z ]});
         Region "C" {[ (5, 5)%Z ]}]
    ∧ length (rows out) = 2
    ∧ ({[ (0, 0)%Z; (0, 1)%Z ]} ∪ {[ (1, 0)%Z ]} : geom) ## {[ (5, 5)%Z ]}
    ∧ (area ({[ (0, 0)%Z; (0, 1)%Z ]} ∪ {[ (1, 0)%Z ]}) + area {[ (5, 5)%Z ]})%Z
      = area ({[ (0, 0)%Z; (0, 1)%Z ]} ∪ {[ (1, 0)%Z ]} ∪ {[ (5, 5)%Z ]}).
Proof.
  apply (combine_overlapping_geometries_three_hazards
           "EPSG:4326" "A" "B" "C"
           {[ (0, 0)%Z; (0, 1)%Z ]} {[ (1, 0)%Z ]} {[ (5, 5)%Z ]});
    vm_compute; reflexivity.
Defined.

(** C1, the claim as stated, fails.  A and B are unit squares that share
    one corner point and no more, C is apart from both: A and B intersect,
    and the merger returns three regions, A and B each under both
    identifiers and C under its own.  And when A has a second part, apart
    from B and from C, the merger returns three regions as well.  The
    identifiers are joined in the order of the spatial index, which is
    left open here. *)
Lemma combine_overlapping_geometries_corner_contact :
  (let A : geom := {[ (0, 0)%Z ]} in
   let B : geom := {[ (1, 1)%Z ]} in
   let C : geom := {[ (5, 5)%Z ]} in
   intersects A B = true ∧ intersects A C = false ∧ intersects B C = false
   ∧ returns_like
       (combine_overlapping_geometries
          (Gdf "EPSG:4326" [Region "A" A; Region "B" B; Region "C" C]))
       [(["A"; "B"], A); (["C"], C); (["A"; "B"], B)]%string)
  ∧ (let A : geom := {[ (0, 0)%Z; (3, 3)%Z ]} in
     let B : geom := {[ (1, 0)%Z ]} in
     let C : geom := {[ (8, 8)%Z ]} in
     intersects A B = true ∧ intersects A C = false ∧ intersects B C = false
     ∧ returns_like
         (combine_overlapping_geometries
            (Gdf "EPSG:4326" [Region "A" A; Region "B" B; Region "C" C]))
         [(["A"; "B"], {[ (0, 0)%Z; (1, 0)%Z ]}); (["A"], {[ (3, 3)%Z ]});
          (["C"], C)]%string).
Proof.
  cbv zeta. split; (split; [by vm_compute|]); (split; [by vm_compute|]);
    (split; [by vm_compute|]); apply returns_like_eval; by vm_compute.
Qed.

(** ** Hazards of several parts *)

(** C10.  Whatever the order of the spatial index and of the keys: a
    hazard F of two parts far apart yields two rows under ["F"]; a hazard
    F whose two parts are bridged by a hazard G yields one region whose
    identifier is the join of F, F and G in some order: the identifier is
    joined once for each exploded part that intersects the region. *)
Theorem combine_overlapping_geometries_repeats_identifier {O : RowOrder} :
  let far := [Region "F" {[ (0, 0)%Z; (5, 5)%Z ]}] in
  let bridged :=
    [Region "F" {[ (0, 0)%Z; (2, 0)%Z ]}; Region "G" {[ (1, 0)%Z ]}] in
  (single_part {[ (0, 0)%Z; (5, 5)%Z ]} = false
   ∧ returns_rows (combine_overlapping_geometries (Gdf "EPSG:4326" far))
       [Region "F" {[ (0, 0)%Z ]}; Region "F" {[ (5, 5)%Z ]}])
  ∧ (single_part {[ (0, 0)%Z; (2, 0)%Z ]} = false
     ∧ ∃ F_F_G,
         (F_F_G = "F___F___G" ∨ F_F_G = "F___G___F" ∨ F_F_G = "G___F___F")%string
         ∧ returns_rows (combine_overlapping_geometries (Gdf "EPSG:4326" bridged))
             [Region F_F_G {[ (0, 0)%Z; (1, 0)%Z; (2, 0)%Z ]}]).
Proof.
  cbv zeta. split; (split; [by vm_compute|]).
  - destruct (returns_like_eval
                (Gdf "EPSG:4326" [Region "F" {[ (0, 0)%Z; (5, 5)%Z ]}])
                [(["F"], {[ (0, 0)%Z ]}); (["F"], {[ (5, 5)%Z ]})]%string)
      as (out & rs & Hout & Hrows & Hlike); [by vm_compute|].
    exists out. split; [done|]. rewrite Hrows.
    apply Forall2_cons_inv_r in Hlike as (r1 & rs1 & [Hg1 Hid1] & Hlike & ->).
    apply Forall2_cons_inv_r in Hlike as (r2 & rs2 & [Hg2 Hid2] & Hlike & ->).
    apply Forall2_nil_inv_r in Hlike as ->.
    destruct Hid1 as (js1 & Hjs1%Permutation_singleton_r & Hid1).
    destruct Hid2 as (js2 & Hjs2%Permutation_singleton_r & Hid2).
    destruct r1, r2. simpl in *. by subst.
  - destruct (returns_like_eval
                (Gdf "EPSG:4326"
                   [Region "F" {[ (0, 0)%Z; (2, 0)%Z ]}; Region "G" {[ (1, 0)%Z ]}])
                [(["F"; "F"; "G"], {[ (0, 0)%Z; (1, 0)%Z; (2, 0)%Z ]})]%string)
      as (out & rs & Hout & Hrows & Hlike); [by vm_compute|].
    apply Forall2_cons_inv_r in Hlike as (r & rs1 & [Hg Hid] & Hlike & ->).
    apply Forall2_nil_inv_r in Hlike as ->.
    destruct Hid as (js & Hjs & Hid). destruct r as [ident g]. simpl in *. subst g.
    exists ident. split.
    + subst ident. symmetry in Hjs.
      apply Permutation_length_3_inv in Hjs
        as [ -> | [ -> | [ -> | [ -> | [ -> | -> ] ] ] ] ]; auto.
    + exists out. by rewrite Hrows.
Qed.

End Merger.

(** * The loader, the Buffering Engine and the raster stage *)

Module PipelineFacts.

Import Grid Conn ListFacts GridFacts MergerFacts.

(** ** The loader *)

(** C8.  For every path whose suffix is neither [.geojson] nor [.parquet]
    the loader raises the error of the unsupported file type (a
    [FileNotFoundError] that names the path), whatever the files hold, and
    the error goes through every stage above it: the run is aborted. *)
Theorem load_ch_unsupported_file_type {K : GeoKernel} {O : RowOrder}
    (fs : FileSystem)
    (path_to_hazards raster_path : string) (by_unique_hazard : bool) :
  String.eqb (PathLib.suffix (PathLib.mk_path path_to_hazards)) ".geojson" = false →
  String.eqb (PathLib.suffix (PathLib.mk_path path_to_hazards)) ".parquet" = false →
  let e :=
    Exn "FileNotFoundError"
      ("File not found or unsupported file type: "
         ++ PathLib.str (PathLib.mk_path path_to_hazards))%string in
  load_ch fs path_to_hazards = Raise e
  ∧ prep_geographies fs path_to_hazards = Raise e
  ∧ prep_data fs path_to_hazards = Raise e
  ∧ find_num_people_affected fs path_to_hazards raster_path by_unique_hazard
    = Raise e.
Proof.
  intros Hgeojson Hparquet e.
  assert (Hload : load_ch fs path_to_hazards = Raise e).
  { unfold load_ch. by rewrite Hgeojson, Hparquet. }
  assert (Hprep : prep_geographies fs path_to_hazards = Raise e).
  { unfold prep_geographies. by rewrite Hload. }
  assert (Hdata : prep_data fs path_to_hazards = Raise e).
  { unfold prep_data. by rewrite Hprep. }
  repeat split; try done.
  unfold find_num_people_affected. by rewrite Hdata.
Qed.

(** An instance: a shapefile, with the files of the examples. *)
Lemma load_ch_unsupported_file_type_witness :
  let e :=
    Exn "FileNotFoundError" "File not found or unsupported file type: data/fires.shp" in
  load_ch Examples.files "data/fires.shp" = Raise e
  ∧ prep_geographies Examples.files "data/fires.shp" = Raise e
  ∧ prep_data Examples.files "data/fires.shp" = Raise e
  ∧ find_num_people_affected Examples.files "data/fires.shp" "pop.tif" false
    = Raise e.
Proof.
  apply (load_ch_unsupported_file_type
           (K := Examples.square_kernel) Examples.files
           "data/fires.shp" "pop.tif" false); reflexivity.
Defined.

(** An error of the reader itself, for a file whose suffix is supported
    and whose content is not readable, aborts the run as well. *)
Lemma load_ch_reader_error {K : GeoKernel} {O : RowOrder} (fs : FileSystem)
    (path_to_hazards raster_path : string) (by_unique_hazard : bool) (e : exn) :
  load_ch fs path_to_hazards = Raise e →
  prep_data fs path_to_hazards = Raise e
  ∧ find_num_people_affected fs path_to_hazards raster_path by_unique_hazard
    = Raise e.
Proof.
  intros Hload.
  assert (Hdata : prep_data fs path_to_hazards = Raise e).
  { unfold prep_data, prep_geographies. by rewrite Hload. }
  split; [done|]. unfold find_num_people_affected. by rewrite Hdata.
Qed.

(** ** The preparation *)

Lemma mapM_Ok {A B} (f : A → except B) (g : A → B) (l : list A) :
  Forall (λ a, f a = Ok (g a)) l → mapM f l = Ok (g <$> l).
Proof.
  induction 1 as [|a l Ha _ IH]; [done|].
  cbn [mapM]. rewrite Ha. cbn [mbind except_bind]. rewrite IH. done.
Qed.

Lemma mapM_Raise {A B} (f : A → except B) (l : list A) (a : A) (e : exn) :
  a ∈ l → (∀ b, b ∈ l → f b = Raise e ∨ ∃ x, f b = Ok x) → f a = Raise e →
  mapM f l = Raise e.
Proof.
  intros Ha Hall Hfa. induction l as [|b l IH]; [by apply elem_of_nil in Ha|].
  cbn [mapM]. destruct (Hall b ltac:(left)) as [Hb|[x Hb]]; rewrite Hb;
    cbn [mbind except_bind]; [done|].
  apply elem_of_cons in Ha as [->|Ha]; [congruence|].
  rewrite IH; [done|done|]. intros c Hc. apply Hall. by right.
Qed.

(** [add_utm_projection] returns on a frame that has a row and no empty
    geometry: every row gets the projection of its centroid. *)
Lemma add_utm_projection_Ok (ch_shp : gdf hazard) :
  rows ch_shp ≠ [] →
  Forall (λ r, is_empty (geometry r) = false) (rows ch_shp) →
  add_utm_projection ch_shp
  = Ok (Gdf (crs ch_shp)
          ((λ row,
              Projected row
                (Projection.get_best_utm_projection
                   (centroid (geometry row)).2 (centroid (geometry row)).1))
             <$> rows ch_shp)).
Proof.
  intros Hrows Hne. unfold add_utm_projection.
  destruct (rows ch_shp) as [|r l] eqn:Hl; [done|].
  rewrite (mapM_Ok _
             (λ row,
                Projected row
                  (Projection.get_best_utm_projection
                     (centroid (geometry row)).2 (centroid (geometry row)).1))).
  - done.
  - eapply Forall_impl; [exact Hne|]. intros row Hrow. simpl. by rewrite Hrow.
Qed.

(** [add_utm_projection] raises a ValueError on a frame without a row
    and on a frame with an empty geometry. *)
Lemma add_utm_projection_Raise (ch_shp : gdf hazard) :
  rows ch_shp = [] ∨ (∃ r, r ∈ rows ch_shp ∧ is_empty (geometry r) = true) →
  raises (add_utm_projection ch_shp) "ValueError".
Proof.
  intros [Hnil|(r & Hr & Hempty)]; unfold add_utm_projection, raises.
  - rewrite Hnil. by eexists.
  - destruct (rows ch_shp) as [|r0 l] eqn:Hl; [by apply elem_of_nil in Hr|].
    erewrite (mapM_Raise _ _ r); [by eexists|done| |by simpl; rewrite Hempty].
    intros b _. simpl. destruct (is_empty (geometry b)); [by left|right; by eexists].
Qed.

Lemma kept_prepared {K : GeoKernel} (df : gdf hazard) :
  prepares df = true →
  kept df ≠ []
  ∧ Forall (λ r, is_empty (prepared_geometry (crs df) (geometry r)) = false) (kept df).
Proof.
  unfold prepares. intros [Hkept Hall]%andb_true_iff. split.
  - apply negb_true_iff, bool_decide_eq_false in Hkept. done.
  - apply Forall_forall. intros r Hr. rewrite forallb_forall in Hall.
    apply list_elem_of_In, Hall, negb_true_iff in Hr. done.
Qed.

(** The preparation returns on a file that [prepares]: the hazards kept,
    in the order of the file, each as its prepared row, in EPSG:4326. *)
Lemma prep_geographies_Ok {K : GeoKernel} (fs : FileSystem) (path : string)
    (df : gdf hazard) :
  load_ch fs path = Ok df →
  prepares df = true →
  prep_geographies fs path
  = Ok (Gdf "EPSG:4326" (prepared_row (crs df) <$> kept df)).
Proof.
  intros Hload [Hkept Hall]%kept_prepared.
  unfold prep_geographies. rewrite Hload.
  cbn [mbind except_bind rows crs]. fold (kept df).
  rewrite add_utm_projection_Ok.
  - f_equal. unfold prepared_row, prepared_geometry.
    destruct (decide (crs df ≠ "EPSG:4326"%string)) as [Hne|Heq];
      unfold to_crs, series_to_crs; cbn [rows crs];
      rewrite <- ?list_fmap_compose;
      destruct (decide (crs df = "EPSG:4326"%string)) as [E|E]; try done.
    by rewrite E.
  - destruct (decide (crs df ≠ "EPSG:4326"%string)); unfold to_crs; cbn [rows];
      rewrite ?fmap_length; intros Hnil;
      repeat apply fmap_nil_inv in Hnil; done.
  - unfold prepared_geometry, series_to_crs in Hall.
    destruct (decide (crs df ≠ "EPSG:4326"%string)) as [Hne|Heq];
      unfold to_crs; cbn [rows crs];
      rewrite ?Forall_fmap; (eapply Forall_impl; [exact Hall|]);
      intros [] Hr; simpl in *.
    + done.
    + apply dec_stable in Heq. rewrite Heq in Hr. by rewrite decide_True in Hr.
Qed.

(** The rows that the whole preparation returns. *)
Lemma prep_data_Ok {K : GeoKernel} (fs : FileSystem) (path : string)
    (df : gdf hazard) :
  load_ch fs path = Ok df →
  prepares df = true →
  prep_data fs path
  = Ok (Gdf "EPSG:4326"
          ((λ p, Buffered p (buffered_geometry "EPSG:4326" p))
             <$> (prepared_row (crs df) <$> kept df))).
Proof.
  intros Hload Hprep. unfold prep_data.
  rewrite (prep_geographies_Ok fs path df Hload Hprep).
  done.
Qed.

(** The preparation raises a ValueError on a file without a hazard to
    keep. *)
Lemma prep_geographies_Raise {K : GeoKernel} (fs : FileSystem) (path : string)
    (df : gdf hazard) :
  load_ch fs path = Ok df →
  kept df = [] →
  raises (prep_geographies fs path) "ValueError".
Proof.
  intros Hload Hkept. unfold prep_geographies. rewrite Hload.
  cbn [mbind except_bind rows crs]. fold (kept df). rewrite Hkept.
  apply add_utm_projection_Raise. left.
  by destruct (decide (crs df ≠ "EPSG:4326"%string)).
Qed.

(** ** The Buffering Engine *)

(** C7 (as amended).  For every frame of hazards, whatever the sign of
    their distances, the Buffering Engine raises no error: it returns the
    frame with, for every row, the geometry that the kernel's planar
    buffer makes of the hazard at the row's distance. *)
Theorem add_buffered_geom_col_returns {K : GeoKernel} (ch_df : gdf projected) :
  ∃ out,
    add_buffered_geom_col ch_df = Ok out
    ∧ crs out = crs ch_df
    ∧ buffered_projected <$> rows out = rows ch_df
    ∧ buffered_hazard <$> rows out = buffered_geometry (crs ch_df) <$> rows ch_df.
Proof.
  eexists. split; [reflexivity|]. split; [done|]. cbn [rows].
  rewrite <- !list_fmap_compose. split; [|done].
  induction (rows ch_df) as [|r l IH]; [done|]. simpl. by f_equal.
Qed.

(** C7, the claim as stated, fails.  With the kernel of the examples, a
    2 x 2 square with the distance -1 is buffered to the empty geometry
    and the stage returns; no error of any class is raised. *)
Lemma add_buffered_geom_col_negative_distance :
  let row := Projected (Hazard "A" (-1) (Examples.square 0 0 2)) "EPSG:32631" in
  (buffer_dist (projected_hazard row) < 0)%Q
  ∧ add_buffered_geom_col (K := Examples.square_kernel) (Gdf "EPSG:4326" [row])
    = Ok (Gdf "EPSG:4326" [Buffered row ∅])
  ∧ ¬ raises
        (add_buffered_geom_col (K := Examples.square_kernel)
           (Gdf "EPSG:4326" [row]))
        "InvalidBufferDistance".
Proof.
  cbv zeta. split; [reflexivity|].
  assert (H : add_buffered_geom_col (K := Examples.square_kernel)
                (Gdf "EPSG:4326"
                   [Projected (Hazard "A" (-1) (Examples.square 0 0 2)) "EPSG:32631"])
              = Ok (Gdf "EPSG:4326"
                      [Buffered
                         (Projected (Hazard "A" (-1) (Examples.square 0 0 2)) "EPSG:32631")
                         ∅])).
  { by vm_compute. }
  split; [exact H|]. rewrite H. intros [msg Hmsg]. discriminate.
Qed.

(** ** The kernel of the examples is exact *)














(** On hazards that are polygons, the Buffering Engine on polygons and
    points is the Buffering Engine on polygons. *)
Lemma add_buffered_geom_col_shapes_polygonal {K : GeoKernel} {P : PointKernel}
    (ch_df : gdf projected) :
  add_buffered_geom_col_shapes (Gdf (crs ch_df) (shape_row_of <$> rows ch_df))
  = Ok (Gdf (crs ch_df)
          ((λ row, (shape_row_of row, Polygonal (buffered_geometry (crs ch_df) row)))
             <$> rows ch_df)).
Proof.
  unfold add_buffered_geom_col_shapes, mret, except_ret. cbn [rows crs].
  rewrite <- list_fmap_compose. do 2 f_equal. apply list_fmap_ext.
  intros i row _. simpl. f_equal.
  unfold shape_to_crs, buffered_geometry, series_to_crs.
  by destruct (decide (crs ch_df = utm_projection row));
    destruct (decide (utm_projection row = crs ch_df)).
Qed.


(** ** The raster stage *)

Lemma coverage_sum_zero_coverage (src : raster) (g : geom) :
  Raster.zero_coverage src g = true → Raster.coverage_sum src g = 0%Q.
Proof.
  unfold Raster.zero_coverage, Raster.coverage_sum, Raster.covered_pixels.
  rewrite forallb_forall. intros Hzero.
  rewrite (filter_none _ _); [done|].
  intros p Hp Hvalid.
  apply elem_of_elements, elem_of_map in Hp as (c & -> & Hc).
  apply elem_of_elements, list_elem_of_In, Hzero in Hc.
  apply negb_true_iff in Hc. rewrite Hc in Hvalid. done.
Qed.

Lemma exact_extract_open {K : GeoKernel} (fs : FileSystem) {A} `{Frame A}
    (raster_path : string) (ch_df : gdf A) (src : raster) :
  rasterio_open fs raster_path = Ok src →
  exact_extract fs raster_path ch_df
  = Ok ((λ r, Raster.coverage_sum src (geometry_of r)) <$> rows ch_df).
Proof. intros Hopen. unfold exact_extract. by rewrite Hopen. Qed.

Lemma raster_frame_rows {K : GeoKernel} {A} `{LawfulFrame A} (src : raster)
    (ch_df : gdf A) :
  (λ r, Raster.coverage_sum src (geometry_of r)) <$> rows (raster_frame src ch_df)
  = (λ r, Raster.coverage_sum src (in_raster_frame src (crs ch_df) (geometry_of r)))
      <$> rows ch_df.
Proof.
  unfold raster_frame, in_raster_frame.
  destruct (decide (crs ch_df ≠ src_crs src)); [|done].
  unfold to_crs. cbn [rows]. rewrite <- list_fmap_compose.
  apply list_fmap_ext. intros i r _. simpl.
  by rewrite geometry_of_with_geometry.
Qed.

Lemma raster_frame_ids {K : GeoKernel} {A} `{LawfulFrame A} (src : raster)
    (ch_df : gdf A) :
  id_of <$> rows (raster_frame src ch_df) = id_of <$> rows ch_df.
Proof.
  unfold raster_frame.
  destruct (decide (crs ch_df ≠ src_crs src)); [|done].
  unfold to_crs. cbn [rows]. rewrite <- list_fmap_compose.
  apply list_fmap_ext. intros i r _. simpl. by rewrite id_of_with_geometry.
Qed.

Lemma mask_raster_partial_pixel_open {K : GeoKernel} (fs : FileSystem)
    {A} `{Frame A} (ch_df : gdf A) (raster_path : string) (src : raster) :
  rasterio_open fs raster_path = Ok src →
  mask_raster_partial_pixel fs ch_df raster_path
  = Ok (to_crs "EPSG:4326"
          (Gdf (crs (raster_frame src ch_df))
             (zip_with Counted (rows (raster_frame src ch_df))
                ((λ r, Raster.coverage_sum src (geometry_of r))
                   <$> rows (raster_frame src ch_df))))).
Proof.
  intros Hopen. unfold mask_raster_partial_pixel. rewrite Hopen. cbn [mbind except_bind].
  fold (raster_frame src ch_df).
  by rewrite (exact_extract_open fs raster_path _ src Hopen).
Qed.

(** The identifiers and populations that the raster stage yields. *)
Lemma mask_raster_partial_pixel_counts {K : GeoKernel} (fs : FileSystem)
    {A} `{LawfulFrame A} (ch_df : gdf A) (raster_path : string) :
  (m ← mask_raster_partial_pixel fs ch_df raster_path; mret (select_counts m))
  = (src ← rasterio_open fs raster_path;
     mret ((λ r, exposure src (crs ch_df) (id_of r) (geometry_of r)) <$> rows ch_df)).
Proof.
  destruct (rasterio_open fs raster_path) as [src|e] eqn:Hopen.
  - rewrite (mask_raster_partial_pixel_open fs ch_df raster_path src Hopen).
    cbn [mbind except_bind mret except_ret]. f_equal.
    unfold raster_frame, exposure, in_raster_frame.
    destruct (decide (crs ch_df ≠ src_crs src));
      unfold select_counts, to_crs; cbn [rows crs];
      rewrite zip_with_fmap_r_same, <- !list_fmap_compose;
      apply list_fmap_ext; intros i r _; simpl;
      rewrite ?id_of_with_geometry, ?geometry_of_with_geometry; done.
  - unfold mask_raster_partial_pixel. by rewrite Hopen.
Qed.

(** C5.  When the raster opens, the raster stage returns, and a row whose
    geometry, in the frame of the raster, lies outside the extent or over
    nodata only has the population 0: a number, and no error. *)
Theorem mask_raster_partial_pixel_zero_coverage {K : GeoKernel}
    (fs : FileSystem) {A} `{LawfulFrame A} (ch_df : gdf A) (raster_path : string)
    (src : raster) (i : nat) (r : A) :
  rasterio_open fs raster_path = Ok src →
  rows ch_df !! i = Some r →
  Raster.zero_coverage src (in_raster_frame src (crs ch_df) (geometry_of r)) = true →
  ∃ out c,
    mask_raster_partial_pixel fs ch_df raster_path = Ok out
    ∧ length (rows out) = length (rows ch_df)
    ∧ rows out !! i = Some c
    ∧ num_people_affected c = 0%Q.
Proof.
  intros Hopen Hi Hzero%coverage_sum_zero_coverage.
  rewrite (mask_raster_partial_pixel_open fs ch_df raster_path src Hopen).
  unfold raster_frame, in_raster_frame in *.
  destruct (decide (crs ch_df ≠ src_crs src)); unfold to_crs; cbn [rows crs];
    rewrite zip_with_fmap_r_same, <- ?list_fmap_compose;
    eexists _, _; (split; [reflexivity|]); cbn [rows];
    rewrite ?length_fmap; (split; [done|]);
    rewrite !list_lookup_fmap, Hi; (split; [reflexivity|]); simpl;
    rewrite ?geometry_of_with_geometry; exact Hzero.
Qed.

(** An instance: a footprint that lies partly over the nodata columns of
    the patchy raster and partly west of its extent, beside one inside. *)
Lemma mask_raster_partial_pixel_zero_coverage_witness :
  ∃ out c,
    mask_raster_partial_pixel (K := Examples.square_kernel) Examples.files
      (Gdf "EPSG:4326"
         [Region "west" (Examples.square (-2) 0 4);
          Region "inside" (Examples.square 20 20 4)])
      "patchy.tif" = Ok out
    ∧ length (rows out) = 2
    ∧ rows out !! 0 = Some c
    ∧ num_people_affected c = 0%Q.
Proof.
  apply (mask_raster_partial_pixel_zero_coverage
           (K := Examples.square_kernel) Examples.files
           (Gdf "EPSG:4326"
              [Region "west" (Examples.square (-2) 0 4);
               Region "inside" (Examples.square 20 20 4)])
           "patchy.tif" Examples.patchy_raster 0
           (Region "west" (Examples.square (-2) 0 4)));
    vm_compute; reflexivity.
Defined.

(** ** The orchestrator *)


Lemma find_num_people_affected_unfold {K : GeoKernel} {O : RowOrder}
    (fs : FileSystem)
    (path raster_path : string) (by_unique_hazard : bool) (ch : gdf buffered)
    (working : gdf region) :
  prep_data fs path = Ok ch →
  (if negb by_unique_hazard then combine_overlapping_geometries (footprints ch)
   else mret (footprints ch)) = Ok working →
  find_num_people_affected fs path raster_path by_unique_hazard
  = (src ← rasterio_open fs raster_path;
     mret ((λ r, exposure src (crs working) (region_ID r) (region_geometry r))
             <$> rows working)).
Proof.
  intros Hprep Hworking.
  change (find_num_people_affected fs path raster_path by_unique_hazard)
    with (ch_df ← prep_data fs path;
          ch_df ← (if negb by_unique_hazard
                   then combine_overlapping_geometries (footprints ch_df)
                   else mret (footprints ch_df));
          m ← mask_raster_partial_pixel fs (add_bounding_box_col ch_df 0) raster_path;
          mret (select_counts m)).
  rewrite Hprep. cbn [mbind except_bind].
  rewrite Hworking. cbn [mbind except_bind].
  pose proof (mask_raster_partial_pixel_counts fs
                (add_bounding_box_col working 0) raster_path) as Hmask.
  cbn [mbind except_bind] in Hmask. rewrite Hmask.
  destruct (rasterio_open fs raster_path); [|done].
  cbv [mbind except_bind mret except_ret]. f_equal.
  unfold add_bounding_box_col. cbn [rows crs].
  rewrite <- list_fmap_compose. done.
Qed.




(** On the three squares, A and B buffered overlap: reported one by one
    they hold 64 people each, merged they hold 96, and C holds 16 either
    way (the identifier of the merged region is written in the order of
    the examples). *)
Example find_num_people_affected_double_count :
  reduced (find_num_people_affected (K := Examples.square_kernel)
             Examples.files "hazards.geojson" "pop.tif" true)
  = [("A", 64%Q); ("B", 64%Q); ("C", 16%Q)]%string
  ∧ reduced (find_num_people_affected (K := Examples.square_kernel)
               Examples.files "hazards.geojson" "pop.tif" false)
    = [("A___B", 96%Q); ("C", 16%Q)]%string.
Proof. split; by vm_compute. Qed.

(** C9.  The orchestrator with the bounding-box stage and the
    orchestrator without it return the same result, identifiers and
    populations or the same error, for every kernel, file system, paths
    and flag. *)
Theorem find_num_people_affected_bounding_box_unused {K : GeoKernel}
    {O : RowOrder} (fs : FileSystem) (path_to_hazards raster_path : string)
    (by_unique_hazard : bool) :
  find_num_people_affected fs path_to_hazards raster_path by_unique_hazard
  = find_num_people_affected_without_bounding_box
      fs path_to_hazards raster_path by_unique_hazard.
Proof.
  unfold find_num_people_affected, find_num_people_affected_without_bounding_box.
  destruct (prep_data fs path_to_hazards) as [ch|e]; [|done].
  cbn [mbind except_bind].
  match goal with
  | |- context [if negb by_unique_hazard then ?m else ?n] =>
      destruct (if negb by_unique_hazard then m else n) as [working|e]; [|done]
  end.
  cbn [mbind except_bind].
  pose proof (mask_raster_partial_pixel_counts fs
                (add_bounding_box_col working 0) raster_path) as Hboxed.
  pose proof (mask_raster_partial_pixel_counts fs working raster_path) as Hplain.
  cbn [mbind except_bind] in Hboxed, Hplain. rewrite Hboxed, Hplain.
  destruct (rasterio_open fs raster_path); [|done].
  cbv [mbind except_bind mret except_ret]. f_equal.
  unfold add_bounding_box_col. cbn [rows crs].
  by rewrite <- list_fmap_compose.
Qed.

End PipelineFacts.

(** * More on the Projection Selector *)

Module ProjectionMore.

Import Projection ProjectionFacts.

Lemma Qfloor_between (x : Q) (k : Z) :
  (inject_Z k <= x)%Q → (x < inject_Z (k + 1))%Q → Qfloor x = k.
Proof.
  intros Hlo Hhi.
  assert (H1 : (k < Qfloor x + 1)%Z).
  { rewrite Zlt_Qlt. eapply Qle_lt_trans; [exact Hlo|apply Qlt_floor]. }
  assert (H2 : (Qfloor x < k + 1)%Z).
  { rewrite Zlt_Qlt. eapply Qle_lt_trans; [apply Qfloor_le|exact Hhi]. }
  lia.
Qed.

Lemma str_of_int_inj (z z' : Z) : str_of_int z = str_of_int z' → z = z'.
Proof.
  unfold str_of_int. intros H.
  assert (Hnil : ∀ n, Z.to_int n ≠ Decimal.Pos Decimal.Nil
                      ∧ Z.to_int n ≠ Decimal.Neg Decimal.Nil).
  { intros n. split; intros Hn; pose proof (DecimalZ.of_to n) as Hof;
      rewrite Hn in Hof; simpl in Hof; subst n; discriminate. }
  apply DecimalZ.to_int_inj.
  apply (f_equal NilZero.int_of_string) in H.
  rewrite !NilZero.isi in H by apply Hnil. by injection H.
Qed.

Lemma zone_monotone (a b : Q) : (a <= b)%Q → (zone a ≤ zone b)%Z.
Proof.
  intros Hab. unfold zone.
  assert ((Qfloor ((a + 180) / 6) ≤ Qfloor ((b + 180) / 6))%Z); [|lia].
  apply Qfloor_resp_le. apply Qle_shift_div_l; [reflexivity|].
  assert (H : ((a + 180) / 6 * 6 == a + 180)%Q) by field.
  rewrite H. lra.
Qed.

(** X1.  For every latitude and every longitude that binary64 holds and
    shifts without rounding, from -180 up to, and not including, 180,
    the zone is one of 1..60 and the identifier is EPSG:326zz on and
    north of the equator and EPSG:327zz south of it. *)
Theorem get_best_utm_projection_in_range (lat lon : Q) :
  binary64_exact lon = true →
  (-180 <= lon)%Q → (lon < 180)%Q →
  (1 ≤ zone lon ≤ 60)%Z
  ∧ ((0 <= lat)%Q →
     get_best_utm_projection lat lon
     = ("EPSG:" ++ str_of_int (32600 + zone lon))%string)
  ∧ ((lat < 0)%Q →
     get_best_utm_projection lat lon
     = ("EPSG:" ++ str_of_int (32700 + zone lon))%string).
Proof.
  intros _ Hlo Hhi. split; [by apply zone_range|].
  rewrite get_best_utm_projection_formula. split; intros Hlat.
  - by rewrite (hemisphere_base_north lat Hlat).
  - by rewrite (hemisphere_base_south lat Hlat).
Qed.

(** An instance: a point of zone 31, in the north and in the south. *)
Lemma get_best_utm_projection_in_range_witness :
  (1 ≤ zone (5 # 2) ≤ 60)%Z
  ∧ ((0 <= 48)%Q →
     get_best_utm_projection 48 (5 # 2)
     = ("EPSG:" ++ str_of_int (32600 + zone (5 # 2)))%string)
  ∧ ((48 < 0)%Q →
     get_best_utm_projection 48 (5 # 2)
     = ("EPSG:" ++ str_of_int (32700 + zone (5 # 2)))%string).
Proof.
  apply (get_best_utm_projection_in_range 48 (5 # 2)); vm_compute; congruence.
Defined.

Lemma zone_between (k : Z) (lon : Q) :
  (6 * inject_Z k - 180 <= lon)%Q → (lon < 6 * inject_Z k - 174)%Q →
  zone lon = (k + 1)%Z.
Proof.
  intros Hlo Hhi. unfold zone. f_equal. apply Qfloor_between.
  - apply Qle_shift_div_l; [reflexivity|]. lra.
  - apply Qlt_shift_div_r; [reflexivity|].
    rewrite inject_Z_plus. change (inject_Z 1) with 1%Q. lra.
Qed.

(** X2.  The zones are the six-degree bands counted from -180, each with
    its western edge and without its eastern edge: at a longitude that
    binary64 holds and shifts without rounding, [r] degrees east of the
    meridian [6 k - 180] with [0 <= r < 6], the zone is [k + 1]. *)
Theorem zone_of_band (k : Z) (r : Q) :
  binary64_exact (6 * inject_Z k - 180 + r) = true →
  (0 <= r)%Q → (r < 6)%Q →
  zone (6 * inject_Z k - 180 + r) = (k + 1)%Z.
Proof.
  intros _ Hlo Hhi. apply zone_between; lra.
Qed.

(** An instance: 174 degrees east is the western edge of zone 60. *)
Lemma zone_of_band_witness : zone (6 * inject_Z 59 - 180 + 0) = (59 + 1)%Z.
Proof. apply (zone_of_band 59 0); vm_compute; congruence. Defined.

(** X3.  The selector checks no range and wraps nothing: for a longitude
    that binary64 holds and shifts without rounding, of 180 or more or
    west of -180, the zone it computes is none of 1..60, and the
    identifier is still the hemisphere base times 100 plus that zone. *)
Theorem get_best_utm_projection_unchecked (lat lon : Q) :
  binary64_exact lon = true →
  (180 <= lon)%Q ∨ (lon < -180)%Q →
  ¬ (1 ≤ zone lon ≤ 60)%Z
  ∧ get_best_utm_projection lat lon
    = ("EPSG:" ++ str_of_int (hemisphere_base lat * 100 + zone lon))%string.
Proof.
  intros _ Hout. split; [|apply get_best_utm_projection_formula].
  destruct Hout as [H|H].
  - pose proof (zone_monotone 180 lon H) as Hm.
    change (zone 180) with 61%Z in Hm. lia.
  - unfold zone.
    assert ((Qfloor ((lon + 180) / 6) < 0)%Z); [|lia].
    rewrite Zlt_Qlt. eapply Qle_lt_trans; [apply Qfloor_le|].
    apply Qlt_shift_div_r; [reflexivity|]. change (inject_Z 0) with 0%Q. lra.
Qed.

(** An instance: a longitude that was not brought back into range. *)
Lemma get_best_utm_projection_unchecked_witness :
  ¬ (1 ≤ zone 190 ≤ 60)%Z
  ∧ get_best_utm_projection 10 190
    = ("EPSG:" ++ str_of_int (hemisphere_base 10 * 100 + zone 190))%string.
Proof.
  apply (get_best_utm_projection_unchecked 10 190); [reflexivity|].
  left. vm_compute. congruence.
Defined.

(** X4.  For longitudes in [-180, 180] that binary64 holds and shifts
    without rounding, the identifier tells hemisphere and zone apart:
    two positions get the same identifier exactly when they lie on the
    same side of the equator test and in the same zone. *)
Theorem get_best_utm_projection_injective (lat lon lat' lon' : Q) :
  binary64_exact lon = true → binary64_exact lon' = true →
  (-180 <= lon)%Q → (lon <= 180)%Q → (-180 <= lon')%Q → (lon' <= 180)%Q →
  get_best_utm_projection lat lon = get_best_utm_projection lat' lon'
  ↔ hemisphere_base lat = hemisphere_base lat' ∧ zone lon = zone lon'.
Proof.
  intros _ _ Hlo Hhi Hlo' Hhi'.
  assert (Hrange : ∀ l : Q, (-180 <= l)%Q → (l <= 180)%Q → (1 ≤ zone l ≤ 61)%Z).
  { intros l Hl Hh.
    pose proof (zone_monotone (-180) l Hl) as Hm.
    pose proof (zone_monotone l 180 Hh) as Hm'.
    change (zone (-180)) with 1%Z in Hm. change (zone 180) with 61%Z in Hm'. lia. }
  pose proof (Hrange lon Hlo Hhi) as Hz. pose proof (Hrange lon' Hlo' Hhi') as Hz'.
  rewrite !get_best_utm_projection_formula. split.
  - intros Heq. simpl in Heq. injection Heq as Heq. apply str_of_int_inj in Heq.
    unfold hemisphere_base in *.
    destruct (Qle_bool 0 lat), (Qle_bool 0 lat'); split; lia.
  - intros [-> ->]. done.
Qed.

(** An instance: two positions of zone 31 in the north. *)
Lemma get_best_utm_projection_injective_witness :
  get_best_utm_projection 48 (5 # 2) = get_best_utm_projection 1 5
  ↔ hemisphere_base 48 = hemisphere_base 1 ∧ zone (5 # 2) = zone 5.
Proof.
  apply (get_best_utm_projection_injective 48 (5 # 2) 1 5);
    vm_compute; congruence.
Defined.

End ProjectionMore.

(** * The preparation of the hazards *)

Module PrepFacts.

Import Grid Projection ProjectionFacts ProjectionMore ListFacts.

(** ** The centroid lies between the cells *)

Lemma length_positive {A} (l : list A) :
  l ≠ [] → (0 < inject_Z (Z.of_nat (length l)))%Q.
Proof.
  intros Hne. change 0%Q with (inject_Z 0). rewrite <- Zlt_Qlt.
  destruct l; [done|]. simpl. lia.
Qed.

Lemma mean_lower (l : list Q) (lo : Q) :
  l ≠ [] → Forall (λ x, (lo <= x)%Q) l →
  (lo <= Qsum l / inject_Z (Z.of_nat (length l)))%Q.
Proof.
  intros Hne Hall. apply Qle_shift_div_l; [by apply length_positive|].
  clear Hne. induction Hall as [|x l Hx _ IH].
  - change (inject_Z (Z.of_nat (length (@nil Q)))) with 0%Q.
    change (Qsum []) with 0%Q. lra.
  - cbn [length Qsum foldr]. fold (Qsum l).
    rewrite Nat2Z.inj_succ, <- Z.add_1_r, inject_Z_plus.
    change (inject_Z 1) with 1%Q.
    set (n := inject_Z (Z.of_nat (length l))) in *. nra.
Qed.

Lemma mean_upper (l : list Q) (hi : Q) :
  l ≠ [] → Forall (λ x, (x <= hi)%Q) l →
  (Qsum l / inject_Z (Z.of_nat (length l)) <= hi)%Q.
Proof.
  intros Hne Hall. apply Qle_shift_div_r; [by apply length_positive|].
  clear Hne. induction Hall as [|x l Hx _ IH].
  - change (inject_Z (Z.of_nat (length (@nil Q)))) with 0%Q.
    change (Qsum []) with 0%Q. lra.
  - cbn [length Qsum foldr]. fold (Qsum l).
    rewrite Nat2Z.inj_succ, <- Z.add_1_r, inject_Z_plus.
    change (inject_Z 1) with 1%Q.
    set (n := inject_Z (Z.of_nat (length l))) in *. nra.
Qed.

Lemma centres_nonempty (g : geom) (f : cell → Q) : g ≠ ∅ → f <$> elements g ≠ [].
Proof.
  intros Hne Hnil. apply fmap_nil_inv in Hnil.
  apply elements_empty_inv in Hnil. apply leibniz_equiv in Hnil. done.
Qed.

Lemma centroid_x_lower (g : geom) (lo : Q) :
  g ≠ ∅ → (∀ c : cell, c ∈ g → (lo <= inject_Z c.1)%Q) →
  (lo + (1 # 2) <= (centroid g).1)%Q.
Proof.
  intros Hne Hall. unfold centroid. cbn [fst].
  replace (size g)
    with (length ((λ c : cell, (inject_Z c.1 + (1 # 2))%Q) <$> elements g))
    by (by rewrite length_fmap).
  apply mean_lower; [by apply centres_nonempty|].
  apply Forall_fmap, Forall_forall. intros c Hc%elem_of_elements. simpl.
  specialize (Hall c Hc). lra.
Qed.

Lemma centroid_x_upper (g : geom) (hi : Q) :
  g ≠ ∅ → (∀ c : cell, c ∈ g → (inject_Z c.1 + 1 <= hi)%Q) →
  ((centroid g).1 <= hi - (1 # 2))%Q.
Proof.
  intros Hne Hall. unfold centroid. cbn [fst].
  replace (size g)
    with (length ((λ c : cell, (inject_Z c.1 + (1 # 2))%Q) <$> elements g))
    by (by rewrite length_fmap).
  apply mean_upper; [by apply centres_nonempty|].
  apply Forall_fmap, Forall_forall. intros c Hc%elem_of_elements. simpl.
  specialize (Hall c Hc). lra.
Qed.

Lemma centroid_y_lower (g : geom) (lo : Q) :
  g ≠ ∅ → (∀ c : cell, c ∈ g → (lo <= inject_Z c.2)%Q) →
  (lo + (1 # 2) <= (centroid g).2)%Q.
Proof.
  intros Hne Hall. unfold centroid. cbn [snd].
  replace (size g)
    with (length ((λ c : cell, (inject_Z c.2 + (1 # 2))%Q) <$> elements g))
    by (by rewrite length_fmap).
  apply mean_lower; [by apply centres_nonempty|].
  apply Forall_fmap, Forall_forall. intros c Hc%elem_of_elements. simpl.
  specialize (Hall c Hc). lra.
Qed.

Lemma centroid_y_upper (g : geom) (hi : Q) :
  g ≠ ∅ → (∀ c : cell, c ∈ g → (inject_Z c.2 + 1 <= hi)%Q) →
  ((centroid g).2 <= hi - (1 # 2))%Q.
Proof.
  intros Hne Hall. unfold centroid. cbn [snd].
  replace (size g)
    with (length ((λ c : cell, (inject_Z c.2 + (1 # 2))%Q) <$> elements g))
    by (by rewrite length_fmap).
  apply mean_upper; [by apply centres_nonempty|].
  apply Forall_fmap, Forall_forall. intros c Hc%elem_of_elements. simpl.
  specialize (Hall c Hc). lra.
Qed.

Lemma forallb_elements (P : cell → bool) (g : geom) :
  forallb P (elements g) = true → ∀ c, c ∈ g → P c = true.
Proof.
  rewrite forallb_forall. intros H c Hc.
  by apply H, list_elem_of_In, elem_of_elements.
Qed.

(** The zone of the centroid of a footprint that lies in one band. *)
Lemma centroid_zone (k : Z) (g : geom) :
  g ≠ ∅ → within_band k g = true → zone (centroid g).1 = (k + 1)%Z.
Proof.
  intros Hne Hband.
  pose proof (forallb_elements _ g Hband) as Hcells.
  apply zone_between.
  - assert (H : (6 * inject_Z k - 180 + (1 # 2) <= (centroid g).1)%Q); [|lra].
    apply centroid_x_lower; [done|]. intros c Hc.
    specialize (Hcells c Hc). apply andb_true_iff in Hcells as [H1%Z.leb_le _].
    assert (H2 : (6 * k ≤ c.1 + 180)%Z) by lia.
    rewrite Zle_Qle, inject_Z_mult, inject_Z_plus in H2.
    change (inject_Z 6) with 6%Q in H2. change (inject_Z 180) with 180%Q in H2.
    lra.
  - assert (H : ((centroid g).1 <= 6 * inject_Z k - 174 - (1 # 2))%Q); [|lra].
    apply centroid_x_upper; [done|]. intros c Hc.
    specialize (Hcells c Hc). apply andb_true_iff in Hcells as [_ H1%Z.ltb_lt].
    assert (H2 : (c.1 + 1 + 174 ≤ 6 * k)%Z) by lia.
    rewrite Zle_Qle, inject_Z_mult, !inject_Z_plus in H2.
    change (inject_Z 6) with 6%Q in H2. change (inject_Z 174) with 174%Q in H2.
    change (inject_Z 1) with 1%Q in H2. lra.
Qed.

Lemma centroid_north (g : geom) :
  g ≠ ∅ → northern g = true → (0 <= (centroid g).2)%Q.
Proof.
  intros Hne Hn. pose proof (forallb_elements _ g Hn) as Hcells.
  assert (H : (0 + (1 # 2) <= (centroid g).2)%Q); [|lra].
  apply centroid_y_lower; [done|]. intros c Hc. specialize (Hcells c Hc).
  apply Z.leb_le in Hcells. change 0%Q with (inject_Z 0). rewrite <- Zle_Qle. lia.
Qed.

Lemma centroid_south (g : geom) :
  g ≠ ∅ → southern g = true → ((centroid g).2 < 0)%Q.
Proof.
  intros Hne Hs. pose proof (forallb_elements _ g Hs) as Hcells.
  assert (H : ((centroid g).2 <= 0 - (1 # 2))%Q); [|lra].
  apply centroid_y_upper; [done|]. intros c Hc. specialize (Hcells c Hc).
  apply Z.ltb_lt in Hcells. assert (H2 : (c.2 + 1 ≤ 0)%Z) by lia.
  rewrite Zle_Qle, inject_Z_plus in H2.
  change (inject_Z 1) with 1%Q in H2. change (inject_Z 0) with 0%Q in H2. lra.
Qed.

(** X5.  On a frame that holds no empty geometry, [add_utm_projection]
    returns, and a hazard whose footprint lies within one six-degree
    band, [6 k - 180] up to [6 k - 174], gets the projection of that
    band's zone, [k + 1]: EPSG:326zz when the footprint lies north of the
    equator, EPSG:327zz when it lies south of it; its other columns are
    kept. *)
Theorem add_utm_projection_band (ch_shp : gdf hazard) (i : nat) (row : hazard)
    (k : Z) :
  forallb (λ r, negb (is_empty (geometry r))) (rows ch_shp) = true →
  rows ch_shp !! i = Some row →
  within_band k (geometry row) = true →
  ∃ out p,
    add_utm_projection ch_shp = Ok out
    ∧ rows out !! i = Some p
    ∧ projected_hazard p = row
    ∧ (northern (geometry row) = true →
       utm_projection p = ("EPSG:" ++ str_of_int (32600 + (k + 1)))%string)
    ∧ (southern (geometry row) = true →
       utm_projection p = ("EPSG:" ++ str_of_int (32700 + (k + 1)))%string).
Proof.
  intros Hall Hi Hband.
  assert (Hrows : Forall (λ r, is_empty (geometry r) = false) (rows ch_shp)).
  { apply Forall_forall. intros r Hr. rewrite forallb_forall in Hall.
    apply list_elem_of_In, Hall, negb_true_iff in Hr. done. }
  assert (Hne' : geometry row ≠ ∅).
  { apply list_elem_of_lookup_2 in Hi as Hin.
    rewrite Forall_forall in Hrows. specialize (Hrows row Hin).
    unfold is_empty in Hrows. by apply bool_decide_eq_false in Hrows. }
  rewrite PipelineFacts.add_utm_projection_Ok; [|by intros Hnil; rewrite Hnil in Hi|done].
  eexists _, _. split; [reflexivity|]. cbn [rows].
  rewrite list_lookup_fmap, Hi. split; [reflexivity|].
  split; [done|]. cbn [utm_projection].
  rewrite get_best_utm_projection_formula, (centroid_zone k _ Hne' Hband).
  split; intros Hside.
  - by rewrite (hemisphere_base_north _ (centroid_north _ Hne' Hside)).
  - by rewrite (hemisphere_base_south _ (centroid_south _ Hne' Hside)).
Qed.

(** An instance: an L-shaped footprint between 0 and 6 degrees east,
    north of the equator. *)
Lemma add_utm_projection_band_witness :
  ∃ out p,
    add_utm_projection
      (Gdf "EPSG:4326" [Hazard "A" 100 {[ (1, 40)%Z; (2, 40)%Z; (2, 41)%Z ]}])
    = Ok out
    ∧ rows out !! 0%nat = Some p
    ∧ projected_hazard p = Hazard "A" 100 {[ (1, 40)%Z; (2, 40)%Z; (2, 41)%Z ]}
    ∧ (northern (geometry (Hazard "A" 100 {[ (1, 40)%Z; (2, 40)%Z; (2, 41)%Z ]})) = true →
       utm_projection p = ("EPSG:" ++ str_of_int (32600 + (30 + 1)))%string)
    ∧ (southern (geometry (Hazard "A" 100 {[ (1, 40)%Z; (2, 40)%Z; (2, 41)%Z ]})) = true →
       utm_projection p = ("EPSG:" ++ str_of_int (32700 + (30 + 1)))%string).
Proof.
  apply (add_utm_projection_band
           (Gdf "EPSG:4326"
              [Hazard "A" 100 {[ (1, 40)%Z; (2, 40)%Z; (2, 41)%Z ]}])
           0 (Hazard "A" 100 {[ (1, 40)%Z; (2, 40)%Z; (2, 41)%Z ]}) 30);
    vm_compute; reflexivity.
Defined.

(** ** The prepared frame *)

(** X6.  When the hazard file loads and holds a hazard whose geometry is
    not empty, and none that is empty once repaired and reprojected, the
    preparation returns a frame that is declared EPSG:4326, whatever the
    file declared; it holds the hazards of the file whose geometry is
    not empty, in the order of the file, and no other row; and the
    projection of each row is the selector's answer at the centroid of
    the row's geometry as the frame holds it. *)
Theorem prep_geographies_frame {K : GeoKernel} (fs : FileSystem)
    (shp_path : string) (shp_df : gdf hazard) :
  load_ch fs shp_path = Ok shp_df →
  prepares shp_df = true →
  ∃ out,
    prep_geographies fs shp_path = Ok out
    ∧ crs out = "EPSG:4326"%string
    ∧ (λ p, ID_climate_hazard (projected_hazard p)) <$> rows out
      = ID_climate_hazard
          <$> filter (λ r, is_empty (geometry r) = false) (rows shp_df)
    ∧ (λ p, buffer_dist (projected_hazard p)) <$> rows out
      = buffer_dist
          <$> filter (λ r, is_empty (geometry r) = false) (rows shp_df)
    ∧ Forall
        (λ p, utm_projection p
              = get_best_utm_projection
                  (centroid (geometry (projected_hazard p))).2
                  (centroid (geometry (projected_hazard p))).1)
        (rows out).
Proof.
  intros Hload Hprep.
  rewrite (PipelineFacts.prep_geographies_Ok fs shp_path shp_df Hload Hprep).
  eexists. split; [reflexivity|]. split; [done|]. cbn [rows]. fold (kept shp_df).
  rewrite <- !list_fmap_compose.
  split; [by apply list_fmap_ext; intros i [] _|].
  split; [by apply list_fmap_ext; intros i [] _|].
  apply Forall_fmap, Forall_forall. done.
Qed.

(** An instance: the file of the three squares. *)
Lemma prep_geographies_frame_witness :
  ∃ out,
    prep_geographies (K := Examples.square_kernel) Examples.files
      "hazards.geojson" = Ok out
    ∧ crs out = "EPSG:4326"%string
    ∧ (λ p, ID_climate_hazard (projected_hazard p)) <$> rows out
      = ID_climate_hazard
          <$> filter (λ r, is_empty (geometry r) = false)
                (rows Examples.three_squares)
    ∧ (λ p, buffer_dist (projected_hazard p)) <$> rows out
      = buffer_dist
          <$> filter (λ r, is_empty (geometry r) = false)
                (rows Examples.three_squares)
    ∧ Forall
        (λ p, utm_projection p
              = get_best_utm_projection
                  (centroid (geometry (projected_hazard p))).2
                  (centroid (geometry (projected_hazard p))).1)
        (rows out).
Proof.
  apply (prep_geographies_frame (K := Examples.square_kernel) Examples.files
           "hazards.geojson" Examples.three_squares);
    reflexivity.
Defined.

End PrepFacts.

(** * The regions of the Overlap Merger, for every input

    The statements are about inputs that hold a geometry
    ([populated]), the inputs the merger is written for. *)

Module MergerMore.

Import Grid Conn ListFacts GridFacts MergerFacts.

(** ** Parts of a geometry *)

(** A path inside [g] that starts in a part of [g] stays in the part. *)
Lemma conn_in_part (g p : geom) x y :
  is_part g p → x ∈ p → conn g x y → conn p x y.
Proof.
  intros Hp Hx Hxy. revert Hx.
  induction Hxy as [x|x z y [Hadj Hz] Hzy IH]; intros Hx; [constructor|].
  destruct Hp as (Hne & Hsub & Hconn).
  assert (Hzp : z ∈ p).
  { apply (Hconn x Hx). apply rtc_once. by split. }
  eapply rtc_l; [by split|]. by apply IH.
Qed.

Lemma is_part_self (g p : geom) : is_part g p → is_part p p.
Proof.
  intros Hp. pose proof Hp as (Hne & Hsub & Hconn).
  split; [done|]. split; [done|]. intros x Hx y. split.
  - intros Hy. apply (conn_in_part g); [done..|]. by apply (Hconn x Hx).
  - intros Hxy. apply (Hconn x Hx). by apply (conn_mono p g).
Qed.

Lemma is_part_get_parts (p : geom) : is_part p p → get_parts p = [p].
Proof.
  intros Hp.
  assert (Hall : ∀ q, q ∈ get_parts p → q = p).
  { intros q Hq%elem_of_get_parts. pose proof Hq as (Hne & Hsub & _).
    apply set_choose_L in Hne as [x Hx].
    apply (is_part_unique p q p x); auto. }
  assert (Hin : p ∈ get_parts p) by by apply elem_of_get_parts.
  pose proof (NoDup_get_parts p) as Hnd.
  destruct (get_parts p) as [|a [|b l]].
  - by apply elem_of_nil in Hin.
  - by rewrite (Hall a) by left.
  - exfalso. apply NoDup_cons in Hnd as [Hab _]. apply Hab.
    rewrite (Hall a), (Hall b); [left|right; left|left].
Qed.

Lemma is_part_single_part (g p : geom) : is_part g p → single_part p = true.
Proof.
  intros Hp. unfold single_part. apply bool_decide_eq_true.
  by apply is_part_get_parts, (is_part_self g).
Qed.

(** Two parts of a geometry share no cell and no edge. *)
Lemma is_part_not_joined (g p q : geom) :
  is_part g p → is_part g q → p ≠ q → joined p q = false.
Proof.
  intros Hp Hq Hpq. apply not_true_is_false. intros Hj.
  apply joined_spec in Hj as (x & y & Hx & Hy & Hxy).
  pose proof (is_part_disjoint g p q Hp Hq Hpq) as Hdisj.
  destruct Hxy as [->|Hadj]; [by apply (Hdisj y)|].
  apply (Hdisj y); [|done].
  destruct Hp as (_ & _ & Hconn), Hq as (_ & Hsub & _).
  apply (Hconn x Hx). apply rtc_once. split; [done|]. by apply Hsub.
Qed.

Lemma union_list_Permutation (gs hs : list geom) : gs ≡ₚ hs → ⋃ gs = ⋃ hs.
Proof.
  intros Hp. apply set_eq. intros x. rewrite !elem_of_union_list.
  by setoid_rewrite Hp.
Qed.

(** ** The geometries of the output *)

(** The geometries of the output are the parts of the union of the
    geometries of the input. *)
Lemma merged_geometries {O : RowOrder} (ch_df out : gdf region) :
  combine_overlapping_geometries ch_df = Ok out →
  region_geometry <$> rows out
  ≡ₚ get_parts (unary_union (region_geometry <$> rows ch_df)).
Proof.
  intros Hout.
  destruct (combine_overlapping_geometries_rows ch_df) as (out' & Hout' & _ & Hrows).
  rewrite Hout in Hout'. injection Hout' as <-.
  rewrite Hrows, <- list_fmap_compose, explode_union.
  erewrite list_fmap_ext; [by rewrite list_fmap_id|]. by intros i l _.
Qed.

Lemma merged_returns {O : RowOrder} (ch_df : gdf region) :
  ∃ out, combine_overlapping_geometries ch_df = Ok out ∧ crs out = crs ch_df.
Proof.
  destruct (combine_overlapping_geometries_rows ch_df) as (out & Hout & Hcrs & _).
  eauto.
Qed.

(** X7.  For every input that holds a geometry, the regions of the output
    are pairwise disjoint, they cover the union of the input geometries
    and no more, and their areas add up to the area of that union: no
    place is counted twice and none is left out. *)
Theorem combine_overlapping_geometries_covers_once {O : RowOrder}
    (ch_df : gdf region) :
  populated ch_df = true →
  ∃ out,
    combine_overlapping_geometries ch_df = Ok out
    ∧ (∀ i j r r', i ≠ j → rows out !! i = Some r → rows out !! j = Some r' →
         region_geometry r ## region_geometry r')
    ∧ unary_union (region_geometry <$> rows out)
      = unary_union (region_geometry <$> rows ch_df)
    ∧ total_area (region_geometry <$> rows out)
      = area (unary_union (region_geometry <$> rows ch_df)).
Proof. intros _. apply combine_overlapping_geometries_partition. Qed.

Lemma combine_overlapping_geometries_covers_once_witness :
  ∃ out,
    combine_overlapping_geometries Examples_overlapping = Ok out
    ∧ (∀ i j r r', i ≠ j → rows out !! i = Some r → rows out !! j = Some r' →
         region_geometry r ## region_geometry r')
    ∧ unary_union (region_geometry <$> rows out)
      = unary_union (region_geometry <$> rows Examples_overlapping)
    ∧ total_area (region_geometry <$> rows out)
      = area (unary_union (region_geometry <$> rows Examples_overlapping)).
Proof.
  apply (combine_overlapping_geometries_covers_once Examples_overlapping).
  vm_compute. reflexivity.
Defined.

(** X8.  For every input that holds a geometry the merger returns, in the
    frame of the input, one row for each maximal connected piece of the
    union of the input geometries: a geometry is the geometry of a row if
    and only if it is such a piece, and no two rows have the same
    geometry.  The TypeError of a missing identifier is not raised. *)
Theorem combine_overlapping_geometries_components {O : RowOrder}
    (ch_df : gdf region) :
  populated ch_df = true →
  ∃ out,
    combine_overlapping_geometries ch_df = Ok out
    ∧ crs out = crs ch_df
    ∧ NoDup (region_geometry <$> rows out)
    ∧ ∀ p, p ∈ region_geometry <$> rows out
           ↔ is_part (unary_union (region_geometry <$> rows ch_df)) p.
Proof.
  intros _.
  destruct (merged_returns ch_df) as (out & Hout & Hcrs).
  pose proof (merged_geometries ch_df out Hout) as Hgeoms.
  exists out. split; [done|]. split; [done|]. split.
  - rewrite Hgeoms. apply NoDup_get_parts.
  - intros p. rewrite Hgeoms. apply elem_of_get_parts.
Qed.

Lemma combine_overlapping_geometries_components_witness :
  ∃ out,
    combine_overlapping_geometries Examples_overlapping = Ok out
    ∧ crs out = crs Examples_overlapping
    ∧ NoDup (region_geometry <$> rows out)
    ∧ ∀ p, p ∈ region_geometry <$> rows out
           ↔ is_part
               (unary_union (region_geometry <$> rows Examples_overlapping)) p.
Proof.
  apply (combine_overlapping_geometries_components Examples_overlapping).
  vm_compute. reflexivity.
Defined.

(** X9.  For every input that holds a geometry, each region of the output
    is of one part, and two regions of the output share no cell and no
    edge, so that their union is not in one piece: the regions cannot be
    merged further. *)
Theorem combine_overlapping_geometries_regions_apart {O : RowOrder}
    (ch_df : gdf region) :
  populated ch_df = true →
  ∃ out,
    combine_overlapping_geometries ch_df = Ok out
    ∧ Forall (λ r, single_part (region_geometry r) = true) (rows out)
    ∧ ∀ i j r r', i ≠ j → rows out !! i = Some r → rows out !! j = Some r' →
        joined (region_geometry r) (region_geometry r') = false.
Proof.
  intros _.
  destruct (merged_returns ch_df) as (out & Hout & _).
  pose proof (merged_geometries ch_df out Hout) as Hgeoms.
  set (u := unary_union (region_geometry <$> rows ch_df)) in *.
  assert (Hpart : ∀ r, r ∈ rows out → is_part u (region_geometry r)).
  { intros r Hr. apply elem_of_get_parts. rewrite <- Hgeoms.
    apply list_elem_of_fmap. eauto. }
  exists out. split; [done|]. split.
  - apply Forall_forall. intros r Hr. apply (is_part_single_part u). auto.
  - intros i j r r' Hij Hi Hj.
    apply (is_part_not_joined u).
    + apply Hpart, list_elem_of_lookup. eauto.
    + apply Hpart, list_elem_of_lookup. eauto.
    + intros Heq. apply Hij.
      assert (Hnd : NoDup (region_geometry <$> rows out))
        by (rewrite Hgeoms; apply NoDup_get_parts).
      apply (NoDup_lookup _ i j (region_geometry r) Hnd);
        rewrite list_lookup_fmap; [by rewrite Hi|by rewrite Hj, Heq].
Qed.

Lemma combine_overlapping_geometries_regions_apart_witness :
  ∃ out,
    combine_overlapping_geometries Examples_overlapping = Ok out
    ∧ Forall (λ r, single_part (region_geometry r) = true) (rows out)
    ∧ ∀ i j r r', i ≠ j → rows out !! i = Some r → rows out !! j = Some r' →
        joined (region_geometry r) (region_geometry r') = false.
Proof.
  apply (combine_overlapping_geometries_regions_apart Examples_overlapping).
  vm_compute. reflexivity.
Defined.

(** X10.  The merger run on its own output returns the same geometries,
    up to the order of the rows, in the same frame: it is on the
    identifiers only that a second run can differ. *)
Theorem combine_overlapping_geometries_geometries_stable {O : RowOrder}
    (ch_df : gdf region) :
  populated ch_df = true →
  ∃ out out2,
    combine_overlapping_geometries ch_df = Ok out
    ∧ combine_overlapping_geometries out = Ok out2
    ∧ crs out2 = crs ch_df
    ∧ region_geometry <$> rows out2 ≡ₚ region_geometry <$> rows out.
Proof.
  intros _.
  destruct (merged_returns ch_df) as (out & Hout & Hcrs).
  destruct (merged_returns out) as (out2 & Hout2 & Hcrs2).
  pose proof (merged_geometries ch_df out Hout) as Hgeoms.
  pose proof (merged_geometries out out2 Hout2) as Hgeoms2.
  exists out, out2. split; [done|]. split; [done|].
  split; [congruence|].
  rewrite Hgeoms2. unfold unary_union at 1.
  by rewrite (union_list_Permutation _ _ Hgeoms), union_get_parts.
Qed.

Lemma combine_overlapping_geometries_geometries_stable_witness :
  ∃ out out2,
    combine_overlapping_geometries Examples_overlapping = Ok out
    ∧ combine_overlapping_geometries out = Ok out2
    ∧ crs out2 = crs Examples_overlapping
    ∧ region_geometry <$> rows out2 ≡ₚ region_geometry <$> rows out.
Proof.
  apply (combine_overlapping_geometries_geometries_stable Examples_overlapping).
  vm_compute. reflexivity.
Defined.

(** X11.  The geometries of the output depend on the union of the input
    geometries only: two inputs with the same union, whatever their rows,
    their order, their identifiers and their frames, give the same
    geometries up to the order of the rows. *)
Theorem combine_overlapping_geometries_union_only {O : RowOrder}
    (ch_df ch_df' : gdf region) :
  populated ch_df = true →
  unary_union (region_geometry <$> rows ch_df)
  = unary_union (region_geometry <$> rows ch_df') →
  ∃ out out',
    combine_overlapping_geometries ch_df = Ok out
    ∧ combine_overlapping_geometries ch_df' = Ok out'
    ∧ region_geometry <$> rows out ≡ₚ region_geometry <$> rows out'.
Proof.
  intros _ Hu.
  destruct (merged_returns ch_df) as (out & Hout & _).
  destruct (merged_returns ch_df') as (out' & Hout' & _).
  exists out, out'. split; [done|]. split; [done|].
  by rewrite (merged_geometries _ _ Hout), (merged_geometries _ _ Hout'), Hu.
Qed.

(** An instance: the three squares against one row that holds all
    three. *)
Lemma combine_overlapping_geometries_union_only_witness :
  ∃ out out',
    combine_overlapping_geometries Examples_overlapping = Ok out
    ∧ combine_overlapping_geometries
        (Gdf "EPSG:3857"
           [Region "Z"
              (Examples.square 6 6 1 ∪ Examples.square 1 1 2
               ∪ Examples.square 0 0 2)]) = Ok out'
    ∧ region_geometry <$> rows out ≡ₚ region_geometry <$> rows out'.
Proof.
  apply (combine_overlapping_geometries_union_only Examples_overlapping
           (Gdf "EPSG:3857"
              [Region "Z"
                 (Examples.square 6 6 1 ∪ Examples.square 1 1 2
                  ∪ Examples.square 0 0 2)])).
  - vm_compute. reflexivity.
  - vm_compute. reflexivity.
Defined.

(** ** The identifiers of the output *)

(** X12.  No hazard is lost and none is invented.  The identifier of a
    region of the output is the join, by the separator, of a list of
    identifiers; an identifier is in the list exactly when it is the
    identifier of an input row one of whose parts shares a point with the
    region.  And every cell of an input row lies in a region of the
    output whose list holds the identifier of that row. *)
Theorem combine_overlapping_geometries_provenance {O : RowOrder}
    (ch_df : gdf region) :
  populated ch_df = true →
  ∃ out,
    combine_overlapping_geometries ch_df = Ok out
    ∧ (∀ r, r ∈ rows out →
         ∃ ids,
           region_ID r = String.concat "___" ids
           ∧ ∀ ident, ident ∈ ids ↔
               ∃ r0 p, r0 ∈ rows ch_df ∧ region_ID r0 = ident
                       ∧ is_part (region_geometry r0) p
                       ∧ intersects (region_geometry r) p = true)
    ∧ (∀ r0 x, r0 ∈ rows ch_df → x ∈ region_geometry r0 →
         ∃ r ids,
           r ∈ rows out ∧ x ∈ region_geometry r
           ∧ region_ID r = String.concat "___" ids
           ∧ region_ID r0 ∈ ids).
Proof.
  intros _.
  destruct (combine_overlapping_geometries_rows ch_df) as (out & Hout & _ & Hrows).
  set (right := explode (rows ch_df)) in *.
  set (u := unary_union (region_geometry <$> right)) in *.
  exists out. split; [done|]. split.
  - intros r Hr. rewrite Hrows in Hr.
    apply list_elem_of_fmap in Hr as (l & -> & Hl).
    exists (matches l right). split; [done|]. intros ident.
    unfold matches. cbn [merged_row region_geometry].
    rewrite list_elem_of_fmap. split.
    + intros (r1 & -> & Hr1). apply elem_of_sindex_query in Hr1 as [Hint Hr1].
      apply explode_geometries in Hr1 as (r0 & Hr0 & Hid & Hp).
      exists r0, (region_geometry r1). split; [done|]. split; [done|].
      split; [by apply elem_of_get_parts|done].
    + intros (r0 & p & Hr0 & <- & Hp & Hint).
      exists (Region (region_ID r0) p). split; [done|].
      apply elem_of_sindex_query. split; [done|].
      apply explode_geometries. exists r0. split; [done|]. split; [done|].
      by apply elem_of_get_parts.
  - intros r0 x Hr0 Hx.
    destruct (get_parts_cover _ x Hx) as (p & Hp & Hxp).
    assert (Hr1 : Region (region_ID r0) p ∈ right).
    { apply explode_geometries. exists r0. done. }
    assert (Hxu : x ∈ u).
    { apply elem_of_union_list. exists p. split; [|done].
      apply list_elem_of_fmap. by exists (Region (region_ID r0) p). }
    destruct (get_parts_cover u x Hxu) as (l & Hl & Hxl).
    exists (merged_row right l), (matches l right).
    split; [rewrite Hrows; apply list_elem_of_fmap; eauto|].
    split; [done|]. split; [done|].
    unfold matches. apply list_elem_of_fmap.
    exists (Region (region_ID r0) p). split; [done|].
    apply elem_of_sindex_query. split; [|done].
    apply intersects_spec. exists x, x.
    auto using cells_meet_refl.
Qed.

Lemma combine_overlapping_geometries_provenance_witness :
  ∃ out,
    combine_overlapping_geometries Examples_overlapping = Ok out
    ∧ (∀ r, r ∈ rows out →
         ∃ ids,
           region_ID r = String.concat "___" ids
           ∧ ∀ ident, ident ∈ ids ↔
               ∃ r0 p, r0 ∈ rows Examples_overlapping ∧ region_ID r0 = ident
                       ∧ is_part (region_geometry r0) p
                       ∧ intersects (region_geometry r) p = true)
    ∧ (∀ r0 x, r0 ∈ rows Examples_overlapping → x ∈ region_geometry r0 →
         ∃ r ids,
           r ∈ rows out ∧ x ∈ region_geometry r
           ∧ region_ID r = String.concat "___" ids
           ∧ region_ID r0 ∈ ids).
Proof.
  apply (combine_overlapping_geometries_provenance Examples_overlapping).
  vm_compute. reflexivity.
Defined.

End MergerMore.

(** * The loader by extension and the bounding boxes *)

Module StageFacts.

Import Grid Conn ListFacts GridFacts PipelineFacts.

Local Open Scope string_scope.

(** ** Names and extensions *)

Lemma split_on_nonempty (sep : ascii) (s : string) : PathLib.split_on sep s ≠ [].
Proof.
  induction s as [|c s IH]; [done|]. cbn [PathLib.split_on].
  destruct (Ascii.eqb c sep); [done|].
  by destruct (PathLib.split_on sep s).
Qed.

Lemma split_on_app (sep : ascii) (d s : string) :
  PathLib.split_on sep (d ++ String sep s)
  = (PathLib.split_on sep d ++ PathLib.split_on sep s)%list.
Proof.
  induction d as [|c d IH].
  - change ("" ++ String sep s) with (String sep s).
    cbn [PathLib.split_on]. by rewrite Ascii.eqb_refl.
  - change (String c d ++ String sep s) with (String c (d ++ String sep s)).
    cbn [PathLib.split_on]. rewrite IH.
    destruct (Ascii.eqb c sep); [done|].
    pose proof (split_on_nonempty sep d).
    by destruct (PathLib.split_on sep d).
Qed.

Lemma split_on_plain (sep : ascii) (s : string) :
  forallb (λ c, negb (Ascii.eqb c sep)) (list_ascii_of_string s) = true →
  PathLib.split_on sep s = [s].
Proof.
  induction s as [|c s IH]; [done|]. cbn [list_ascii_of_string forallb].
  intros [Hc Hs]%andb_true_iff. cbn [PathLib.split_on].
  apply negb_true_iff in Hc. by rewrite Hc, IH.
Qed.

Lemma last_snoc {A} (l : list A) (x d : A) : List.last (l ++ [x])%list d = x.
Proof. induction l as [|y [|z l] IH]; done. Qed.

(** The final component of a path written as a directory part and a
    name. *)
Lemma name_in_directory (dir : option string) (base : string) :
  forallb (λ c, negb (Ascii.eqb c "/")) (list_ascii_of_string base) = true →
  base ≠ "" → base ≠ "." →
  PathLib.name (PathLib.mk_path (in_directory dir ++ base)) = base.
Proof.
  intros Hplain Hne Hdot. unfold PathLib.name, PathLib.mk_path.
  cbn [PathLib.tail].
  assert (Hsplit : ∃ l, PathLib.split_on "/" (in_directory dir ++ base)
                        = (l ++ [base])%list).
  { destruct dir as [d|]; cbn [in_directory].
    - exists (PathLib.split_on "/" d).
      replace ((d ++ "/") ++ base) with (d ++ String "/" base).
      + by rewrite split_on_app, (split_on_plain _ base).
      + clear. induction d as [|c d IH]; [done|].
        change (String c (d ++ String "/" base) = String c ((d ++ "/") ++ base)).
        by rewrite IH.
    - exists []. by rewrite (split_on_plain _ base). }
  destruct Hsplit as [l ->].
  rewrite filter_app, filter_cons_True, filter_nil by done.
  apply last_snoc.
Qed.

Lemma forallb_app_string (P : ascii → bool) (s t : string) :
  forallb P (list_ascii_of_string (s ++ t))
  = forallb P (list_ascii_of_string s) && forallb P (list_ascii_of_string t).
Proof.
  induction s as [|c s IH]; [done|].
  change (String c s ++ t) with (String c (s ++ t)).
  cbn [list_ascii_of_string forallb]. by rewrite IH, andb_assoc.
Qed.

Lemma rfind_app (ch : ascii) (s t : string) :
  PathLib.rfind ch t = None →
  PathLib.rfind ch (s ++ String ch t) = Some (String.length s).
Proof.
  intros Ht. induction s as [|c s IH].
  - change ("" ++ String ch t) with (String ch t).
    cbn [PathLib.rfind String.length]. by rewrite Ht, Ascii.eqb_refl.
  - change (String c s ++ String ch t) with (String c (s ++ String ch t)).
    cbn [PathLib.rfind String.length]. by rewrite IH.
Qed.

Lemma length_app_string (s t : string) :
  String.length (s ++ t) = (String.length s + String.length t)%nat.
Proof.
  induction s as [|c s IH]; [done|].
  change (String c s ++ t) with (String c (s ++ t)).
  cbn [String.length]. by rewrite IH.
Qed.

Lemma substring_all (t : string) : substring 0 (String.length t) t = t.
Proof. induction t as [|c t IH]; [done|]. cbn. by rewrite IH. Qed.

Lemma substring_app (s t : string) (n : nat) :
  substring (String.length s) n (s ++ t) = substring 0 n t.
Proof.
  induction s as [|c s IH]; [done|].
  change (String c s ++ t) with (String c (s ++ t)).
  cbn [String.length substring]. by rewrite IH.
Qed.

(** The suffix of a name that ends in a dot and an extension without a
    dot, after a stem that is not empty. *)
Lemma suffix_of_name (p : PathLib.Path) (stem ext : string) :
  PathLib.name p = stem ++ String "." ext →
  stem ≠ "" → ext ≠ "" → PathLib.rfind "." ext = None →
  PathLib.suffix p = String "." ext.
Proof.
  intros Hname Hstem Hext Hdot. unfold PathLib.suffix.
  rewrite Hname, (rfind_app _ _ _ Hdot), length_app_string.
  assert (H1 : (0 < String.length stem)%nat) by (destruct stem; [done|cbn; lia]).
  assert (H2 : (0 < String.length ext)%nat) by (destruct ext; [done|cbn; lia]).
  cbn [String.length].
  replace (0 <? String.length stem)%nat with true
    by (symmetry; apply Nat.ltb_lt; lia).
  replace (String.length stem <? String.length stem + S (String.length ext) - 1)%nat
    with true by (symmetry; apply Nat.ltb_lt; lia).
  cbn [andb].
  replace (String.length stem + S (String.length ext) - String.length stem)%nat
    with (String.length (String "." ext)) by (cbn; lia).
  by rewrite substring_app, substring_all.
Qed.

Lemma plain_name_spec (stem : string) :
  plain_name stem = true →
  stem ≠ "" ∧ PathLib.starts_with "." stem = false
  ∧ forallb (λ c, negb (Ascii.eqb c "/")) (list_ascii_of_string stem) = true.
Proof.
  unfold plain_name. intros [[H1 H2]%andb_true_iff H3]%andb_true_iff.
  apply negb_true_iff in H1, H2. apply String.eqb_neq in H1. done.
Qed.

Lemma suffix_in_directory (dir : option string) (stem ext : string) :
  plain_name stem = true →
  forallb (λ c, negb (Ascii.eqb c "/")) (list_ascii_of_string ext) = true →
  ext ≠ "" → PathLib.rfind "." ext = None →
  PathLib.suffix (PathLib.mk_path (in_directory dir ++ stem ++ String "." ext))
  = String "." ext.
Proof.
  intros (Hne & Hdot & Hplain)%plain_name_spec Hext Hext' Hrfind.
  apply (suffix_of_name _ stem ext); [|done..].
  apply name_in_directory.
  - rewrite forallb_app_string, Hplain. cbn [list_ascii_of_string forallb].
    by rewrite Hext.
  - by destruct stem.
  - destruct stem as [|c stem]; [done|]. intros [= -> Hrest].
    by destruct stem.
Qed.

(** X13.  A file whose name is a stem, a dot and the extension [geojson]
    is read by the reader of GeoJSON, and with the extension [parquet] by
    the reader of Parquet, in any directory or in none; the result of the
    reader, frame or error, is the result of the loader.  A file whose
    whole name is [.geojson] or [.parquet] has no suffix: the loader
    raises the error of the unsupported file type and calls no reader. *)
Theorem load_ch_by_extension (fs : FileSystem)
    (dir : option string) (stem : string) :
  plain_name stem = true →
  load_ch fs (in_directory dir ++ stem ++ ".geojson")
  = read_file fs (PathLib.mk_path (in_directory dir ++ stem ++ ".geojson"))
  ∧ load_ch fs (in_directory dir ++ stem ++ ".parquet")
    = read_parquet fs (PathLib.mk_path (in_directory dir ++ stem ++ ".parquet"))
  ∧ raises (load_ch fs (in_directory dir ++ ".geojson")) "FileNotFoundError"
  ∧ raises (load_ch fs (in_directory dir ++ ".parquet")) "FileNotFoundError".
Proof.
  intros Hstem. split; [|split; [|split]].
  - unfold load_ch.
    by rewrite (suffix_in_directory dir stem "geojson" Hstem).
  - unfold load_ch.
    by rewrite (suffix_in_directory dir stem "parquet" Hstem).
  - unfold load_ch, PathLib.suffix.
    rewrite (name_in_directory dir ".geojson") by done. cbn. by eexists.
  - unfold load_ch, PathLib.suffix.
    rewrite (name_in_directory dir ".parquet") by done. cbn. by eexists.
Qed.

(** An instance: the hazards of the examples in a directory. *)
Lemma load_ch_by_extension_witness :
  load_ch Examples.files "data/fires.v2.geojson"
  = read_file Examples.files (PathLib.mk_path "data/fires.v2.geojson")
  ∧ load_ch Examples.files "data/fires.v2.parquet"
    = read_parquet Examples.files (PathLib.mk_path "data/fires.v2.parquet")
  ∧ raises (load_ch Examples.files "data/.geojson")
      "FileNotFoundError"
  ∧ raises (load_ch Examples.files "data/.parquet")
      "FileNotFoundError".
Proof.
  apply (load_ch_by_extension Examples.files (Some "data") "fires.v2").
  reflexivity.
Defined.

Local Close Scope string_scope.

(** ** The bounding rectangle *)

Lemma foldr_min_le (d : Z) (l : list Z) x : x ∈ l → (foldr Z.min d l ≤ x)%Z.
Proof.
  induction 1 as [x l|x y l _ IH]; cbn [foldr]; lia.
Qed.

Lemma foldr_max_ge (d : Z) (l : list Z) x : x ∈ l → (x ≤ foldr Z.max d l)%Z.
Proof.
  induction 1 as [x l|x y l _ IH]; cbn [foldr]; lia.
Qed.

Lemma foldr_min_elem (d : Z) (l : list Z) : foldr Z.min d l ∈ d :: l.
Proof.
  induction l as [|x l IH]; cbn [foldr]; [left|].
  destruct (Z.min_spec x (foldr Z.min d l)) as [[_ ->]|[_ ->]].
  - right; left.
  - apply elem_of_cons in IH as [->|IH]; [left|by do 2 right].
Qed.

Lemma foldr_max_elem (d : Z) (l : list Z) : foldr Z.max d l ∈ d :: l.
Proof.
  induction l as [|x l IH]; cbn [foldr]; [left|].
  destruct (Z.max_spec x (foldr Z.max d l)) as [[_ ->]|[_ ->]].
  - apply elem_of_cons in IH as [->|IH]; [left|by do 2 right].
  - right; left.
Qed.

Lemma minimum_elem (l : list Z) : l ≠ [] → minimum l ∈ l.
Proof.
  intros Hne. unfold minimum. destruct l as [|x l]; [done|].
  pose proof (foldr_min_elem x (x :: l)) as H. cbn [hd].
  apply elem_of_cons in H as [->|H]; [left|done].
Qed.

Lemma maximum_elem (l : list Z) : l ≠ [] → maximum l ∈ l.
Proof.
  intros Hne. unfold maximum. destruct l as [|x l]; [done|].
  pose proof (foldr_max_elem x (x :: l)) as H. cbn [hd].
  apply elem_of_cons in H as [->|H]; [left|done].
Qed.

Lemma elem_of_envelope (g : geom) (c : cell) :
  c ∈ envelope g ↔
  g ≠ ∅
  ∧ (minimum (elements g).*1 ≤ c.1 ≤ maximum (elements g).*1)%Z
  ∧ (minimum (elements g).*2 ≤ c.2 ≤ maximum (elements g).*2)%Z.
Proof.
  unfold envelope, is_empty. case_bool_decide as Hg.
  - split; [by intros ?%not_elem_of_empty|]. by intros [? _].
  - rewrite elem_of_list_to_set, list_elem_of_bind. split.
    + intros (x & (y & ->%list_elem_of_singleton & Hy)%list_elem_of_bind & Hx).
      apply elem_of_seqZ in Hx, Hy. cbn [fst snd]. split; [done|]. lia.
    + intros (_ & Hx & Hy). exists c.1. split.
      * apply list_elem_of_bind. exists c.2. split.
        -- destruct c. apply list_elem_of_singleton. done.
        -- apply elem_of_seqZ. lia.
      * apply elem_of_seqZ. lia.
Qed.

(** A geometry lies in its bounding rectangle, and the rectangle reaches
    no further than the geometry does in any of the four directions. *)
Lemma envelope_tight (g : geom) :
  g ⊆ envelope g
  ∧ ∀ c, c ∈ envelope g →
      ∃ w e s n, w ∈ g ∧ e ∈ g ∧ s ∈ g ∧ n ∈ g
                 ∧ (w.1 ≤ c.1 ≤ e.1)%Z ∧ (s.2 ≤ c.2 ≤ n.2)%Z.
Proof.
  split.
  - intros c Hc. apply elem_of_envelope.
    assert (H1 : c.1 ∈ (elements g).*1).
    { apply list_elem_of_fmap. exists c. by rewrite elem_of_elements. }
    assert (H2 : c.2 ∈ (elements g).*2).
    { apply list_elem_of_fmap. exists c. by rewrite elem_of_elements. }
    split; [set_solver|]. unfold minimum, maximum.
    pose proof (foldr_min_le (hd 0%Z (elements g).*1) _ _ H1).
    pose proof (foldr_max_ge (hd 0%Z (elements g).*1) _ _ H1).
    pose proof (foldr_min_le (hd 0%Z (elements g).*2) _ _ H2).
    pose proof (foldr_max_ge (hd 0%Z (elements g).*2) _ _ H2).
    lia.
  - intros c (Hne & Hx & Hy)%elem_of_envelope.
    assert (Hxs : (elements g).*1 ≠ []).
    { intros H%fmap_nil_inv%elements_empty_inv%leibniz_equiv. done. }
    assert (Hys : (elements g).*2 ≠ []).
    { intros H%fmap_nil_inv%elements_empty_inv%leibniz_equiv. done. }
    pose proof (minimum_elem _ Hxs) as (w & Hw & Hwg%elem_of_elements)%list_elem_of_fmap.
    pose proof (maximum_elem _ Hxs) as (e & He & Heg%elem_of_elements)%list_elem_of_fmap.
    pose proof (minimum_elem _ Hys) as (s & Hs & Hsg%elem_of_elements)%list_elem_of_fmap.
    pose proof (maximum_elem _ Hys) as (n & Hn & Hng%elem_of_elements)%list_elem_of_fmap.
    exists w, e, s, n. repeat (split; [done|]). lia.
Qed.

(** X14.  With a kernel for which buffering by zero changes nothing, the
    bounding-box stage at its default margin keeps the rows and their
    frame, and gives every row a box that contains the geometry of the
    row and reaches no further than the geometry does to the west, the
    east, the south and the north.  This holds for the frames of the
    hazard workflow and for those of the workflows over spatial units. *)
Theorem add_bounding_box_col_contains {K : GeoKernel} {A} `{Frame A}
    (ch_df : gdf region) (unit_df : gdf A) :
  (∀ g, buffer g 0 = g) →
  let tight (g box : geom) :=
    g ⊆ box
    ∧ ∀ c, c ∈ box →
        ∃ w e s n, w ∈ g ∧ e ∈ g ∧ s ∈ g ∧ n ∈ g
                   ∧ (w.1 ≤ c.1 ≤ e.1)%Z ∧ (s.2 ≤ c.2 ≤ n.2)%Z in
  (crs (add_bounding_box_col ch_df 0) = crs ch_df
   ∧ boxed_region <$> rows (add_bounding_box_col ch_df 0) = rows ch_df
   ∧ Forall (λ b, tight (region_geometry (boxed_region b)) (bounding_box b))
       (rows (add_bounding_box_col ch_df 0)))
  ∧ (crs (add_bounding_box_col_rows unit_df 0) = crs unit_df
     ∧ box_row <$> rows (add_bounding_box_col_rows unit_df 0) = rows unit_df
     ∧ Forall (λ b, tight (geometry_of (box_row b)) (box b))
         (rows (add_bounding_box_col_rows unit_df 0))).
Proof.
  intros Hzero tight. split.
  - unfold add_bounding_box_col. cbn [rows crs]. split; [done|]. split.
    + rewrite <- list_fmap_compose. apply list_fmap_id.
    + apply Forall_fmap, Forall_forall. intros r _. cbn.
      rewrite Hzero. apply envelope_tight.
  - unfold add_bounding_box_col_rows. cbn [rows crs]. split; [done|]. split.
    + rewrite <- list_fmap_compose. apply list_fmap_id.
    + apply Forall_fmap, Forall_forall. intros r _. cbn.
      rewrite Hzero. apply envelope_tight.
Qed.

(** An instance: the overlapping squares and the halves of the grid, with
    the kernel of the examples. *)
Lemma add_bounding_box_col_contains_witness :
  let tight (g box : geom) :=
    g ⊆ box
    ∧ ∀ c, c ∈ box →
        ∃ w e s n, w ∈ g ∧ e ∈ g ∧ s ∈ g ∧ n ∈ g
                   ∧ (w.1 ≤ c.1 ≤ e.1)%Z ∧ (s.2 ≤ c.2 ≤ n.2)%Z in
  (crs (add_bounding_box_col (K := Examples.square_kernel) Examples_overlapping 0)
   = crs Examples_overlapping
   ∧ boxed_region
       <$> rows (add_bounding_box_col (K := Examples.square_kernel)
                   Examples_overlapping 0)
     = rows Examples_overlapping
   ∧ Forall (λ b, tight (region_geometry (boxed_region b)) (bounding_box b))
       (rows (add_bounding_box_col (K := Examples.square_kernel)
                Examples_overlapping 0)))
  ∧ (crs (add_bounding_box_col_rows (K := Examples.square_kernel) Examples_units 0)
     = crs Examples_units
     ∧ box_row
         <$> rows (add_bounding_box_col_rows (K := Examples.square_kernel)
                     Examples_units 0)
       = rows Examples_units
     ∧ Forall (λ b, tight (geometry_of (box_row b)) (box b))
         (rows (add_bounding_box_col_rows (K := Examples.square_kernel)
                  Examples_units 0))).
Proof.
  apply (add_bounding_box_col_contains (K := Examples.square_kernel)
           Examples_overlapping Examples_units).
  intros g. reflexivity.
Defined.

(** ** The raster stage *)

(** X15.  When the raster opens, the raster stage returns a frame that is
    declared EPSG:4326, with the rows of its input in their order and
    under their identifiers; the population of a row is that of its
    geometry in the frame of the raster, and the geometry that comes back
    is the one that was measured, taken from the frame of the raster to
    EPSG:4326: it is the geometry that went in only as far as the two
    transformations undo one another. *)
Theorem mask_raster_partial_pixel_frame {K : GeoKernel} (fs : FileSystem)
    {A} `{LawfulFrame A} (ch_df : gdf A) (raster_path : string) (src : raster) :
  rasterio_open fs raster_path = Ok src →
  ∃ out,
    mask_raster_partial_pixel fs ch_df raster_path = Ok out
    ∧ crs out = "EPSG:4326"%string
    ∧ (λ c, id_of (counted_row c)) <$> rows out = id_of <$> rows ch_df
    ∧ num_people_affected <$> rows out
      = (λ r, Raster.coverage_sum src
                (in_raster_frame src (crs ch_df) (geometry_of r)))
          <$> rows ch_df
    ∧ (λ c, geometry_of (counted_row c)) <$> rows out
      = (λ r, series_to_crs (src_crs src) "EPSG:4326"
                (in_raster_frame src (crs ch_df) (geometry_of r)))
          <$> rows ch_df.
Proof.
  intros Hopen.
  rewrite (mask_raster_partial_pixel_open fs ch_df raster_path src Hopen).
  eexists. split; [reflexivity|]. split; [done|].
  unfold raster_frame, in_raster_frame.
  destruct (decide (crs ch_df ≠ src_crs src)) as [Hne|Heq];
    unfold to_crs; cbn [rows crs];
    rewrite zip_with_fmap_r_same, <- !list_fmap_compose.
  - repeat split; apply list_fmap_ext; intros i r _; simpl;
      by rewrite ?id_of_with_geometry, ?geometry_of_with_geometry.
  - apply dec_stable in Heq.
    repeat split; apply list_fmap_ext; intros i r _; simpl;
      by rewrite ?id_of_with_geometry, ?geometry_of_with_geometry, ?Heq.
Qed.

(** An instance: the overlapping squares on the uniform raster. *)
Lemma mask_raster_partial_pixel_frame_witness :
  ∃ out,
    mask_raster_partial_pixel (K := Examples.square_kernel) Examples.files
      Examples_overlapping "pop.tif" = Ok out
    ∧ crs out = "EPSG:4326"%string
    ∧ (λ c, id_of (counted_row c)) <$> rows out
      = id_of <$> rows Examples_overlapping
    ∧ num_people_affected <$> rows out
      = (λ r, Raster.coverage_sum Examples.uniform_raster
                (in_raster_frame (K := Examples.square_kernel)
                   Examples.uniform_raster (crs Examples_overlapping)
                   (geometry_of r)))
          <$> rows Examples_overlapping
    ∧ (λ c, geometry_of (counted_row c)) <$> rows out
      = (λ r, series_to_crs (K := Examples.square_kernel)
                (src_crs Examples.uniform_raster) "EPSG:4326"
                (in_raster_frame (K := Examples.square_kernel)
                   Examples.uniform_raster (crs Examples_overlapping)
                   (geometry_of r)))
          <$> rows Examples_overlapping.
Proof.
  apply (mask_raster_partial_pixel_frame (K := Examples.square_kernel)
           Examples.files Examples_overlapping "pop.tif"
           Examples.uniform_raster).
  reflexivity.
Defined.

End StageFacts.

(** * The workflows over spatial units *)

Module WorkflowFacts.

Import Grid Conn ListFacts GridFacts MergerFacts PipelineFacts.

Local Open Scope string_scope.

(** ** The preparation *)

Lemma prep_geographies_returns {K : GeoKernel} (fs : FileSystem)
    (path : string) (df : gdf hazard) :
  load_ch fs path = Ok df → prepares df = true →
  ∃ ch, prep_geographies fs path = Ok ch.
Proof.
  intros Hload Hprep. rewrite (prep_geographies_Ok fs path df Hload Hprep).
  by eexists.
Qed.

(** The geometry of a unit as the preparation leaves it: repaired, and
    taken to EPSG:4326 from the frame of the file. *)
Lemma prep_geographies_spatial_unit_rows {K : GeoKernel} (ufs : UnitFiles)
    (path : string) (df : gdf spatial_unit) :
  load_ch_rows (read_unit_file ufs) (read_unit_parquet ufs) path = Ok df →
  prep_geographies_spatial_unit ufs path
  = Ok (Gdf "EPSG:4326"
          ((λ u, SpatialUnit (ID_spatial_unit u)
                   (series_to_crs (crs df) "EPSG:4326"
                      (make_valid (unit_geometry u))))
             <$> filter (λ u, is_empty (unit_geometry u) = false) (rows df))).
Proof.
  intros Hload. unfold prep_geographies_spatial_unit. rewrite Hload.
  cbv [mbind except_bind mret except_ret]. cbn [rows crs].
  destruct (decide (crs df ≠ "EPSG:4326")) as [Hne|Heq].
  - unfold to_crs. cbn [rows crs].
    by rewrite <- list_fmap_compose.
  - apply dec_stable in Heq. by rewrite Heq.
Qed.

(** ** The raster stage on rows with a bounding box *)

Lemma mask_raster_partial_pixel_boxes {K : GeoKernel} (fs : FileSystem)
    {A} `{Frame A} (ch_df : gdf A) (raster_path : string) (src : raster)
    {B} (select : A → B) :
  rasterio_open fs raster_path = Ok src →
  (∀ g r, geometry_of (with_geometry g r) = g) →
  (∀ g r, select (with_geometry g r) = select r) →
  (m ← mask_raster_partial_pixel fs (add_bounding_box_col_rows ch_df 0) raster_path;
   mret ((λ r, (select (box_row (counted_row r)), num_people_affected r))
           <$> rows m))
  = Ok ((λ r, (select r,
               Raster.coverage_sum src
                 (in_raster_frame src (crs ch_df) (geometry_of r))))
          <$> rows ch_df).
Proof.
  intros Hopen Hgeom Hselect.
  rewrite (mask_raster_partial_pixel_open fs _ raster_path src Hopen).
  cbv [mbind except_bind mret except_ret]. f_equal.
  unfold raster_frame, in_raster_frame, add_bounding_box_col_rows.
  cbn [rows crs].
  destruct (decide (crs ch_df ≠ src_crs src));
    unfold to_crs; cbn [rows crs];
    rewrite zip_with_fmap_r_same, <- !list_fmap_compose;
    apply list_fmap_ext; intros i r _; simpl;
    rewrite ?Hselect, ?Hgeom; done.
Qed.

(** ** Errors of the files *)

(** X16.  An error in reading the hazards is the error of the workflow
    by spatial unit, whatever the path of the units, the raster and the
    flag: the units and the raster are not looked at. *)
Theorem find_num_people_affected_by_geo_hazard_file_error {K : GeoKernel}
    {O : RowOrder} (fs : FileSystem) (ufs : UnitFiles)
    (path_to_hazards path_to_additional_geos raster_path : string)
    (by_unique_hazard : bool) (e : exn) :
  load_ch fs path_to_hazards = Raise e →
  find_num_people_affected_by_geo fs ufs path_to_hazards
    path_to_additional_geos raster_path by_unique_hazard = Raise e.
Proof.
  intros Hload.
  unfold find_num_people_affected_by_geo, prep_data_geos, prep_geographies.
  by rewrite Hload.
Qed.

(** An instance: a shapefile of hazards. *)
Lemma find_num_people_affected_by_geo_hazard_file_error_witness :
  find_num_people_affected_by_geo (K := Examples.square_kernel)
    Examples.files Examples_unit_files "fires.shp" "units.geojson" "pop.tif" false
  = Raise (Exn "FileNotFoundError"
             "File not found or unsupported file type: fires.shp").
Proof.
  apply (find_num_people_affected_by_geo_hazard_file_error
           (K := Examples.square_kernel) Examples.files Examples_unit_files
           "fires.shp" "units.geojson" "pop.tif" false).
  reflexivity.
Defined.

(** X17.  When the hazards load, with a hazard to prepare and none that
    is empty once repaired and reprojected, and the path of the units is
    not empty, an error in reading the units is the error of the
    workflow by spatial unit, whatever the raster and the flag, and it
    is the error of the count of residents as well. *)
Theorem find_num_people_affected_by_geo_unit_file_error {K : GeoKernel}
    {O : RowOrder} (fs : FileSystem) (ufs : UnitFiles)
    (path_to_hazards path_to_additional_geos raster_path : string)
    (by_unique_hazard : bool) (df : gdf hazard) (e : exn) :
  load_ch fs path_to_hazards = Ok df →
  prepares df = true →
  truthy (Some path_to_additional_geos) = true →
  load_ch_rows (read_unit_file ufs) (read_unit_parquet ufs)
    path_to_additional_geos = Raise e →
  find_num_people_affected_by_geo fs ufs path_to_hazards
    path_to_additional_geos raster_path by_unique_hazard = Raise e
  ∧ find_number_of_people_residing_by_geo fs ufs path_to_additional_geos
      raster_path = Raise e.
Proof.
  intros Hload Hkept Htruthy Hunits.
  destruct (prep_geographies_returns fs path_to_hazards df Hload Hkept)
    as [ch Hch].
  split.
  - unfold find_num_people_affected_by_geo, prep_data_geos.
    rewrite Hch. cbn [mbind except_bind]. rewrite Htruthy.
    change (default "" (Some path_to_additional_geos))
      with path_to_additional_geos.
    unfold prep_geographies_spatial_unit. by rewrite Hunits.
  - unfold find_number_of_people_residing_by_geo, prep_geographies_spatial_unit.
    by rewrite Hunits.
Qed.

(** An instance: a shapefile of units. *)
Lemma find_num_people_affected_by_geo_unit_file_error_witness :
  find_num_people_affected_by_geo (K := Examples.square_kernel)
    Examples.files Examples_unit_files "hazards.geojson" "zcta.shp" "pop.tif" true
  = Raise (Exn "FileNotFoundError"
             "File not found or unsupported file type: zcta.shp")
  ∧ find_number_of_people_residing_by_geo (K := Examples.square_kernel)
      Examples.files Examples_unit_files "zcta.shp" "pop.tif"
    = Raise (Exn "FileNotFoundError"
               "File not found or unsupported file type: zcta.shp").
Proof.
  apply (find_num_people_affected_by_geo_unit_file_error
           (K := Examples.square_kernel) Examples.files Examples_unit_files
           "hazards.geojson" "zcta.shp" "pop.tif" true Examples.three_squares);
    reflexivity.
Defined.

(** X18.  With the empty string as the path of the units, and a hazard
    file that loads with a hazard to prepare and none that is empty once
    repaired and reprojected, the preparation returns the hazards alone
    and the workflow by spatial unit, which unpacks a pair, raises a
    ValueError as soon as the hazards are prepared: no unit file is read
    and no raster is opened. *)
Theorem find_num_people_affected_by_geo_empty_units_path {K : GeoKernel}
    {O : RowOrder} (fs : FileSystem) (ufs : UnitFiles)
    (path_to_hazards raster_path : string)
    (by_unique_hazard : bool) (df : gdf hazard) :
  load_ch fs path_to_hazards = Ok df →
  prepares df = true →
  (∃ ch, prep_data_geos fs ufs path_to_hazards (Some "") = Ok (Hazards ch)
         ∧ prep_data fs path_to_hazards = Ok ch)
  ∧ find_num_people_affected_by_geo fs ufs path_to_hazards "" raster_path
      by_unique_hazard
    = Raise (Exn "ValueError" "too many values to unpack (expected 2)").
Proof.
  intros Hload Hkept.
  destruct (prep_geographies_returns fs path_to_hazards df Hload Hkept)
    as [ch Hch].
  split.
  - eexists. unfold prep_data_geos, prep_data. rewrite Hch.
    cbn [mbind except_bind truthy String.eqb negb].
    unfold add_buffered_geom_col. cbv [mbind except_bind mret except_ret].
    split; reflexivity.
  - unfold find_num_people_affected_by_geo, prep_data_geos. rewrite Hch.
    cbn [mbind except_bind truthy String.eqb negb].
    unfold add_buffered_geom_col. cbv [mbind except_bind mret except_ret].
    reflexivity.
Qed.

(** An instance: the hazards of the examples; the raster does not
    exist. *)
Lemma find_num_people_affected_by_geo_empty_units_path_witness :
  (∃ ch, prep_data_geos (K := Examples.square_kernel) Examples.files
           Examples_unit_files "hazards.geojson" (Some "") = Ok (Hazards ch)
         ∧ prep_data Examples.files "hazards.geojson" = Ok ch)
  ∧ find_num_people_affected_by_geo (K := Examples.square_kernel)
      Examples.files Examples_unit_files "hazards.geojson" "" "missing.tif" false
    = Raise (Exn "ValueError" "too many values to unpack (expected 2)").
Proof.
  apply (find_num_people_affected_by_geo_empty_units_path
           (K := Examples.square_kernel) Examples.files Examples_unit_files
           "hazards.geojson" "missing.tif" false Examples.three_squares);
    reflexivity.
Defined.

(** ** The results *)

(** X19.  When the unit file loads and the raster opens, the count of
    residents has one row for each unit of the file whose geometry is not
    empty, in the order of the file, under the identifier of the unit,
    with the population of its geometry, repaired and taken to EPSG:4326
    and from there to the frame of the raster. *)
Theorem find_number_of_people_residing_by_geo_rows {K : GeoKernel}
    (fs : FileSystem) (ufs : UnitFiles)
    (path_to_additional_geos raster_path : string)
    (df : gdf spatial_unit) (src : raster) :
  load_ch_rows (read_unit_file ufs) (read_unit_parquet ufs)
    path_to_additional_geos = Ok df →
  rasterio_open fs raster_path = Ok src →
  find_number_of_people_residing_by_geo fs ufs path_to_additional_geos raster_path
  = Ok ((λ u,
           (ID_spatial_unit u,
            Raster.coverage_sum src
              (in_raster_frame src "EPSG:4326"
                 (series_to_crs (crs df) "EPSG:4326"
                    (make_valid (unit_geometry u))))))
          <$> filter (λ u, is_empty (unit_geometry u) = false) (rows df)).
Proof.
  intros Hload Hopen. unfold find_number_of_people_residing_by_geo.
  rewrite (prep_geographies_spatial_unit_rows ufs _ df Hload).
  cbn [mbind except_bind].
  rewrite (mask_raster_partial_pixel_boxes fs _ raster_path src ID_spatial_unit
             Hopen) by done.
  cbn [rows crs]. by rewrite <- list_fmap_compose.
Qed.

(** An instance: the two halves of the grid on the uniform raster. *)
Lemma find_number_of_people_residing_by_geo_rows_witness :
  find_number_of_people_residing_by_geo (K := Examples.square_kernel)
    Examples.files Examples_unit_files "units.geojson" "pop.tif"
  = Ok ((λ u,
           (ID_spatial_unit u,
            Raster.coverage_sum Examples.uniform_raster
              (in_raster_frame (K := Examples.square_kernel)
                 Examples.uniform_raster "EPSG:4326"
                 (series_to_crs (K := Examples.square_kernel)
                    (crs Examples_units) "EPSG:4326"
                    (make_valid (GeoKernel := Examples.square_kernel)
                       (unit_geometry u))))))
          <$> filter (λ u, is_empty (unit_geometry u) = false)
                (rows Examples_units)).
Proof.
  apply (find_number_of_people_residing_by_geo_rows
           (K := Examples.square_kernel) Examples.files Examples_unit_files
           "units.geojson" "pop.tif" Examples_units Examples.uniform_raster);
    reflexivity.
Defined.

(** The pair that the preparation returns when both files load. *)
Lemma prep_data_geos_pair {K : GeoKernel} (fs : FileSystem) (ufs : UnitFiles)
    (path_to_hazards path_to_additional_geos : string)
    (ch : gdf buffered) (ad_geo : gdf spatial_unit) :
  prep_data fs path_to_hazards = Ok ch →
  truthy (Some path_to_additional_geos) = true →
  prep_geographies_spatial_unit ufs path_to_additional_geos = Ok ad_geo →
  prep_data_geos fs ufs path_to_hazards (Some path_to_additional_geos)
  = Ok (HazardsAndGeos ch ad_geo).
Proof.
  intros Hch Htruthy Had. unfold prep_data in Hch. unfold prep_data_geos.
  destruct (prep_geographies fs path_to_hazards) as [pg|e]; [|discriminate].
  cbn [mbind except_bind] in *. rewrite Htruthy.
  change (default "" (Some path_to_additional_geos))
    with path_to_additional_geos.
  rewrite Had. cbn [mbind except_bind]. by rewrite Hch.
Qed.

(** The rows of the merger do not depend on the frame that the input
    declares. *)
Lemma combine_overlapping_geometries_undeclared {O : RowOrder}
    (ch_df merged : gdf region) :
  combine_overlapping_geometries ch_df = Ok merged →
  combine_overlapping_geometries (Gdf undeclared (rows ch_df))
  = Ok (Gdf undeclared (rows merged)).
Proof.
  unfold combine_overlapping_geometries. cbn [rows crs].
  destruct (mapM _ _) as [w|e]; [|discriminate].
  cbv [mbind except_bind mret except_ret]. by intros [= <-].
Qed.

(** The workflow by spatial unit from the working set on. *)
Lemma find_num_people_affected_by_geo_unfold {K : GeoKernel} {O : RowOrder}
    (fs : FileSystem) (ufs : UnitFiles)
    (path_to_hazards path_to_additional_geos raster_path : string)
    (by_unique_hazard : bool) (src : raster)
    (ch : gdf buffered) (ad_geo : gdf spatial_unit) (working : gdf region) :
  prep_data_geos fs ufs path_to_hazards (Some path_to_additional_geos)
  = Ok (HazardsAndGeos ch ad_geo) →
  (if negb by_unique_hazard
   then combine_overlapping_geometries (Gdf undeclared (rows (footprints ch)))
   else mret (Gdf undeclared (rows (footprints ch)))) = Ok working →
  rasterio_open fs raster_path = Ok src →
  find_num_people_affected_by_geo fs ufs path_to_hazards
    path_to_additional_geos raster_path by_unique_hazard
  = Ok (measured_pieces src (rows working) ad_geo).
Proof.
  intros Hprep Hworking Hopen.
  unfold find_num_people_affected_by_geo. rewrite Hprep.
  cbn [mbind except_bind].
  change (Gdf undeclared
            ((λ r, Region (ID_climate_hazard (projected_hazard (buffered_projected r)))
                     (buffered_hazard r)) <$> rows ch))
    with (Gdf undeclared (rows (footprints ch))).
  rewrite Hworking. cbn [mbind except_bind].
  exact (mask_raster_partial_pixel_boxes fs
           (overlay (Gdf "EPSG:4326" (rows working)) ad_geo) raster_path src
           (λ pc, (piece_ID_climate_hazard pc, piece_ID_spatial_unit pc))
           Hopen (λ _ _, eq_refl) (λ _ _, eq_refl)).
Qed.

(** The rows of the workflow by spatial unit, pair by pair. *)
Lemma measured_pieces_pairs {K : GeoKernel} (src : raster)
    (regions : list region) (ad_geo : gdf spatial_unit) :
  measured_pieces src regions ad_geo
  = (r ← regions;
     u ← rows ad_geo;
     if decide (region_geometry r ∩ unit_geometry u = ∅) then []
     else [(region_ID r, ID_spatial_unit u,
            Raster.coverage_sum src
              (in_raster_frame src "EPSG:4326"
                 (region_geometry r ∩ unit_geometry u)))])%list.
Proof.
  unfold measured_pieces, overlay. cbn [rows].
  rewrite fmap_bind. apply list_bind_ext; [|done]. intros r.
  rewrite fmap_bind. apply list_bind_ext; [|done].
  intros u. unfold is_empty.
  destruct (decide (region_geometry r ∩ unit_geometry u = ∅)) as [He|He].
  - by rewrite bool_decide_eq_true_2.
  - by rewrite bool_decide_eq_false_2.
Qed.

(** X20.  When the hazards load, with a hazard to prepare and none that
    is empty once repaired and reprojected, the units load, with a path
    that is not empty, and the raster opens: the workflow by spatial
    unit that reports each hazard on its own has one row for each pair
    of a buffered hazard and a prepared unit whose geometries share a
    cell, in the order of the hazards and then of the units, under the
    identifiers of both, with the population of the intersection of the
    two geometries; with the merger, the regions of the merger take the
    place of the hazards. *)
Theorem find_num_people_affected_by_geo_rows {K : GeoKernel} {O : RowOrder}
    (fs : FileSystem) (ufs : UnitFiles)
    (path_to_hazards path_to_additional_geos raster_path : string)
    (df : gdf hazard) (units : gdf spatial_unit) (src : raster) :
  load_ch fs path_to_hazards = Ok df →
  prepares df = true →
  truthy (Some path_to_additional_geos) = true →
  load_ch_rows (read_unit_file ufs) (read_unit_parquet ufs)
    path_to_additional_geos = Ok units →
  rasterio_open fs raster_path = Ok src →
  ∃ ch ad_geo merged,
    prep_data fs path_to_hazards = Ok ch
    ∧ prep_geographies_spatial_unit ufs path_to_additional_geos = Ok ad_geo
    ∧ find_num_people_affected_by_geo fs ufs path_to_hazards
        path_to_additional_geos raster_path true
      = Ok (b ← rows ch;
            u ← rows ad_geo;
            if decide (buffered_hazard b ∩ unit_geometry u = ∅) then []
            else [(buffered_ID b, ID_spatial_unit u,
                   Raster.coverage_sum src
                     (in_raster_frame src "EPSG:4326"
                        (buffered_hazard b ∩ unit_geometry u)))])%list
    ∧ combine_overlapping_geometries (footprints ch) = Ok merged
    ∧ find_num_people_affected_by_geo fs ufs path_to_hazards
        path_to_additional_geos raster_path false
      = Ok (r ← rows merged;
            u ← rows ad_geo;
            if decide (region_geometry r ∩ unit_geometry u = ∅) then []
            else [(region_ID r, ID_spatial_unit u,
                   Raster.coverage_sum src
                     (in_raster_frame src "EPSG:4326"
                        (region_geometry r ∩ unit_geometry u)))])%list.
Proof.
  intros Hload Hkept Htruthy Hunits Hopen.
  destruct (prep_geographies_returns fs path_to_hazards df Hload Hkept)
    as [pg Hpg].
  pose proof (prep_geographies_spatial_unit_rows ufs _ units Hunits) as Had.
  match type of Had with _ = Ok ?g => set (ad_geo := g) in * end.
  destruct (add_buffered_geom_col pg) as [ch|e] eqn:Hbuf; [|discriminate].
  assert (Hch : prep_data fs path_to_hazards = Ok ch).
  { unfold prep_data. rewrite Hpg. exact Hbuf. }
  destruct (combine_overlapping_geometries_rows (footprints ch))
    as (merged & Hmerged & _ & _).
  pose proof (prep_data_geos_pair fs ufs _ _ ch ad_geo Hch Htruthy Had) as Hprep.
  exists ch, ad_geo, merged.
  split; [done|]. split; [done|]. split; [|split; [done|]].
  - rewrite (find_num_people_affected_by_geo_unfold fs ufs _ _ _ true src ch
               ad_geo (Gdf undeclared (rows (footprints ch)))) by done.
    rewrite measured_pieces_pairs. unfold footprints. cbn [rows].
    by rewrite list_fmap_bind.
  - rewrite (find_num_people_affected_by_geo_unfold fs ufs _ _ _ false src ch
               ad_geo (Gdf undeclared (rows merged)));
      [|done|by apply combine_overlapping_geometries_undeclared|done].
    by rewrite measured_pieces_pairs.
Qed.

(** An instance: the three squares against the two halves of the grid. *)
Lemma find_num_people_affected_by_geo_rows_witness :
  ∃ ch ad_geo merged,
    prep_data (K := Examples.square_kernel) Examples.files "hazards.geojson"
    = Ok ch
    ∧ prep_geographies_spatial_unit (K := Examples.square_kernel)
        Examples_unit_files "units.geojson" = Ok ad_geo
    ∧ find_num_people_affected_by_geo (K := Examples.square_kernel)
        Examples.files Examples_unit_files "hazards.geojson" "units.geojson"
        "pop.tif" true
      = Ok (b ← rows ch;
            u ← rows ad_geo;
            if decide (buffered_hazard b ∩ unit_geometry u = ∅) then []
            else [(buffered_ID b, ID_spatial_unit u,
                   Raster.coverage_sum Examples.uniform_raster
                     (in_raster_frame (K := Examples.square_kernel)
                        Examples.uniform_raster "EPSG:4326"
                        (buffered_hazard b ∩ unit_geometry u)))])%list
    ∧ combine_overlapping_geometries (footprints ch) = Ok merged
    ∧ find_num_people_affected_by_geo (K := Examples.square_kernel)
        Examples.files Examples_unit_files "hazards.geojson" "units.geojson"
        "pop.tif" false
      = Ok (r ← rows merged;
            u ← rows ad_geo;
            if decide (region_geometry r ∩ unit_geometry u = ∅) then []
            else [(region_ID r, ID_spatial_unit u,
                   Raster.coverage_sum Examples.uniform_raster
                     (in_raster_frame (K := Examples.square_kernel)
                        Examples.uniform_raster "EPSG:4326"
                        (region_geometry r ∩ unit_geometry u)))])%list.
Proof.
  apply (find_num_people_affected_by_geo_rows
           (K := Examples.square_kernel) Examples.files Examples_unit_files
           "hazards.geojson" "units.geojson" "pop.tif"
           Examples.three_squares Examples_units Examples.uniform_raster);
    reflexivity.
Defined.

(** ** An error of the raster *)

Lemma mask_raster_partial_pixel_closed {K : GeoKernel} (fs : FileSystem)
    {A} `{Frame A} (ch_df : gdf A) (raster_path : string) (e : exn) :
  rasterio_open fs raster_path = Raise e →
  mask_raster_partial_pixel fs ch_df raster_path = Raise e.
Proof. intros Hopen. unfold mask_raster_partial_pixel. by rewrite Hopen. Qed.

(** X21.  When the files load, the hazard file with a hazard to prepare
    and none that is empty once repaired and reprojected, and the raster
    does not open, the error of the raster is the error of each of the
    three workflows, with and without the merger: the raster is looked
    at last, after the preparation, the buffering, the merger and the
    overlay. *)
Theorem raster_error_stops_every_workflow {K : GeoKernel} {O : RowOrder}
    (fs : FileSystem) (ufs : UnitFiles)
    (path_to_hazards path_to_additional_geos raster_path : string)
    (by_unique_hazard : bool) (df : gdf hazard) (units : gdf spatial_unit)
    (e : exn) :
  load_ch fs path_to_hazards = Ok df →
  prepares df = true →
  truthy (Some path_to_additional_geos) = true →
  load_ch_rows (read_unit_file ufs) (read_unit_parquet ufs)
    path_to_additional_geos = Ok units →
  rasterio_open fs raster_path = Raise e →
  find_num_people_affected fs path_to_hazards raster_path by_unique_hazard
  = Raise e
  ∧ find_num_people_affected_by_geo fs ufs path_to_hazards
      path_to_additional_geos raster_path by_unique_hazard = Raise e
  ∧ find_number_of_people_residing_by_geo fs ufs path_to_additional_geos
      raster_path = Raise e.
Proof.
  intros Hload Hkept Htruthy Hunits Hopen.
  destruct (prep_geographies_returns fs path_to_hazards df Hload Hkept)
    as [pg Hpg].
  pose proof (prep_geographies_spatial_unit_rows ufs _ units Hunits) as Had.
  match type of Had with _ = Ok ?g => set (ad_geo := g) in * end.
  destruct (add_buffered_geom_col pg) as [ch|e'] eqn:Hbuf; [|discriminate].
  assert (Hch : prep_data fs path_to_hazards = Ok ch).
  { unfold prep_data. rewrite Hpg. exact Hbuf. }
  destruct (combine_overlapping_geometries_rows (footprints ch))
    as (merged & Hmerged & _ & _).
  pose proof (combine_overlapping_geometries_undeclared _ _ Hmerged) as Hmerged'.
  pose proof (prep_data_geos_pair fs ufs _ _ ch ad_geo Hch Htruthy Had) as Hprep.
  split; [|split].
  - destruct by_unique_hazard.
    + rewrite (find_num_people_affected_unfold fs _ _ true ch (footprints ch) Hch)
        by done.
      by rewrite Hopen.
    + rewrite (find_num_people_affected_unfold fs _ _ false ch merged Hch) by done.
      by rewrite Hopen.
  - unfold find_num_people_affected_by_geo. rewrite Hprep.
    cbn [mbind except_bind].
    change (Gdf undeclared
              ((λ r, Region (ID_climate_hazard (projected_hazard (buffered_projected r)))
                       (buffered_hazard r)) <$> rows ch))
      with (Gdf undeclared (rows (footprints ch))).
    destruct by_unique_hazard; cbn [negb]; rewrite ?Hmerged';
      cbv [mret except_ret]; cbn [mbind except_bind];
      by rewrite (mask_raster_partial_pixel_closed fs _ _ e Hopen).
  - unfold find_number_of_people_residing_by_geo. rewrite Had.
    cbn [mbind except_bind].
    by rewrite (mask_raster_partial_pixel_closed fs _ _ e Hopen).
Qed.

(** An instance: the files of the examples and a raster that is not
    there. *)
Lemma raster_error_stops_every_workflow_witness :
  find_num_people_affected (K := Examples.square_kernel) Examples.files
    "hazards.geojson" "missing.tif" false
  = Raise (Exn "RasterioIOError" "No such file or directory")
  ∧ find_num_people_affected_by_geo (K := Examples.square_kernel)
      Examples.files Examples_unit_files "hazards.geojson" "units.geojson"
      "missing.tif" false
    = Raise (Exn "RasterioIOError" "No such file or directory")
  ∧ find_number_of_people_residing_by_geo (K := Examples.square_kernel)
      Examples.files Examples_unit_files "units.geojson" "missing.tif"
    = Raise (Exn "RasterioIOError" "No such file or directory").
Proof.
  apply (raster_error_stops_every_workflow (K := Examples.square_kernel)
           Examples.files Examples_unit_files
           "hazards.geojson" "units.geojson" "missing.tif" false
           Examples.three_squares Examples_units);
    reflexivity.
Defined.

End WorkflowFacts.

(** * Nobody is counted twice *)

Module PopulationFacts.

Import Grid Conn ListFacts GridFacts MergerFacts PipelineFacts.

(** ** Sums of rationals *)

Lemma Qsum_app (l k : list Q) : (Qsum (l ++ k) == Qsum l + Qsum k)%Q.
Proof.
  induction l as [|x l IH]; cbn [app Qsum foldr].
  - fold (Qsum k). lra.
  - fold (Qsum (l ++ k)) (Qsum l). rewrite IH. lra.
Qed.

Lemma Qsum_Permutation (l k : list Q) : l ≡ₚ k → (Qsum l == Qsum k)%Q.
Proof.
  induction 1 as [|x l k _ IH|x y l|l k m _ IH1 _ IH2]; cbn [Qsum foldr].
  - reflexivity.
  - fold (Qsum l) (Qsum k). rewrite IH. reflexivity.
  - fold (Qsum l). lra.
  - by rewrite IH1.
Qed.

Lemma Qsum_ext {A} (F G : A → Q) (l : list A) :
  (∀ x, x ∈ l → (F x == G x)%Q) → (Qsum (F <$> l) == Qsum (G <$> l))%Q.
Proof.
  induction l as [|x l IH]; intros H; [reflexivity|].
  rewrite !fmap_cons. cbn [Qsum foldr]. fold (Qsum (F <$> l)) (Qsum (G <$> l)).
  rewrite IH by (intros y Hy; apply H; by right).
  rewrite (H x) by left. reflexivity.
Qed.

Lemma Qsum_plus {A} (F G : A → Q) (l : list A) :
  (Qsum ((λ x, F x + G x) <$> l) == Qsum (F <$> l) + Qsum (G <$> l))%Q.
Proof.
  induction l as [|x l IH]; [reflexivity|].
  rewrite !fmap_cons. cbn [Qsum foldr].
  fold (Qsum ((λ x, F x + G x)%Q <$> l)) (Qsum (F <$> l)) (Qsum (G <$> l)).
  rewrite IH. lra.
Qed.

Lemma Qsum_zero {A} (F : A → Q) (l : list A) :
  (∀ x, x ∈ l → (F x == 0)%Q) → (Qsum (F <$> l) == 0)%Q.
Proof.
  induction l as [|x l IH]; intros H; [reflexivity|].
  rewrite fmap_cons. cbn [Qsum foldr]. fold (Qsum (F <$> l)).
  rewrite IH by (intros y Hy; apply H; by right).
  rewrite (H x) by left. lra.
Qed.

(** ** The extraction adds up over geometries that do not overlap *)

Section Additive.

Variable src : raster.

(** The extraction as a sum over the pixels of any set that holds the
    pixels the geometry lies in. *)
Lemma coverage_sum_over (P : gset (Z * Z)) (g : geom) :
  set_map (D := gset (Z * Z)) (Raster.pixel_of src) g ⊆ P →
  (Qsum ((λ p, band src p * Raster.coverage src g p)%Q
           <$> filter (λ p, Raster.valid src p) (elements P))
   == Raster.coverage_sum src g)%Q.
Proof.
  intros Hsub.
  set (X := set_map (D := gset (Z * Z)) (Raster.pixel_of src) g) in *.
  assert (HP : P = X ∪ (P ∖ X)).
  { apply set_eq. intros p. rewrite elem_of_union, elem_of_difference.
    split; [|intros [?|[? _]]; auto].
    intros Hp. destruct (decide (p ∈ X)); auto. }
  assert (Hperm : elements P ≡ₚ elements X ++ elements (P ∖ X)).
  { rewrite HP at 1. apply elements_disj_union. set_solver. }
  rewrite (Qsum_Permutation _
             ((λ p, band src p * Raster.coverage src g p)%Q
                <$> (filter (λ p, Raster.valid src p) (elements X)
                     ++ filter (λ p, Raster.valid src p) (elements (P ∖ X))))).
  2:{ apply fmap_Permutation. rewrite <- filter_app. by apply filter_Permutation. }
  rewrite fmap_app, Qsum_app.
  rewrite (Qsum_zero _ (filter _ (elements (P ∖ X)))).
  - unfold Raster.coverage_sum, Raster.covered_pixels. fold X. lra.
  - intros p [_ Hp%elem_of_elements]%list_elem_of_filter.
    apply elem_of_difference in Hp as [_ Hp]. unfold Raster.coverage.
    assert (Hempty : filter (λ c, Raster.pixel_of src c = p) g = (∅ : geom)).
    { apply set_eq. intros c. rewrite elem_of_filter.
      split; [|by intros ?%not_elem_of_empty]. intros [<- Hc].
      exfalso. apply Hp. apply elem_of_map. eauto. }
    rewrite Hempty, size_empty. cbn [Z.of_nat].
    unfold Qdiv. change (inject_Z 0) with 0%Q.
    rewrite Qmult_0_l, Qmult_0_r. reflexivity.
Qed.

Lemma coverage_union (a b : geom) (p : Z * Z) :
  a ## b →
  (Raster.coverage src (a ∪ b) p
   == Raster.coverage src a p + Raster.coverage src b p)%Q.
Proof.
  intros Hdisj. unfold Raster.coverage.
  rewrite (filter_union_L (C := geom)). rewrite size_union by set_solver.
  rewrite Nat2Z.inj_add, inject_Z_plus. field.
  - change 0%Q with (inject_Z 0). rewrite inject_Z_injective. lia.
  - apply _.
Qed.

Lemma coverage_sum_union (a b : geom) :
  a ## b →
  (Raster.coverage_sum src (a ∪ b)
   == Raster.coverage_sum src a + Raster.coverage_sum src b)%Q.
Proof.
  intros Hdisj.
  set (P := set_map (D := gset (Z * Z)) (Raster.pixel_of src) (a ∪ b)).
  rewrite <- (coverage_sum_over P (a ∪ b)) by done.
  rewrite <- (coverage_sum_over P a) by (unfold P; set_solver).
  rewrite <- (coverage_sum_over P b) by (unfold P; set_solver).
  rewrite <- Qsum_plus. apply Qsum_ext. intros p _.
  rewrite (coverage_union a b p Hdisj). lra.
Qed.

Lemma coverage_sum_empty : (Raster.coverage_sum src ∅ == 0)%Q.
Proof.
  unfold Raster.coverage_sum, Raster.covered_pixels.
  rewrite set_map_empty, elements_empty. reflexivity.
Qed.

(** The populations of geometries that pairwise do not overlap add up to
    the population of their union. *)
Lemma coverage_sum_union_list (gs : list geom) :
  (∀ i j a b, i ≠ j → gs !! i = Some a → gs !! j = Some b → a ## b) →
  (Qsum (Raster.coverage_sum src <$> gs) == Raster.coverage_sum src (⋃ gs))%Q.
Proof.
  induction gs as [|g gs IH]; intros Hdisj.
  - cbn. symmetry. apply coverage_sum_empty.
  - rewrite fmap_cons. cbn [Qsum foldr]. fold (Qsum (Raster.coverage_sum src <$> gs)).
    change (⋃ (g :: gs)) with (g ∪ ⋃ gs).
    rewrite coverage_sum_union.
    + rewrite IH; [reflexivity|].
      intros i j a b Hij Hi Hj. apply (Hdisj (S i) (S j)); auto.
    + intros x Hx (h & Hh & Hxh)%elem_of_union_list.
      apply list_elem_of_lookup in Hh as [j Hj].
      by apply (Hdisj 0%nat (S j) g h ltac:(done) eq_refl Hj x).
Qed.

End Additive.

(** ** Exact transformations *)

Lemma keeps_unions_list (T : geom → geom) (gs : list geom) :
  keeps_unions T → T (⋃ gs) = ⋃ (T <$> gs).
Proof.
  intros (Hempty & Hunion & _). induction gs as [|g gs IH]; [done|].
  rewrite fmap_cons.
  change (⋃ (g :: gs)) with (g ∪ ⋃ gs).
  change (⋃ (T g :: (T <$> gs))) with (T g ∪ ⋃ (T <$> gs)).
  by rewrite Hunion, IH.
Qed.

Lemma non_overlapping_lookup (gs : list geom) i j a b :
  non_overlapping gs = true →
  i ≠ j → gs !! i = Some a → gs !! j = Some b → a ## b.
Proof.
  revert i j. induction gs as [|g gs IH]; intros i j Hno Hij Hi Hj; [done|].
  cbn [non_overlapping] in Hno. apply andb_true_iff in Hno as [Hg Hno].
  rewrite forallb_forall in Hg.
  destruct i as [|i], j as [|j]; cbn in Hi, Hj; [done| | |].
  - injection Hi as ->.
    assert (Hb : b ∈ gs) by (apply list_elem_of_lookup; eauto).
    apply list_elem_of_In, Hg in Hb. by apply bool_decide_eq_true in Hb.
  - injection Hj as ->.
    assert (Ha : a ∈ gs) by (apply list_elem_of_lookup; eauto).
    apply list_elem_of_In, Hg in Ha. apply bool_decide_eq_true in Ha.
    by symmetry.
  - apply (IH i j); auto.
Qed.

(** ** The merged regions hold everybody once *)

Local Open Scope string_scope.

(** X22.  When the hazards load, with a hazard to prepare and none that
    is empty once repaired and reprojected, and the raster opens, and
    taking a geometry to the frame of the raster is exact, the
    populations that
    the hazard workflow reports for the merged regions add up to the
    population of the union of the buffered footprints, as the
    coverage-weighted sum of the extraction measures it: where buffers
    overlap, nobody is counted twice. *)
Theorem find_num_people_affected_counts_once {K : GeoKernel} {O : RowOrder}
    (fs : FileSystem) (path_to_hazards raster_path : string)
    (df : gdf hazard) (src : raster) :
  load_ch fs path_to_hazards = Ok df →
  prepares df = true →
  rasterio_open fs raster_path = Ok src →
  keeps_unions (in_raster_frame src "EPSG:4326") →
  ∃ ch result,
    prep_data fs path_to_hazards = Ok ch
    ∧ find_num_people_affected fs path_to_hazards raster_path false = Ok result
    ∧ (Qsum result.*2
       == Raster.coverage_sum src
            (in_raster_frame src "EPSG:4326"
               (unary_union (buffered_hazard <$> rows ch))))%Q.
Proof.
  intros Hload Hkept Hopen Hexact.
  assert (Hch : ∃ ch, prep_data fs path_to_hazards = Ok ch).
  { rewrite (prep_data_Ok fs path_to_hazards df Hload Hkept). by eexists. }
  destruct Hch as [ch Hch].
  destruct (combine_overlapping_geometries_rows (footprints ch))
    as (merged & Hmerged & Hcrs & _).
  destruct (combine_overlapping_geometries_partition (footprints ch))
    as (merged' & Hmerged' & Hdisj & Hunion & _).
  rewrite Hmerged in Hmerged'. injection Hmerged' as <-.
  eexists ch, _. split; [done|]. split.
  { rewrite (find_num_people_affected_unfold fs _ _ false ch merged Hch Hmerged).
    rewrite Hopen. reflexivity. }
  rewrite Hcrs. cbn [footprints crs]. unfold exposure.
  rewrite <- list_fmap_compose.
  set (T := in_raster_frame src "EPSG:4326") in *.
  transitivity (Qsum (Raster.coverage_sum src <$> (T <$> (region_geometry <$> rows merged)))).
  { rewrite <- !list_fmap_compose. reflexivity. }
  rewrite coverage_sum_union_list.
  - rewrite <- (keeps_unions_list T) by done.
    replace (⋃ (region_geometry <$> rows merged))
      with (unary_union (buffered_hazard <$> rows ch)); [reflexivity|].
    unfold unary_union in *. rewrite Hunion. unfold footprints. cbn [rows].
    by rewrite <- list_fmap_compose.
  - intros i j a b Hij Hi Hj.
    rewrite !list_lookup_fmap in Hi, Hj.
    destruct (rows merged !! i) as [r|] eqn:Hr; [|done].
    destruct (rows merged !! j) as [r'|] eqn:Hr'; [|done].
    injection Hi as <-. injection Hj as <-.
    destruct Hexact as (_ & _ & Hpres). apply Hpres.
    by apply (Hdisj i j).
Qed.

(** An instance: the three squares on the uniform raster; the raster is
    in the frame of the hazards and nothing is transformed. *)
Lemma find_num_people_affected_counts_once_witness :
  ∃ ch result,
    prep_data (K := Examples.square_kernel) Examples.files "hazards.geojson"
    = Ok ch
    ∧ find_num_people_affected (K := Examples.square_kernel) Examples.files
        "hazards.geojson" "pop.tif" false = Ok result
    ∧ (Qsum result.*2
       == Raster.coverage_sum Examples.uniform_raster
            (in_raster_frame (K := Examples.square_kernel)
               Examples.uniform_raster "EPSG:4326"
               (unary_union (buffered_hazard <$> rows ch))))%Q.
Proof.
  apply (find_num_people_affected_counts_once (K := Examples.square_kernel)
           Examples.files "hazards.geojson" "pop.tif"
           Examples.three_squares Examples.uniform_raster).
  - reflexivity.
  - reflexivity.
  - reflexivity.
  - split; [reflexivity|]. split; [reflexivity|]. intros a b Hab. exact Hab.
Defined.

(** ** Splitting by spatial unit *)

Lemma fmap_bind_concat {A B C} (f : B → C) (g : A → list B) (l : list A) :
  f <$> (l ≫= g) = concat ((λ x, f <$> g x) <$> l).
Proof.
  induction l as [|x l IH]; [done|].
  rewrite bind_cons, fmap_app, fmap_cons. cbn [concat]. by rewrite IH.
Qed.

Lemma measured_pieces_blocks {K : GeoKernel} (src : raster)
    (regions : list region) (ad_geo : gdf spatial_unit) :
  measured_pieces src regions ad_geo
  = concat ((λ r, block_of src r (rows ad_geo)) <$> regions).
Proof. unfold measured_pieces, overlay. cbn [rows]. apply fmap_bind_concat. Qed.

Lemma block_of_ids {K : GeoKernel} (src : raster) (r : region)
    (us : list spatial_unit) :
  Forall (λ row, row.1.1 = region_ID r) (block_of src r us).
Proof.
  unfold block_of. apply Forall_fmap, Forall_forall.
  intros pc (u & Hpc & _)%list_elem_of_bind. cbn in Hpc.
  destruct (is_empty _); [by apply elem_of_nil in Hpc|].
  by apply list_elem_of_singleton in Hpc as ->.
Qed.

Lemma block_of_sum {K : GeoKernel} (src : raster) (r : region)
    (us : list spatial_unit) :
  keeps_unions (in_raster_frame src "EPSG:4326") →
  non_overlapping (unit_geometry <$> us) = true →
  (Qsum (block_of src r us).*2
   == Raster.coverage_sum src
        (in_raster_frame src "EPSG:4326"
           (region_geometry r ∩ ⋃ (unit_geometry <$> us))))%Q.
Proof.
  intros Hexact. pose proof Hexact as (Hempty & Hunion & Hpres).
  set (T := in_raster_frame src "EPSG:4326") in *.
  induction us as [|u us IH]; intros Hno.
  - cbn. rewrite intersection_empty_r_L, Hempty. symmetry.
    apply coverage_sum_empty.
  - rewrite fmap_cons in Hno. cbn [non_overlapping] in Hno.
    apply andb_true_iff in Hno as [Hu Hno]. specialize (IH Hno).
    rewrite forallb_forall in Hu.
    assert (Hapart : unit_geometry u ## ⋃ (unit_geometry <$> us)).
    { intros x Hx (h & Hh & Hxh)%elem_of_union_list.
      apply list_elem_of_In, Hu, bool_decide_eq_true in Hh. by apply (Hh x). }
    unfold block_of in *. rewrite bind_cons, !fmap_app, Qsum_app, IH.
    rewrite fmap_cons.
    change (⋃ (unit_geometry u :: (unit_geometry <$> us)))
      with (unit_geometry u ∪ ⋃ (unit_geometry <$> us)).
    rewrite intersection_union_l_L, Hunion, coverage_sum_union
      by (apply Hpres; set_solver).
    apply Qplus_comp; [|reflexivity].
    cbn zeta. unfold is_empty. case_bool_decide as Hg.
    + rewrite Hg, Hempty. cbn. symmetry. apply coverage_sum_empty.
    + cbn. fold T. lra.
Qed.

(** X23.  When both files load, the hazard file with a hazard to prepare
    and none that is empty once repaired and reprojected, and the raster
    opens, the units as prepared do not overlap one another, and taking a geometry to the
    frame of the raster is exact, the rows that the workflow by spatial
    unit reports hazard by hazard come in one block for each hazard, in
    the order of the hazards; the rows of a block carry the identifier of
    the hazard, and their populations add up to the population of the
    part of the buffered footprint that lies in the units: splitting a
    footprint by unit loses nobody and counts nobody twice. *)
Theorem find_num_people_affected_by_geo_counts_once {K : GeoKernel}
    {O : RowOrder} (fs : FileSystem) (ufs : UnitFiles)
    (path_to_hazards path_to_additional_geos raster_path : string)
    (df : gdf hazard) (units : gdf spatial_unit) (src : raster) :
  load_ch fs path_to_hazards = Ok df →
  prepares df = true →
  truthy (Some path_to_additional_geos) = true →
  load_ch_rows (read_unit_file ufs) (read_unit_parquet ufs)
    path_to_additional_geos = Ok units →
  rasterio_open fs raster_path = Ok src →
  non_overlapping (prepared_units units) = true →
  keeps_unions (in_raster_frame src "EPSG:4326") →
  ∃ ch blocks,
    prep_data fs path_to_hazards = Ok ch
    ∧ find_num_people_affected_by_geo fs ufs path_to_hazards
        path_to_additional_geos raster_path true = Ok (concat blocks)
    ∧ Forall2
        (λ b blk,
           Forall (λ row, row.1.1 = buffered_ID b) blk
           ∧ (Qsum blk.*2
              == Raster.coverage_sum src
                   (in_raster_frame src "EPSG:4326"
                      (buffered_hazard b ∩ unary_union (prepared_units units))))%Q)
        (rows ch) blocks.
Proof.
  intros Hload Hkept Htruthy Hunits Hopen Hno Hexact.
  assert (Hch : ∃ ch, prep_data fs path_to_hazards = Ok ch).
  { rewrite (prep_data_Ok fs path_to_hazards df Hload Hkept). by eexists. }
  destruct Hch as [ch Hch].
  pose proof (WorkflowFacts.prep_geographies_spatial_unit_rows ufs _ units Hunits)
    as Had.
  match type of Had with _ = Ok ?g => set (ad_geo := g) in * end.
  assert (Hgeoms : unit_geometry <$> rows ad_geo = prepared_units units).
  { unfold ad_geo, prepared_units. cbn [rows]. by rewrite <- list_fmap_compose. }
  pose proof (WorkflowFacts.prep_data_geos_pair fs ufs _ _ ch ad_geo
                Hch Htruthy Had) as Hprep.
  exists ch, ((λ r, block_of src r (rows ad_geo)) <$> rows (footprints ch)).
  split; [done|]. split.
  - rewrite <- measured_pieces_blocks.
    by apply (WorkflowFacts.find_num_people_affected_by_geo_unfold
                fs ufs _ _ _ true src ch ad_geo
                (Gdf undeclared (rows (footprints ch)))).
  - unfold footprints. cbn [rows]. rewrite <- list_fmap_compose.
    apply Forall2_fmap_r, Forall_Forall2_diag, Forall_forall.
    intros b _. split.
    + apply (block_of_ids src (Region (buffered_ID b) (buffered_hazard b))).
    + pose proof (block_of_sum src (Region (buffered_ID b) (buffered_hazard b))
                    (rows ad_geo) Hexact) as Hsum.
      rewrite Hgeoms in Hsum. exact (Hsum Hno).
Qed.

(** An instance: the three squares against the two halves of the grid on
    the uniform raster. *)
Lemma find_num_people_affected_by_geo_counts_once_witness :
  ∃ ch blocks,
    prep_data (K := Examples.square_kernel) Examples.files "hazards.geojson"
    = Ok ch
    ∧ find_num_people_affected_by_geo (K := Examples.square_kernel)
        Examples.files Examples_unit_files "hazards.geojson" "units.geojson"
        "pop.tif" true = Ok (concat blocks)
    ∧ Forall2
        (λ b blk,
           Forall (λ row, row.1.1 = buffered_ID b) blk
           ∧ (Qsum blk.*2
              == Raster.coverage_sum Examples.uniform_raster
                   (in_raster_frame (K := Examples.square_kernel)
                      Examples.uniform_raster "EPSG:4326"
                      (buffered_hazard b
                       ∩ unary_union
                           (prepared_units (K := Examples.square_kernel)
                              Examples_units))))%Q)
        (rows ch) blocks.
Proof.
  apply (find_num_people_affected_by_geo_counts_once
           (K := Examples.square_kernel) Examples.files Examples_unit_files
           "hazards.geojson" "units.geojson" "pop.tif"
           Examples.three_squares Examples_units Examples.uniform_raster).
  - reflexivity.
  - reflexivity.
  - reflexivity.
  - reflexivity.
  - reflexivity.
  - vm_compute. reflexivity.
  - split; [reflexivity|]. split; [reflexivity|]. intros a b Hab. exact Hab.
Defined.

(** X24.  When the unit file loads and the raster opens, the units as
    prepared do not overlap one another, and taking a geometry to the
    frame of the raster is exact, the residents that are reported unit
    by unit add up to the population of the union of the units. *)
Theorem find_number_of_people_residing_by_geo_counts_once {K : GeoKernel}
    (fs : FileSystem) (ufs : UnitFiles)
    (path_to_additional_geos raster_path : string)
    (units : gdf spatial_unit) (src : raster) :
  load_ch_rows (read_unit_file ufs) (read_unit_parquet ufs)
    path_to_additional_geos = Ok units →
  rasterio_open fs raster_path = Ok src →
  non_overlapping (prepared_units units) = true →
  keeps_unions (in_raster_frame src "EPSG:4326") →
  ∃ result,
    find_number_of_people_residing_by_geo fs ufs path_to_additional_geos
      raster_path = Ok result
    ∧ (Qsum result.*2
       == Raster.coverage_sum src
            (in_raster_frame src "EPSG:4326"
               (unary_union (prepared_units units))))%Q.
Proof.
  intros Hunits Hopen Hno Hexact.
  pose proof (WorkflowFacts.prep_geographies_spatial_unit_rows ufs _ units Hunits)
    as Had.
  eexists. split.
  { unfold find_number_of_people_residing_by_geo. rewrite Had.
    cbn [mbind except_bind].
    exact (WorkflowFacts.mask_raster_partial_pixel_boxes fs _ raster_path src
             ID_spatial_unit Hopen (λ _ _, eq_refl) (λ _ _, eq_refl)). }
  cbn [rows crs]. rewrite <- !list_fmap_compose.
  set (T := in_raster_frame src "EPSG:4326") in *.
  transitivity (Qsum (Raster.coverage_sum src <$> (T <$> prepared_units units))).
  { unfold prepared_units. rewrite <- !list_fmap_compose. reflexivity. }
  rewrite coverage_sum_union_list.
  - unfold unary_union. by rewrite (keeps_unions_list T).
  - intros i j a b Hij Hi Hj. rewrite !list_lookup_fmap in Hi, Hj.
    destruct (prepared_units units !! i) as [g|] eqn:Hg; [|done].
    destruct (prepared_units units !! j) as [h|] eqn:Hh; [|done].
    injection Hi as <-. injection Hj as <-.
    destruct Hexact as (_ & _ & Hpres). apply Hpres.
    by apply (non_overlapping_lookup (prepared_units units) i j).
Qed.

(** An instance: the two halves of the grid on the uniform raster. *)
Lemma find_number_of_people_residing_by_geo_counts_once_witness :
  ∃ result,
    find_number_of_people_residing_by_geo (K := Examples.square_kernel)
      Examples.files Examples_unit_files "units.geojson" "pop.tif" = Ok result
    ∧ (Qsum result.*2
       == Raster.coverage_sum Examples.uniform_raster
            (in_raster_frame (K := Examples.square_kernel)
               Examples.uniform_raster "EPSG:4326"
               (unary_union
                  (prepared_units (K := Examples.square_kernel)
                     Examples_units))))%Q.
Proof.
  apply (find_number_of_people_residing_by_geo_counts_once
           (K := Examples.square_kernel) Examples.files Examples_unit_files
           "units.geojson" "pop.tif" Examples_units Examples.uniform_raster).
  - reflexivity.
  - reflexivity.
  - vm_compute. reflexivity.
  - split; [reflexivity|]. split; [reflexivity|]. intros a b Hab. exact Hab.
Defined.

End PopulationFacts.
